(** * HUML external tokenizers of lang-huml

    A shallow embedding of the hand-written Lezer tokenizers of the HUML
    grammar (the tokenizer module that the README calls [src/tokens.ts]):
    the indentation context tracker [trackIndent] and the external
    tokenizers [indentation], [multilineStrings], [keyToken],
    [listMarkToken], [stringToken] and [numberToken].

    Characters are UTF-16 code units, kept as [Z] because the code compares
    them with the sentinel [-1] that [peek] returns past the end of the
    document.  Offsets are [nat].  A tokenizer either calls
    [input.acceptToken] or returns without doing so; the embedding returns
    this as an [Outcome]. *)

From Stdlib Require Import ZArith Lia List Bool.
From Stdlib Require Strings.String Strings.Ascii DecimalString.
From stdpp Require Import base list gmap.
Import String.StringSyntax.

(** JavaScript strict (in)equality on numbers. *)
Notation "a === b" := (Z.eqb a b) (at level 70, no associativity).
Notation "a !== b" := (negb (Z.eqb a b)) (at level 70, no associativity).

(** ** Constants *)

Definition NEWLINE : Z := 10.
Definition CR : Z := 13.
Definition SPACE : Z := 32.
Definition TAB : Z := 9.
Definition HASH : Z := 35.
Definition QUOTE : Z := 34.
Definition BACKTICK : Z := 96.
Definition BACKSLASH : Z := 92.
Definition DASH : Z := 45.
Definition UNDERSCORE : Z := 95.
Definition PLUS : Z := 43.
Definition DOT : Z := 46.
Definition LOWER_A : Z := 97.
Definition LOWER_Z : Z := 122.
Definition UPPER_A : Z := 65.
Definition UPPER_Z : Z := 90.
Definition DIGIT_0 : Z := 48.
Definition DIGIT_1 : Z := 49.
Definition DIGIT_7 : Z := 55.
Definition DIGIT_9 : Z := 57.
Definition LOWER_E : Z := 101.
Definition UPPER_E : Z := 69.
Definition LOWER_X : Z := 120.
Definition UPPER_X : Z := 88.
Definition LOWER_B : Z := 98.
Definition UPPER_B : Z := 66.
Definition LOWER_O : Z := 111.
Definition UPPER_O : Z := 79.
Definition LOWER_U : Z := 117.

(** The end-of-input sentinel of [InputStream.peek]. *)
Definition EOF : Z := -1.

(** ** Helpers *)

Definition isAlpha (c : Z) : bool :=
  ((LOWER_A <=? c)%Z && (c <=? LOWER_Z)%Z)
  || ((UPPER_A <=? c)%Z && (c <=? UPPER_Z)%Z)
  || (c === UNDERSCORE).

Definition isDigit (c : Z) : bool :=
  (DIGIT_0 <=? c)%Z && (c <=? DIGIT_9)%Z.

Definition isAlphaNum (c : Z) : bool :=
  isAlpha c || isDigit c || (c === DASH).

Definition isHex (c : Z) : bool :=
  isDigit c
  || ((LOWER_A <=? c)%Z && (c <=? 102)%Z)
  || ((UPPER_A <=? c)%Z && (c <=? 70)%Z).

(** ** Terminals

    The term identifiers imported from the generated [huml-parser.terms];
    [Literal] stands for every other terminal of the grammar (punctuation,
    keywords, comments), which the context tracker also sees. *)

Inductive Term : Type :=
| Indent
| Dedent
| Newline
| BlockString
| FoldedString
| Key
| ListMark
| StringToken
| NumberToken
| Literal (id : nat).

#[global] Instance Term_eq_dec : EqDecision Term.
Proof. solve_decision. Defined.

(** ** Context tracker *)

Module trackIndent.

Definition start : Z := 0.

Definition shift (context : Z) (term : Term) : Z :=
  if decide (term = Indent) then (context + 2)%Z
  else if decide (term = Dedent) then (context - 2)%Z
  else context.

Definition hash (context : Z) : Z := context.

End trackIndent.

(** ** The Lezer input stream and parse stack, as the tokenizers use them

    [chunk] is the document, [pos] the current scan position.  [peek]
    answers [-1] outside the document, [advance] stops at its end.  Of the
    parse stack a tokenizer reads only [context]; [state] is the LR state
    the parser is in. *)

Record InputStream : Type := mkInput { chunk : list Z; pos : nat }.

Record Stack : Type := mkStack { state : nat; context : Z }.

Definition peek (input : InputStream) (offset : nat) : Z :=
  default EOF (chunk input !! (pos input + offset)).

Definition advance (input : InputStream) (n : nat) : InputStream :=
  {| chunk := chunk input;
     pos := Nat.min (pos input + n) (length (chunk input)) |}.

(** What a tokenizer run leaves behind: the accepted terminal with the
    absolute end of its span (the span starts where the run started), or
    nothing.  [OutOfFuel] does not exist in the source: it marks a loop of
    the embedding that was cut before the source loop would have ended, and
    every tokenizer is shown never to produce it. *)

Inductive Outcome : Type :=
| Accept (term : Term) (tokenEnd : nat)
| Decline
| OutOfFuel.

Definition acceptToken (input : InputStream) (token : Term) (endOffset : nat)
  : Outcome :=
  Accept token (pos input + endOffset).

(** ** Loops

    [loopWhile] is [while (cond) body] without early exit; [while] is
    [while (true)] whose body either continues with a new state or leaves
    the tokenizer with an outcome. *)

Fixpoint loopWhile {St : Type} (fuel : nat) (cond : St -> bool)
  (body : St -> St) (s : St) : St :=
  match fuel with
  | O => s
  | S fuel' => if cond s then loopWhile fuel' cond body (body s) else s
  end.

Fixpoint while {St R : Type} (fuel : nat) (body : St -> St + R) (s : St)
  : option R :=
  match fuel with
  | O => None
  | S fuel' =>
      match body s with
      | inl s' => while fuel' body s'
      | inr r => Some r
      end
  end.

Definition run (r : option Outcome) : Outcome := default OutOfFuel r.

(** Every loop below moves forward in the document at each iteration, so
    the length of the document bounds the number of iterations. *)
Definition fuelFor (input : InputStream) : nat := S (length (chunk input)).

(** ** indentation *)

Definition isIndentChar (c : Z) : bool := (c === SPACE) || (c === TAB).

Definition indentation (input : InputStream) (stack : Stack) : Outcome :=
  let c := peek input 0 in
  if c === EOF then
    if (0 <? context stack)%Z then acceptToken input Dedent 0 else Decline
  else if (c !== NEWLINE) && (c !== CR) then Decline
  else
    let '(spaces, p) :=
      loopWhile (fuelFor input)
        (fun '(_, p) => isIndentChar (peek input p))
        (fun '(spaces, p) => (S spaces, S p))
        (0, 1) in
    let next := peek input p in
    if (next === NEWLINE) || (next === CR) || (next === EOF) then
      acceptToken input Newline 1
    else if (context stack <? Z.of_nat spaces)%Z then
      acceptToken input Indent p
    else if (Z.of_nat spaces <? context stack)%Z then
      acceptToken input Dedent 0
    else
      acceptToken input Newline p.

(** ** multilineStrings *)

Definition MAX_LENGTH : Z := 1000000.

Definition indentBody (s : nat * InputStream * Z) : nat * InputStream * Z :=
  let '(currentIndent, input, len) := s in
  (S currentIndent, advance input 1, (len + 1)%Z).

Definition multilineBody (start : Z) (type : Term) (stack : Stack)
  (s : InputStream * Z) : (InputStream * Z) + Outcome :=
  let '(input, len) := s in
  if negb (len <? MAX_LENGTH)%Z then inr (acceptToken input type 0)
  else
    let next := peek input 0 in
    if next === EOF then inr Decline
    else if (next === NEWLINE) || (next === CR) then
      let input := advance input 1 in
      let len := (len + 1)%Z in
      let '(currentIndent, input, len) :=
        loopWhile (fuelFor input)
          (fun '(_, input, _) => isIndentChar (peek input 0))
          indentBody
          (0, input, len) in
      if (peek input 0 === start) && (peek input 1 === start)
         && (peek input 2 === start) then
        if Z.of_nat currentIndent !== context stack then inr Decline
        else inr (acceptToken (advance input 3) type 0)
      else inl (input, len)
    else if next === BACKSLASH then inl (advance input 2, (len + 2)%Z)
    else inl (advance input 1, (len + 1)%Z).

Definition multilineStrings (input : InputStream) (stack : Stack) : Outcome :=
  let start := peek input 0 in
  if (start !== QUOTE) && (start !== BACKTICK) then Decline
  else if (peek input 1 !== start) || (peek input 2 !== start) then Decline
  else
    let type := if start === QUOTE then BlockString else FoldedString in
    let input := advance input 3 in
    let afterDelim := peek input 0 in
    if (afterDelim !== NEWLINE) && (afterDelim !== CR) && (afterDelim !== EOF)
    then Decline
    else run (while (fuelFor input) (multilineBody start type stack) (input, 0%Z)).

(** ** keyToken *)

Definition keyToken (input : InputStream) : Outcome :=
  let c := peek input 0 in
  if negb (isAlpha c) then Decline
  else
    let p := loopWhile (fuelFor input)
               (fun p => isAlphaNum (peek input p)) S 1 in
    let first := peek input 0 in
    if (p <=? 5)
       && (((p =? 4) && (first === 116) && (peek input 1 === 114)
            && (peek input 2 === 117) && (peek input 3 === 101))
           || ((p =? 5) && (first === 102) && (peek input 1 === 97)
               && (peek input 2 === 108) && (peek input 3 === 115)
               && (peek input 4 === 101))
           || ((p =? 4) && (first === 110) && (peek input 1 === 117)
               && (peek input 2 === 108) && (peek input 3 === 108))
           || ((p =? 3) && (first === 110) && (peek input 1 === 97)
               && (peek input 2 === 110))
           || ((p =? 3) && (first === 105) && (peek input 1 === 110)
               && (peek input 2 === 102)))
    then Decline
    else acceptToken input Key p.

(** ** listMarkToken *)

Definition listMarkToken (input : InputStream) : Outcome :=
  if peek input 0 !== DASH then Decline
  else if isDigit (peek input 1) then Decline
  else acceptToken input ListMark 1.

(** ** stringToken *)

Definition simpleEscapes : list Z :=
  [QUOTE; BACKSLASH; 47; 98; 102; 110; 114; 116]%Z.

Definition includes (l : list Z) (c : Z) : bool := existsb (Z.eqb c) l.

Definition stringBody (input : InputStream) (p : nat) : nat + Outcome :=
  let next := peek input p in
  if next === EOF then inr Decline
  else if (next === NEWLINE) || (next === CR) then inr Decline
  else if (next === QUOTE) && (peek input (p - 1) !== BACKSLASH) then
    inr (acceptToken input StringToken (p + 1))
  else if next === BACKSLASH then
    let esc := peek input (p + 1) in
    if esc === EOF then inr Decline
    else if esc === LOWER_U then
      if forallb (fun i => isHex (peek input (p + 2 + i))) (seq 0 4)
      then inl (p + 6)
      else inr Decline
    else if includes simpleEscapes esc then inl (p + 2)
    else inr Decline
  else inl (p + 1).

Definition stringToken (input : InputStream) : Outcome :=
  if peek input 0 !== QUOTE then Decline
  else run (while (fuelFor input) (stringBody input) 1).

(** ** numberToken *)

Definition isDigitOrUnderscore (input : InputStream) (p : nat) : bool :=
  isDigit (peek input p) || (peek input p === UNDERSCORE).

Definition isHexOrUnderscore (input : InputStream) (p : nat) : bool :=
  isHex (peek input p) || (peek input p === UNDERSCORE).

Definition octalBody (input : InputStream) (s : nat * bool)
  : (nat * bool) + Outcome :=
  let '(p, valid) := s in
  let d := peek input p in
  if (DIGIT_0 <=? d)%Z && (d <=? DIGIT_7)%Z then inl (S p, true)
  else if d === UNDERSCORE then inl (S p, valid)
  else if isDigit d then inr Decline
  else inr (if valid then acceptToken input NumberToken p else Decline).

Definition binaryBody (input : InputStream) (s : nat * bool)
  : (nat * bool) + Outcome :=
  let '(p, valid) := s in
  let d := peek input p in
  if (d === DIGIT_0) || (d === DIGIT_1) then inl (S p, true)
  else if d === UNDERSCORE then inl (S p, valid)
  else if isDigit d then inr Decline
  else inr (if valid then acceptToken input NumberToken p else Decline).

Definition integerBody (input : InputStream) (s : bool * nat) : bool * nat :=
  let '(hasDigit, p) := s in
  ((if isDigit (peek input p) then true else hasDigit), S p).

Definition decimal (input : InputStream) (p : nat) : Outcome :=
  let '(hasDigit, p) :=
    loopWhile (fuelFor input)
      (fun '(_, p) => isDigitOrUnderscore input p)
      (integerBody input)
      (false, p) in
  let '(hasDigit, p) :=
    if peek input p === DOT then
      let p := S p in
      if isDigit (peek input p) then
        (true, loopWhile (fuelFor input) (isDigitOrUnderscore input) S p)
      else (hasDigit, p)
    else (hasDigit, p) in
  let e := peek input p in
  if (e === LOWER_E) || (e === UPPER_E) then
    if negb hasDigit then Decline
    else
      let p := S p in
      let sign := peek input p in
      let p := if (sign === PLUS) || (sign === DASH) then S p else p in
      if negb (isDigit (peek input p)) then Decline
      else
        let p := loopWhile (fuelFor input) (isDigitOrUnderscore input) S p in
        if hasDigit then acceptToken input NumberToken p else Decline
  else if hasDigit then acceptToken input NumberToken p else Decline.

Definition numberToken (input : InputStream) : Outcome :=
  let c := peek input 0 in
  let '(p, c) :=
    if (c === PLUS) || (c === DASH) then (1, peek input 1) else (0, c) in
  if negb (isDigit c) then Decline
  else
    let next := peek input (p + 1) in
    if (c === DIGIT_0) && ((next === LOWER_X) || (next === UPPER_X)) then
      let p := p + 2 in
      if negb (isHex (peek input p)) then Decline
      else
        let p := loopWhile (fuelFor input) (isHexOrUnderscore input) S p in
        acceptToken input NumberToken p
    else if (c === DIGIT_0) && ((next === LOWER_O) || (next === UPPER_O)) then
      run (while (fuelFor input) (octalBody input) (p + 2, false))
    else if (c === DIGIT_0) && ((next === LOWER_B) || (next === UPPER_B)) then
      run (while (fuelFor input) (binaryBody input) (p + 2, false))
    else decimal input p.

(** ** Documents for examples *)

Fixpoint codes (s : String.string) : list Z :=
  match s with
  | String.EmptyString => []
  | String.String a s' => Z.of_N (Ascii.N_of_ascii a) :: codes s'
  end.

Delimit Scope string_scope with string.
Arguments codes s%_string.

Definition document (text : list Z) : InputStream := mkInput text 0.

Definition atContext (c : Z) : Stack := mkStack 0 c.

(** ** Reading the loops

    [iterates body s s'] : the loop with this body, entered in state [s],
    comes to the head of an iteration in state [s']. *)

Inductive iterates {St R : Type} (body : St -> St + R) : St -> St -> Prop :=
| iterates_here (s : St) : iterates body s s
| iterates_next (s s' s'' : St) :
    body s = inl s' -> iterates body s' s'' -> iterates body s s''.

(** ** Lines, in the words of the specification *)

Definition isTerminator (c : Z) : bool := (c === NEWLINE) || (c === CR).

Fixpoint indentWidth (l : list Z) : nat :=
  match l with
  | c :: l' => if isIndentChar c then S (indentWidth l') else 0
  | [] => 0
  end.

(** The run of spaces and tabs that follows the character at the current
    position. *)
Definition leadingWhitespace (input : InputStream) : nat :=
  indentWidth (drop (pos input + 1) (chunk input)).

(** A line terminator whose whitespace run is followed by another
    terminator or by the end of the document. *)
Definition blankLine (input : InputStream) : bool :=
  isTerminator (peek input 0)
  && (isTerminator (peek input (1 + leadingWhitespace input))
      || (peek input (1 + leadingWhitespace input) === EOF)).

(** Three fence characters at offset [k]. *)
Definition fenceAt (start : Z) (input : InputStream) (k : nat) : bool :=
  (peek input k === start) && (peek input (k + 1) === start)
  && (peek input (k + 2) === start).

Definition fenceType (start : Z) : Term :=
  if start === QUOTE then BlockString else FoldedString.

(** The characters of the document between two offsets from the current
    position. *)
Definition span (input : InputStream) (a b : nat) : list Z :=
  take (b - a) (drop (pos input + a) (chunk input)).

(** ** Statements about the line-boundary tokenizer *)

(** The decisions of [indentation] on a line terminator followed by a
    whitespace run of [spaces] characters, and at the end of the document. *)
Definition boundaryDecisions (input : InputStream) (stack : Stack) : Prop :=
  (isTerminator (peek input 0) = true ->
   let spaces := leadingWhitespace input in
   ((context stack < Z.of_nat spaces)%Z ->
    indentation input stack = Accept Indent (pos input + 1 + spaces))
   /\ ((Z.of_nat spaces < context stack)%Z ->
       indentation input stack = Accept Dedent (pos input))
   /\ (Z.of_nat spaces = context stack ->
       indentation input stack = Accept Newline (pos input + 1 + spaces)))
  /\ (peek input 0 = EOF -> (0 < context stack)%Z ->
      indentation input stack = Accept Dedent (pos input)).

(** A line whose whitespace run is longer than the tracked context. *)
Definition overIndented (input : InputStream) (stack : Stack) : Prop :=
  isTerminator (peek input 0) = true
  /\ (context stack < Z.of_nat (leadingWhitespace input))%Z.

(** One Indent for the line: the run is consumed by an Indent, the tracker
    adds one step, and at the first character of the line the tokenizer
    has nothing more to say. *)
Definition oneIndent (input : InputStream) (stack : Stack) : Prop :=
  let lineStart := pos input + 1 + leadingWhitespace input in
  indentation input stack = Accept Indent lineStart
  /\ trackIndent.shift (context stack) Indent = (context stack + 2)%Z
  /\ forall stack' : Stack,
      indentation (mkInput (chunk input) lineStart) stack' = Decline.

(** The probe of [multilineStrings] for a closing fence after a line
    terminator finds the fence and closes the token. *)
Definition closesAt (start : Z) (stack : Stack) (input : InputStream)
  (len : Z) : Prop :=
  multilineBody start (fenceType start) stack (input, len)
  = inr (Accept (fenceType start)
           (pos input + 1 + leadingWhitespace input + 3)).

(** ** Statements about the multiline string tokenizer *)

(** The opening of a block: three equal fence characters followed by a line
    terminator or the end of the document. *)
Definition opensBlock (input : InputStream) : bool :=
  ((peek input 0 === QUOTE) || (peek input 0 === BACKTICK))
  && (peek input 1 === peek input 0) && (peek input 2 === peek input 0)
  && (isTerminator (peek input 3) || (peek input 3 === EOF)).

(** The body loop of [multilineStrings], entered behind the opening fence,
    comes to the head of an iteration at stream [at_] with [len] characters
    counted. *)
Definition bodyReaches (input : InputStream) (stack : Stack)
  (at_ : InputStream) (len : Z) : Prop :=
  iterates
    (multilineBody (peek input 0) (fenceType (peek input 0)) stack)
    (advance input 3, 0%Z) (at_, len).

(** A block whose first fence line is indented by two columns and whose
    second fence line is not indented. *)
Definition twoFences : list Z :=
  [QUOTE; QUOTE; QUOTE; NEWLINE; 97; 98; NEWLINE; SPACE; SPACE;
   QUOTE; QUOTE; QUOTE; NEWLINE; QUOTE; QUOTE; QUOTE]%Z.

(** ** Token sequences and the tracked context

    [emitted text terms context]: on document [text] the terminals [terms]
    can be shifted in this order from the start context, leaving the
    tracker at [context].  Every Indent and Dedent among them is one that
    [indentation] accepts, at some position of the document and in some
    parser state, under the context current at that point; the other
    terminals may come from any tokenizer. *)

Inductive emitted (text : list Z) : list Term -> Z -> Prop :=
| emitted_start : emitted text [] trackIndent.start
| emitted_boundary (terms : list Term) (context : Z) (at_ st : nat)
    (term : Term) (tokenEnd : nat) :
    emitted text terms context ->
    indentation (mkInput text at_) (mkStack st context)
    = Accept term tokenEnd ->
    emitted text (terms ++ [term]) (trackIndent.shift context term)
| emitted_other (terms : list Term) (context : Z) (term : Term) :
    emitted text terms context ->
    term <> Indent -> term <> Dedent ->
    emitted text (terms ++ [term]) (trackIndent.shift context term).

(** ** Statements about the number tokenizer *)

Definition isSign (l : list Z) : Prop := l = [] \/ l = [PLUS] \/ l = [DASH].

(** Width of the optional sign in front of a number. *)
Definition signWidth (input : InputStream) : nat :=
  if (peek input 0 === PLUS) || (peek input 0 === DASH) then 1 else 0.

Definition isOctal (c : Z) : bool := (DIGIT_0 <=? c)%Z && (c <=? DIGIT_7)%Z.

Definition isBinary (c : Z) : bool := (c === DIGIT_0) || (c === DIGIT_1).

(** The loops of the octal and of the binary mode differ only in the test
    for a digit of the base. *)
Definition basedBody (valid : Z -> bool) (input : InputStream)
  (s : nat * bool) : (nat * bool) + Outcome :=
  let '(p, seen) := s in
  let d := peek input p in
  if valid d then inl (S p, true)
  else if d === UNDERSCORE then inl (S p, seen)
  else if isDigit d then inr Decline
  else inr (if seen then acceptToken input NumberToken p else Decline).

(** The document holds the characters [l] from offset [p] on. *)
Definition reads (input : InputStream) (p : nat) (l : list Z) : Prop :=
  forall i c, l !! i = Some c -> peek input (p + i) = c.

(** A literal of the octal or binary mode that runs into a decimal digit
    the base does not have: the prefix letter, the digits and underscores
    read so far, and the offending digit. *)
Definition invalidForBase (letter : Z) (digits : list Z) (d : Z) : Prop :=
  isDigit d = true
  /\ (((letter = LOWER_O \/ letter = UPPER_O)
       /\ Forall (fun c => isOctal c || (c === UNDERSCORE) = true) digits
       /\ isOctal d = false)
      \/ ((letter = LOWER_B \/ letter = UPPER_B)
          /\ Forall (fun c => isBinary c || (c === UNDERSCORE) = true) digits
          /\ isBinary d = false)).

(** The decimal mode is entered when the first digit is not a [0] followed
    by one of the base letters. *)
Definition decimalMode (input : InputStream) : bool :=
  let p := signWidth input in
  let next := peek input (p + 1) in
  negb ((peek input p === DIGIT_0)
        && ((next === LOWER_X) || (next === UPPER_X)
            || (next === LOWER_O) || (next === UPPER_O)
            || (next === LOWER_B) || (next === UPPER_B))).

(** End of the run of digits and underscores that starts at offset [p]. *)
Definition scanDigits (input : InputStream) (p : nat) : nat :=
  loopWhile (fuelFor input) (isDigitOrUnderscore input) S p.

(** The shape of a decimal literal.  A digit run is a digit followed by
    digits and underscores.  The fraction is a dot followed by a digit run
    or by nothing at all. *)
Definition digitRun (l : list Z) : Prop :=
  exists d rest, l = d :: rest /\ isDigit d = true
    /\ Forall (fun c => isDigit c || (c === UNDERSCORE) = true) rest.

Definition fractionPart (l : list Z) : Prop :=
  l = [] \/ l = [DOT] \/ exists run, l = DOT :: run /\ digitRun run.

Definition exponentPart (l : list Z) : Prop :=
  l = []
  \/ exists e sign run, l = e :: sign ++ run
       /\ (e = LOWER_E \/ e = UPPER_E) /\ isSign sign /\ digitRun run.

Definition decimalNumber (l : list Z) : Prop :=
  exists sign int frac exp,
    l = sign ++ int ++ frac ++ exp
    /\ isSign sign /\ digitRun int /\ fractionPart frac /\ exponentPart exp.

(** No accepted number ends in a dot. *)
Definition noTrailingDot (input : InputStream) : Prop :=
  forall n, numberToken input = Accept NumberToken (pos input + S n) ->
            peek input n <> DOT.

(** ** Statements about the string tokenizer *)

(** The loop of [stringToken], entered behind the opening quote, comes to
    the head of an iteration at offset [p]. *)
Definition stringReaches (input : InputStream) (p : nat) : Prop :=
  peek input 0 = QUOTE /\ iterates (stringBody input) 1 p.

(** What can stand at the head of an iteration and end the string without a
    closing quote: the end of the document, a raw line terminator, a
    backslash followed by a character that is neither [u] nor a simple
    escape, and [\u] followed by fewer than four hex digits. *)
Definition breaksString (input : InputStream) (p : nat) : Prop :=
  peek input p = EOF
  \/ isTerminator (peek input p) = true
  \/ (peek input p = BACKSLASH /\ peek input (p + 1) <> LOWER_U
      /\ includes simpleEscapes (peek input (p + 1)) = false)
  \/ (peek input p = BACKSLASH /\ peek input (p + 1) = LOWER_U
      /\ exists i, i < 4 /\ isHex (peek input (p + 2 + i)) = false).

(** ** The tokenizers as the parser drives them *)

Inductive Tokenizer : Type :=
| TIndentation
| TMultilineStrings
| TKeyToken
| TListMarkToken
| TStringToken
| TNumberToken.

(** [ExternalTokenizer.token (input, stack)]. *)
Definition token (t : Tokenizer) (input : InputStream) (stack : Stack)
  : Outcome :=
  match t with
  | TIndentation => indentation input stack
  | TMultilineStrings => multilineStrings input stack
  | TKeyToken => keyToken input
  | TListMarkToken => listMarkToken input
  | TStringToken => stringToken input
  | TNumberToken => numberToken input
  end.

Record Token : Type := mkToken { kind : Term; tokenFrom : nat; tokenTo : nat }.

(** The parser asks the tokenizers of its state in order and takes the
    first token that is accepted. *)
Fixpoint firstAccepted (ts : list Tokenizer) (input : InputStream)
  (stack : Stack) : option Token :=
  match ts with
  | [] => None
  | t :: ts' =>
      match token t input stack with
      | Accept term tokenEnd => Some (mkToken term (pos input) tokenEnd)
      | _ => firstAccepted ts' input stack
      end
  end.

Section Parser.

(** The external parser: the tokenizers it asks in an LR state, and the
    state it goes to when it shifts a terminal. *)
Variable tokenizers : nat -> list Tokenizer.
Variable goto : nat -> Term -> nat.

Definition shiftToken (stack : Stack) (tok : Token) : Stack :=
  mkStack (goto (state stack) (kind tok))
    (trackIndent.shift (context stack) (kind tok)).

(** [tokenizes text at_ stack toks]: from offset [at_] and parse stack
    [stack] the tokenizers produce the tokens [toks], in this order, and
    then no tokenizer accepts. *)
Inductive tokenizes (text : list Z) : nat -> Stack -> list Token -> Prop :=
| tokenizes_stop (at_ : nat) (stack : Stack) :
    firstAccepted (tokenizers (state stack)) (mkInput text at_) stack = None ->
    tokenizes text at_ stack []
| tokenizes_token (at_ : nat) (stack : Stack) (tok : Token)
    (toks : list Token) :
    firstAccepted (tokenizers (state stack)) (mkInput text at_) stack
    = Some tok ->
    tokenizes text (tokenTo tok) (shiftToken stack tok) toks ->
    tokenizes text at_ stack (tok :: toks).

End Parser.

(** All six tokenizers, whatever the state. *)
Definition allTokenizers (st : nat) : list Tokenizer :=
  [TIndentation; TMultilineStrings; TKeyToken; TListMarkToken; TStringToken;
   TNumberToken].

(** ** Further statements about the tokenizers *)

(** The words [keyToken] leaves to the grammar. *)
Definition reservedWords : list (list Z) :=
  [codes "true"; codes "false"; codes "null"; codes "nan"; codes "inf"].

(** End of the run of key characters that starts behind the first one. *)
Definition keyEnd (input : InputStream) : nat :=
  loopWhile (fuelFor input) (fun p => isAlphaNum (peek input p)) S 1.

(** The states of the body loop: the stream stays inside the document,
    behind the opening fence, and the character count is the distance
    covered, or one more when a backslash was the last character. *)
Definition bodyState (input : InputStream) (s : InputStream * Z) : Prop :=
  chunk s.1 = chunk input
  /\ pos input + 3 <= pos s.1 <= length (chunk input)
  /\ (s.2 = Z.of_nat (pos s.1 - (pos input + 3))
      \/ (pos s.1 = length (chunk input)
          /\ s.2 = (Z.of_nat (pos s.1 - (pos input + 3)) + 1)%Z)).

(** The terminals of each tokenizer, as the grammar declares them. *)
Definition tokenizerTerms (t : Tokenizer) : list Term :=
  match t with
  | TIndentation => [Indent; Dedent; Newline]
  | TMultilineStrings => [BlockString; FoldedString]
  | TKeyToken => [Key]
  | TListMarkToken => [ListMark]
  | TStringToken => [StringToken]
  | TNumberToken => [NumberToken]
  end.

(** The first characters at which a tokenizer can accept. *)
Definition startsToken (t : Tokenizer) (input : InputStream) : Prop :=
  match t with
  | TIndentation => peek input 0 = EOF \/ isTerminator (peek input 0) = true
  | TMultilineStrings => peek input 0 = QUOTE \/ peek input 0 = BACKTICK
  | TKeyToken => isAlpha (peek input 0) = true
  | TListMarkToken => peek input 0 = DASH /\ isDigit (peek input 1) = false
  | TStringToken => peek input 0 = QUOTE
  | TNumberToken =>
      isDigit (peek input 0) = true
      \/ ((peek input 0 = PLUS \/ peek input 0 = DASH)
          /\ isDigit (peek input 1) = true)
  end.

(** The parser asking the indentation tokenizer only. *)
Definition onlyIndentation (st : nat) : list Tokenizer := [TIndentation].

(** The shape of a literal of the hexadecimal, octal or binary mode: the
    digits behind the prefix are digits of the base and underscores in any
    order, with a hex digit first in the hexadecimal mode and at least one
    digit of the base in the other two. *)
Definition basedNumber (l : list Z) : Prop :=
  exists sign letter digits,
    l = sign ++ DIGIT_0 :: letter :: digits /\ isSign sign
    /\ (((letter = LOWER_X \/ letter = UPPER_X)
         /\ Forall (fun c => isHex c || (c === UNDERSCORE) = true) digits
         /\ exists d rest, digits = d :: rest /\ isHex d = true)
        \/ ((letter = LOWER_O \/ letter = UPPER_O)
            /\ Forall (fun c => isOctal c || (c === UNDERSCORE) = true) digits
            /\ Exists (fun c => isOctal c = true) digits)
        \/ ((letter = LOWER_B \/ letter = UPPER_B)
            /\ Forall (fun c => isBinary c || (c === UNDERSCORE) = true) digits
            /\ Exists (fun c => isBinary c = true) digits)).

(** ** Syntax trees, as validator.ts and test-helpers.ts walk them

    A tree as a cursor of the Lezer library shows it: every node has a
    name, a span and its named children in document order. *)

#[warnings="-register-all"]
Inductive SyntaxNode : Type :=
| Node (name : list Z) (nodeFrom nodeTo : nat) (children : list SyntaxNode).

Definition name (node : SyntaxNode) : list Z :=
  match node with Node n _ _ _ => n end.

Definition nodeFrom (node : SyntaxNode) : nat :=
  match node with Node _ f _ _ => f end.

Definition nodeTo (node : SyntaxNode) : nat :=
  match node with Node _ _ t _ => t end.

Definition children (node : SyntaxNode) : list SyntaxNode :=
  match node with Node _ _ _ cs => cs end.

(** [node.name === s]. *)
Definition nameIs (node : SyntaxNode) (s : list Z) : bool :=
  bool_decide (name node = s).

(** The name of the error nodes of the parser, the sign U+26A0. *)
Definition ERROR_NODE : list Z := [9888%Z].

(** [tree.cursor().iterate(enter)]: [enter] is called on every node before
    its children, in document order, and the children of a node are left
    out when it answers [false].  The state the callback closes over is
    passed along. *)
Fixpoint iterate {A : Type} (enter : SyntaxNode -> A -> A * bool)
  (node : SyntaxNode) (acc : A) : A :=
  match node with
  | Node _ _ _ cs =>
      let '(acc, descend) := enter node acc in
      if descend then
        (fix siblings (l : list SyntaxNode) (acc : A) : A :=
           match l with
           | [] => acc
           | c :: l' => siblings l' (iterate enter c acc)
           end) cs acc
      else acc
  end.

(** [input.slice(from, to)] for offsets that are not negative. *)
Definition slice (input : list Z) (from to : nat) : list Z :=
  take (to - from) (drop from input).

(** A number in decimal, as a template literal prints it. *)
Definition numberString (n : nat) : list Z :=
  codes (DecimalString.NilZero.string_of_uint (Nat.to_uint n)).

(** *** validateTree *)

Definition duplicateMessage (keyText : list Z) (position : nat) : list Z :=
  codes "Duplicate key " ++ [QUOTE] ++ keyText ++ [QUOTE]
  ++ codes " found at position " ++ numberString position.

(** The nodes whose keys are checked, by name. *)
Definition isDictNode (node : SyntaxNode) : bool :=
  nameIs node (codes "DictBlockContent") || nameIs node (codes "InlineDict")
  || nameIs node (codes "RootInlineDict") || nameIs node (codes "Document")
  || nameIs node (codes "Properties").

(** One turn of the loop over the children of a dictionary node. *)
Definition checkChild (input : list Z)
  (s : gset (list Z) * list (list Z)) (child : SyntaxNode)
  : gset (list Z) * list (list Z) :=
  let '(seenKeys, errors) := s in
  if nameIs child (codes "Property") || nameIs child (codes "DictPair") then
    match children child with
    | keyNode :: _ =>
        if nameIs keyNode (codes "Key") || nameIs keyNode (codes "String") then
          let keyText := slice input (nodeFrom keyNode) (nodeTo keyNode) in
          if bool_decide (keyText ∈ seenKeys) then
            (seenKeys, errors ++ [duplicateMessage keyText (nodeFrom keyNode)])
          else ({[keyText]} ∪ seenKeys, errors)
        else s
    | [] => s
    end
  else s.

Definition validateTree (tree : SyntaxNode) (input : list Z)
  : list (list Z) :=
  iterate
    (fun node errors =>
       (if isDictNode node then
          (fold_left (checkChild input) (children node) (∅, errors)).2
        else errors,
        true))
    tree [].

(** *** test-helpers.ts *)

Definition hasParseErrors (tree : SyntaxNode) : bool :=
  iterate
    (fun node hasErrors =>
       if nameIs node ERROR_NODE then (true, false) else (hasErrors, true))
    tree false.

Record ParseError : Type :=
  mkParseError { errorFrom : nat; errorTo : nat; message : list Z }.

Definition getParseErrors (tree : SyntaxNode) (input : list Z)
  : list ParseError :=
  iterate
    (fun node errors =>
       (if nameIs node ERROR_NODE then
          errors ++ [mkParseError (nodeFrom node) (nodeTo node)
                       (slice input (nodeFrom node) (nodeTo node))]
        else errors,
        true))
    tree [].

Definition getNodeText (tree : SyntaxNode) (nodeName : list Z)
  (input : list Z) : list (list Z) :=
  iterate
    (fun node texts =>
       (if nameIs node nodeName then
          texts ++ [slice input (nodeFrom node) (nodeTo node)]
        else texts,
        true))
    tree [].

Definition countNodes (tree : SyntaxNode) (nodeName : list Z) : nat :=
  iterate
    (fun node count => (if nameIs node nodeName then S count else count, true))
    tree 0.

(** *** Reading a tree *)

(** All nodes of a tree, each before its children, in document order. *)
Fixpoint nodes (node : SyntaxNode) : list SyntaxNode :=
  match node with
  | Node _ _ _ cs =>
      node :: (fix below (l : list SyntaxNode) : list SyntaxNode :=
                 match l with
                 | [] => []
                 | c :: l' => nodes c ++ below l'
                 end) cs
  end.

(** The key texts of a dictionary node: for each child that is a Property
    or a DictPair and starts with a Key or a String, the text of that
    first child. *)
Definition pairKey (input : list Z) (child : SyntaxNode)
  : option (list Z) :=
  if nameIs child (codes "Property") || nameIs child (codes "DictPair") then
    match children child with
    | keyNode :: _ =>
        if nameIs keyNode (codes "Key") || nameIs keyNode (codes "String")
        then Some (slice input (nodeFrom keyNode) (nodeTo keyNode))
        else None
    | [] => None
    end
  else None.

Definition dictKeys (input : list Z) (node : SyntaxNode) : list (list Z) :=
  omap (pairKey input) (children node).

(** How many keys of a dictionary node repeat an earlier key of that node. *)
Definition duplicateCount (input : list Z) (node : SyntaxNode) : nat :=
  if isDictNode node then
    length (dictKeys input node)
    - size (list_to_set (dictKeys input node) : gset (list Z))
  else 0.

(** *** official-tests.test.ts: one assertion of the official suite

    [parse] is the generated parser.  The answer is the message of the
    error the test throws, or [None] when the test passes. *)

Fixpoint join (sep : list Z) (l : list (list Z)) : list Z :=
  match l with
  | [] => []
  | [x] => x
  | x :: l' => x ++ sep ++ join sep l'
  end.

Definition runAssertion (parse : list Z -> SyntaxNode) (input : list Z)
  (errorExpected : bool) : option (list Z) :=
  let tree := parse input in
  let hasSyntaxErrors := hasParseErrors tree in
  let validationErrors := validateTree tree input in
  let hasValidationErrors := 0 <? length validationErrors in
  let hasErrors := hasSyntaxErrors || hasValidationErrors in
  if errorExpected && negb hasErrors then
    Some (codes "expected error but got none")
  else if negb errorExpected && hasErrors then
    if hasSyntaxErrors then Some (codes "unexpected parse error")
    else if hasValidationErrors then
      Some (codes "unexpected validation error: "
            ++ join (codes ", ") validationErrors)
    else None
  else None.

(** A tree without error nodes in which no dictionary repeats a key. *)
Definition cleanTree (tree : SyntaxNode) (input : list Z) : Prop :=
  (forall node, node ∈ nodes tree -> name node <> ERROR_NODE)
  /\ (forall node, node ∈ nodes tree -> isDictNode node = true ->
      NoDup (dictKeys input node)).

(** The tree of the two lines [a: 1] and [a: 2]: the key [a] twice. *)
Definition twoKeys : SyntaxNode :=
  Node (codes "Document") 0 9
    [Node (codes "Property") 0 4
       [Node (codes "Key") 0 1 []; Node (codes "Number") 3 4 []];
     Node (codes "Property") 5 9
       [Node (codes "Key") 5 6 []; Node (codes "Number") 8 9 []]].

(** The tree of the one line [a: 1]. *)
Definition oneKey : SyntaxNode :=
  Node (codes "Document") 0 4
    [Node (codes "Property") 0 4
       [Node (codes "Key") 0 1 []; Node (codes "Number") 3 4 []]].

(** ** The linter (src/diagnostics.ts)

    [text] is [doc.toString ()], [tree] the syntax tree of the editor
    state. *)

Record Diagnostic : Type :=
  mkDiagnostic { diagFrom : nat; diagTo : nat; severity : list Z;
                 diagMessage : list Z }.

Definition COLON : Z := 58.

(** [text[i]]; the [undefined] of an index outside the text is [EOF]. *)
Definition charAt (text : list Z) (i : nat) : Z := default EOF (text !! i).

Definition validValueStart (code : Z) : bool :=
  ((48 <=? code)%Z && (code <=? 57)%Z)
  || ((65 <=? code)%Z && (code <=? 90)%Z)
  || ((97 <=? code)%Z && (code <=? 122)%Z)
  || (code === QUOTE) || (code === BACKTICK) || (code === 91) || (code === 123)
  || (code === PLUS) || (code === DASH).

(** One turn of the loop over the characters of the text. *)
Definition spacingBody (text : list Z) (s : nat * list Diagnostic)
  : nat * list Diagnostic :=
  let '(i, diagnostics) := s in
  let char := charAt text i in
  if (char === COLON) && (charAt text (i + 1) === COLON)
     && (i + 2 <? length text) then
    let afterDoubleColon := charAt text (i + 2) in
    let diagnostics :=
      if (afterDoubleColon !== EOF) && (afterDoubleColon !== SPACE)
         && (afterDoubleColon !== NEWLINE) && (afterDoubleColon !== CR)
         && (afterDoubleColon !== HASH) then
        if (afterDoubleColon === 91) || (afterDoubleColon === 123) then
          diagnostics
          ++ [mkDiagnostic (i + 2) (i + 2) (codes "error")
                (codes "Expected space after ::")]
        else diagnostics
      else diagnostics in
    (i + 2, diagnostics)
  else
    let diagnostics :=
      if (char === COLON) && (charAt text (i + 1) !== COLON) then
        let nextChar := charAt text (i + 1) in
        if (nextChar !== EOF) && (nextChar !== SPACE) && (nextChar !== NEWLINE)
           && (nextChar !== CR) && (nextChar !== HASH) then
          if validValueStart nextChar then
            diagnostics
            ++ [mkDiagnostic (i + 1) (i + 1) (codes "error")
                  (codes "Expected space after :")]
          else diagnostics
        else diagnostics
      else diagnostics in
    (i + 1, diagnostics).

Definition spacingDiagnostics (text : list Z) : list Diagnostic :=
  (loopWhile (length text)
     (fun '(i, _) => i <? length text - 1)
     (spacingBody text) (0, [])).2.

(** White space and line terminators, as [trim] strips them. *)
Definition isWhiteSpace (c : Z) : bool :=
  ((9 <=? c)%Z && (c <=? 13)%Z) || (c === 32) || (c === 160) || (c === 5760)
  || ((8192 <=? c)%Z && (c <=? 8202)%Z) || (c === 8232) || (c === 8233)
  || (c === 8239) || (c === 8287) || (c === 12288) || (c === 65279).

Fixpoint trimStart (s : list Z) : list Z :=
  match s with
  | c :: s' => if isWhiteSpace c then trimStart s' else s
  | [] => []
  end.

Definition trim (s : list Z) : list Z :=
  reverse (trimStart (reverse (trimStart s))).

Fixpoint startsWith (pattern s : list Z) : bool :=
  match pattern, s with
  | [], _ => true
  | p :: pattern', c :: s' => (c === p) && startsWith pattern' s'
  | _ :: _, [] => false
  end.

(** [s.lastIndexOf (pattern)], with [s] starting at index [i]. *)
Fixpoint lastIndexOfFrom (pattern s : list Z) (i : nat) : Z :=
  match s with
  | [] => if startsWith pattern [] then Z.of_nat i else (-1)%Z
  | _ :: s' =>
      let later := lastIndexOfFrom pattern s' (S i) in
      if (0 <=? later)%Z then later
      else if startsWith pattern s then Z.of_nat i else (-1)%Z
  end.

Definition lastIndexOf (s pattern : list Z) : Z :=
  lastIndexOfFrom pattern s 0.

(** The message for an error node. *)
Definition errorMessage (text : list Z) (node : SyntaxNode) : list Z :=
  let errorText := slice text (nodeFrom node) (nodeTo node) in
  if length (trim errorText) =? 0 then
    let beforeStart := nodeFrom node - 20 in
    let before := slice text beforeStart (nodeFrom node) in
    let afterEnd := Nat.min (length text) (nodeTo node + 20) in
    let after := slice text (nodeTo node) afterEnd in
    let afterTrimmed := trim after in
    let doubleColonIdx := lastIndexOf before (codes "::") in
    let singleColonIdx := lastIndexOf before (codes ":") in
    let dashIdx := lastIndexOf before (codes "-") in
    if (0 <=? doubleColonIdx)%Z && negb (startsWith (codes "-") afterTrimmed)
       && negb (startsWith (codes "[") afterTrimmed) then
      codes "Expected list item (-) or collection after ::"
    else if (0 <=? singleColonIdx)%Z && (doubleColonIdx <? singleColonIdx)%Z
            && (length afterTrimmed =? 0) then
      codes "Expected value after colon"
    else if (0 <=? dashIdx)%Z && (length afterTrimmed =? 0) then
      codes "Expected value after list mark"
    else codes "Unexpected syntax"
  else
    let displayText :=
      if 50 <? length errorText then take 50 errorText ++ codes "..."
      else errorText in
    codes "Unexpected token: " ++ displayText.

Definition humlLinter (text : list Z) (tree : SyntaxNode)
  : list Diagnostic :=
  iterate
    (fun node diagnostics =>
       (if nameIs node ERROR_NODE then
          diagnostics
          ++ [mkDiagnostic (nodeFrom node) (nodeTo node) (codes "error")
                (errorMessage text node)]
        else diagnostics,
        true))
    tree (spacingDiagnostics text).

(** *** Statements about the spacing check *)

(** A colon at index [j] that is not the second of two colons, is not
    followed by a colon, and is followed by a character that can start a
    value. *)
Definition tightColon (text : list Z) (j : nat) : Prop :=
  j + 1 < length text
  /\ charAt text j = COLON /\ charAt text (j + 1) <> COLON
  /\ (j = 0 \/ charAt text (j - 1) <> COLON)
  /\ validValueStart (charAt text (j + 1)) = true.

(** What every diagnostic of the spacing check says about the text. *)
Definition spacingFault (text : list Z) (d : Diagnostic) : Prop :=
  diagTo d = diagFrom d /\ 1 <= diagFrom d < length text
  /\ severity d = codes "error"
  /\ charAt text (diagFrom d - 1) = COLON
  /\ ((diagMessage d = codes "Expected space after :"
       /\ validValueStart (charAt text (diagFrom d)) = true)
      \/ (diagMessage d = codes "Expected space after ::"
          /\ 2 <= diagFrom d /\ charAt text (diagFrom d - 2) = COLON
          /\ (charAt text (diagFrom d) = 91%Z
              \/ charAt text (diagFrom d) = 123%Z))).

(** ** Smart indentation (src/indent.ts)

    [text] is the document, with its lines separated by line feeds as the
    editor keeps them; [chain] is the node that [tree.resolveInner (pos, -1)]
    finds, followed by its parents up to the root. *)

Definition endsWith (pattern s : list Z) : bool :=
  startsWith (reverse pattern) (reverse s).

(** [doc.lineAt (pos)]: where the line of [pos] starts, and its text. *)
Definition lineFrom (text : list Z) (pos : nat) : nat :=
  let k := lastIndexOf (take pos text) [NEWLINE] in
  if (0 <=? k)%Z then Z.to_nat k + 1 else 0.

Fixpoint lineRest (s : list Z) : nat :=
  match s with
  | c :: s' => if c === NEWLINE then 0 else S (lineRest s')
  | [] => 0
  end.

Definition lineText (text : list Z) (pos : nat) : list Z :=
  take (pos - lineFrom text pos + lineRest (drop pos text))
    (drop (lineFrom text pos) text).

(** Length of the run of white space that a line starts with. *)
Definition leadingSpaces (line : list Z) : nat :=
  length line - length (trimStart line).

(** The white space in front of the dash of a list item line, when the
    line is one: a dash after white space only. *)
Definition matchListItem (line : list Z) : option nat :=
  if startsWith (codes "-") (trimStart line) then Some (leadingSpaces line)
  else None.

Fixpoint findParent (text : list Z) (parents : list SyntaxNode)
  : option nat :=
  match parents with
  | [] => None
  | parent :: rest =>
      if nameIs parent (codes "Property") || nameIs parent (codes "ListItem")
      then Some (leadingSpaces (lineText text (nodeFrom parent)) + 2)
      else findParent text rest
  end.

Fixpoint blockIndent (text : list Z) (chain : list SyntaxNode) : option nat :=
  match chain with
  | [] => None
  | contextNode :: rest =>
      if nameIs contextNode (codes "Block") then findParent text rest
      else blockIndent text rest
  end.

Definition humlIndent (text : list Z) (pos : nat) (chain : list SyntaxNode)
  : option nat :=
  let line := lineText text pos in
  let lineStart := lineFrom text pos in
  let beforeCursor := take (pos - lineStart) line in
  let trimmed := trim beforeCursor in
  if endsWith (codes "::") trimmed then Some (leadingSpaces line + 2)
  else if endsWith (codes "-") trimmed then Some (leadingSpaces line)
  else
    match matchListItem line with
    | Some (S n) => Some (S n)
    | _ => blockIndent text chain
    end.

(** The change that [humlEnter] dispatches. *)
Record Change : Type :=
  mkChange { changeFrom : nat; insert : list Z; anchor : nat }.

Definition humlEnter (text : list Z) (pos : nat) (chain : list SyntaxNode)
  : Change :=
  let line := lineText text pos in
  let lineStart := lineFrom text pos in
  let beforeCursor := take (pos - lineStart) line in
  let trimmed := trim beforeCursor in
  let indent :=
    if endsWith (codes "::") trimmed then leadingSpaces line + 2
    else if endsWith (codes "-") trimmed
            || bool_decide (is_Some (matchListItem line))
    then leadingSpaces line
    else default 0 (blockIndent text chain) in
  let indentStr := concat (replicate (indent / 2) [SPACE; SPACE]) in
  let newline := NEWLINE :: indentStr in
  mkChange pos newline (pos + length newline).

(** A list item that starts in the first column, with the cursor not
    directly behind a dash or a double colon. *)
Definition bareListItem (text : list Z) (pos : nat) : bool :=
  let line := lineText text pos in
  let trimmed := trim (take (pos - lineFrom text pos) line) in
  bool_decide (matchListItem line = Some 0)
  && negb (endsWith (codes "::") trimmed)
  && negb (endsWith (codes "-") trimmed).

(** * Properties *)

(** ** The input stream *)

Lemma peek_inside (input : InputStream) (k : nat) :
  peek input k <> EOF -> pos input + k < length (chunk input).
Proof.
  unfold peek. intros H.
  destruct (chunk input !! (pos input + k)) as [c|] eqn:E.
  - by eapply lookup_lt_Some.
  - by destruct H.
Qed.

Lemma peek_outside (input : InputStream) (k : nat) :
  length (chunk input) <= pos input + k -> peek input k = EOF.
Proof.
  unfold peek. intros H. by rewrite lookup_ge_None_2.
Qed.

Lemma peek_document (pre text : list Z) (k : nat) :
  peek (mkInput (pre ++ text) (length pre)) k = default EOF (text !! k).
Proof.
  unfold peek. simpl. by rewrite lookup_app_r, Nat.add_comm, Nat.add_sub by lia.
Qed.

Lemma advance_inside (input : InputStream) (n : nat) :
  pos input + n <= length (chunk input) ->
  advance input n = mkInput (chunk input) (pos input + n).
Proof.
  intros H. unfold advance. f_equal. lia.
Qed.

Lemma peek_advance (input : InputStream) (n k : nat) :
  pos input + n <= length (chunk input) ->
  peek (advance input n) k = peek input (n + k).
Proof.
  intros H. rewrite advance_inside by done. unfold peek. simpl.
  by rewrite Nat.add_assoc.
Qed.

(** ** Loops *)

Section LoopWhile.
Context {St : Type} (cond : St -> bool) (body : St -> St).

Lemma loopWhile_invariant (Inv : St -> Prop) :
  (forall s, Inv s -> cond s = true -> Inv (body s)) ->
  forall fuel s, Inv s -> Inv (loopWhile fuel cond body s).
Proof.
  intros Hstep fuel. induction fuel as [|fuel IH]; intros s Hs; simpl; [done|].
  destruct (cond s) eqn:E; [|done]. apply IH. by apply Hstep.
Qed.

(** With a measure that each iteration decreases, fuel above the measure is
    never used up: the state returned is the one in which the condition
    failed. *)
Lemma loopWhile_exit (measure : St -> nat) :
  (forall s, cond s = true -> measure (body s) < measure s) ->
  forall fuel s, measure s <= fuel ->
  cond (loopWhile fuel cond body s) = false.
Proof.
  intros Hdec fuel. induction fuel as [|fuel IH]; intros s Hs; simpl.
  - destruct (cond s) eqn:E; [|done]. apply Hdec in E. lia.
  - destruct (cond s) eqn:E; [|done]. apply IH. apply Hdec in E. lia.
Qed.

End LoopWhile.

Section While.
Context {St R : Type} (body : St -> St + R).

Lemma while_more_fuel (fuel fuel' : nat) (s : St) (r : R) :
  while fuel body s = Some r -> fuel <= fuel' -> while fuel' body s = Some r.
Proof.
  revert fuel' s. induction fuel as [|fuel IH]; intros fuel' s; simpl; [done|].
  intros H Hle. destruct fuel' as [|fuel']; [lia|]. simpl.
  destruct (body s) as [s'|r']; [|done]. apply IH; [done|lia].
Qed.

Lemma while_iterates (s s' : St) (r : R) :
  iterates body s s' -> body s' = inr r ->
  exists fuel, while fuel body s = Some r.
Proof.
  induction 1 as [s|s s' s'' Hs _ IH]; intros Hr.
  - exists 1. simpl. by rewrite Hr.
  - destruct (IH Hr) as [fuel Hf]. exists (S fuel). simpl. by rewrite Hs.
Qed.

Lemma while_terminates (measure : St -> nat) :
  (forall s s', body s = inl s' -> measure s' < measure s) ->
  forall fuel s, measure s < fuel -> is_Some (while fuel body s).
Proof.
  intros Hdec fuel. induction fuel as [|fuel IH]; intros s Hs; [lia|]. simpl.
  destruct (body s) as [s'|r] eqn:E; [|by eexists].
  apply IH. apply Hdec in E. lia.
Qed.

(** A loop that terminates within its fuel leaves with the outcome of the
    first iteration that leaves. *)
Lemma while_reaches (fuel : nat) (s s' : St) (r : R) :
  iterates body s s' -> body s' = inr r ->
  is_Some (while fuel body s) -> while fuel body s = Some r.
Proof.
  intros Hit Hr [r' Hr'].
  destruct (while_iterates _ _ _ Hit Hr) as [fuel' Hf].
  pose proof (while_more_fuel _ (Nat.max fuel fuel') _ _ Hr' (Nat.le_max_l _ _)) as H1.
  pose proof (while_more_fuel _ (Nat.max fuel fuel') _ _ Hf (Nat.le_max_r _ _)) as H2.
  congruence.
Qed.

Lemma while_leaves (P : R -> Prop) (fuel : nat) (s : St) (r : R) :
  (forall s r, body s = inr r -> P r) ->
  while fuel body s = Some r -> P r.
Proof.
  intros HP. revert s. induction fuel as [|fuel IH]; intros s; simpl; [done|].
  destruct (body s) as [s'|r'] eqn:E; [by apply IH|].
  intros [= <-]. by eapply HP.
Qed.

Lemma while_through (fuel : nat) (s s' : St) (r : R) :
  iterates body s s' -> while fuel body s = Some r ->
  exists fuel', while fuel' body s' = Some r.
Proof.
  intros Hit. revert fuel. induction Hit as [s|s s1 s2 Hs _ IH]; intros fuel.
  - by exists fuel.
  - destruct fuel as [|fuel]; simpl; [done|]. rewrite Hs. apply IH.
Qed.

Lemma iterates_trans (s s' s'' : St) :
  iterates body s s' -> iterates body s' s'' -> iterates body s s''.
Proof.
  induction 1; [done|]. intros. eapply iterates_next; eauto.
Qed.

End While.

(** ** Scanning forward over a class of characters *)

Section Scan.
Context (input : InputStream) (cond : nat -> bool).
Hypothesis cond_inside :
  forall k, cond k = true -> pos input + k < length (chunk input).

Lemma scan_exit (p : nat) :
  cond (loopWhile (fuelFor input) cond S p) = false.
Proof.
  apply loopWhile_exit
    with (measure := fun k => length (chunk input) - (pos input + k)).
  - intros k Hk. apply cond_inside in Hk. lia.
  - unfold fuelFor. lia.
Qed.

Lemma scan_run (p : nat) :
  p <= loopWhile (fuelFor input) cond S p
  /\ forall i, p <= i < loopWhile (fuelFor input) cond S p -> cond i = true.
Proof.
  apply (loopWhile_invariant cond S
           (fun q => p <= q /\ forall i, p <= i < q -> cond i = true)).
  - intros q [Hle Hrun] Hq. split; [lia|]. intros i Hi.
    destruct (decide (i = q)) as [->|]; [done|]. apply Hrun. lia.
  - split; [lia|]. intros i Hi. lia.
Qed.

Lemma scan_inside (p : nat) :
  pos input + p <= length (chunk input) ->
  pos input + loopWhile (fuelFor input) cond S p <= length (chunk input).
Proof.
  intros Hp.
  apply (loopWhile_invariant cond S
           (fun q => pos input + q <= length (chunk input))); [|done].
  intros q _ Hq. apply cond_inside in Hq. lia.
Qed.

End Scan.

Lemma isDigitOrUnderscore_inside (input : InputStream) (k : nat) :
  isDigitOrUnderscore input k = true ->
  pos input + k < length (chunk input).
Proof.
  intros H. apply peek_inside. intros E.
  unfold isDigitOrUnderscore in H. by rewrite E in H.
Qed.

Lemma isHexOrUnderscore_inside (input : InputStream) (k : nat) :
  isHexOrUnderscore input k = true ->
  pos input + k < length (chunk input).
Proof.
  intros H. apply peek_inside. intros E.
  unfold isHexOrUnderscore in H. by rewrite E in H.
Qed.

Lemma isAlphaNum_inside (input : InputStream) (k : nat) :
  isAlphaNum (peek input k) = true ->
  pos input + k < length (chunk input).
Proof.
  intros H. apply peek_inside. intros E. by rewrite E in H.
Qed.

(** ** The whitespace loops count [indentWidth] *)

Lemma peek_drop (input : InputStream) (k : nat) :
  drop (pos input + k) (chunk input)
  = match chunk input !! (pos input + k) with
    | Some c => c :: drop (pos input + S k) (chunk input)
    | None => []
    end.
Proof.
  destruct (chunk input !! (pos input + k)) as [c|] eqn:E.
  - rewrite Nat.add_succ_r. by apply drop_S.
  - apply drop_ge. by apply lookup_ge_None.
Qed.

Lemma indentation_loop (input : InputStream) (fuel spaces p : nat) :
  length (chunk input) < fuel + (pos input + p) ->
  loopWhile fuel
    (fun '(_, p) => isIndentChar (peek input p))
    (fun '(spaces, p) => (S spaces, S p))
    (spaces, p)
  = (spaces + indentWidth (drop (pos input + p) (chunk input)),
     p + indentWidth (drop (pos input + p) (chunk input))).
Proof.
  revert spaces p. induction fuel as [|fuel IH]; intros spaces p Hfuel.
  - rewrite drop_ge by lia. simpl. f_equal; lia.
  - simpl. rewrite peek_drop. unfold peek.
    destruct (chunk input !! (pos input + p)) as [c|] eqn:E; simpl.
    + destruct (isIndentChar c) eqn:Ec.
      * rewrite IH by lia. f_equal; lia.
      * f_equal; lia.
    + f_equal; lia.
Qed.

Lemma multiline_indent_loop (input : InputStream) (fuel currentIndent : nat)
  (len : Z) :
  length (chunk input) < fuel + pos input ->
  loopWhile fuel
    (fun '(_, input, _) => isIndentChar (peek input 0))
    indentBody
    (currentIndent, input, len)
  = (currentIndent + indentWidth (drop (pos input) (chunk input)),
     mkInput (chunk input)
       (pos input + indentWidth (drop (pos input) (chunk input))),
     (len + Z.of_nat (indentWidth (drop (pos input) (chunk input))))%Z).
Proof.
  revert currentIndent input len.
  induction fuel as [|fuel IH]; intros currentIndent [text at_] len Hfuel;
    simpl in *.
  - rewrite drop_ge by lia. simpl. repeat f_equal; lia.
  - pose proof (peek_drop (mkInput text at_) 0) as Hd. simpl in Hd.
    rewrite Nat.add_0_r in Hd. rewrite Hd. unfold peek. simpl.
    rewrite Nat.add_0_r.
    destruct (text !! at_) as [c|] eqn:E; simpl.
    + destruct (isIndentChar c) eqn:Ec.
      * apply lookup_lt_Some in E.
        unfold advance. simpl.
        replace (Nat.min (at_ + 1) (length text)) with (S at_) by lia.
        rewrite IH by (simpl; lia). simpl.
        replace (at_ + 1) with (S at_) by lia.
        f_equal; [f_equal; [lia | f_equal; lia] | lia].
      * repeat f_equal; lia.
    + repeat f_equal; lia.
Qed.

(** ** indentation *)

Lemma isTerminator_not_EOF (c : Z) : isTerminator c = true -> c <> EOF.
Proof. intros H ->. done. Qed.

Lemma indentation_terminator (input : InputStream) (stack : Stack) :
  isTerminator (peek input 0) = true ->
  indentation input stack
  = let spaces := leadingWhitespace input in
    let next := peek input (1 + spaces) in
    if isTerminator next || (next === EOF) then Accept Newline (pos input + 1)
    else if (context stack <? Z.of_nat spaces)%Z then
      Accept Indent (pos input + (1 + spaces))
    else if (Z.of_nat spaces <? context stack)%Z then
      Accept Dedent (pos input + 0)
    else Accept Newline (pos input + (1 + spaces)).
Proof.
  intros Ht. unfold indentation.
  destruct (peek input 0 === EOF) eqn:E.
  { apply Z.eqb_eq in E. by apply isTerminator_not_EOF in Ht. }
  assert ((peek input 0 !== NEWLINE) && (peek input 0 !== CR) = false) as ->.
  { unfold isTerminator in Ht.
    by destruct (peek input 0 === NEWLINE), (peek input 0 === CR). }
  rewrite indentation_loop by (unfold fuelFor; lia).
  reflexivity.
Qed.

Lemma indentation_elsewhere (input : InputStream) (stack : Stack) :
  isTerminator (peek input 0) = false -> peek input 0 <> EOF ->
  indentation input stack = Decline.
Proof.
  intros Ht He. unfold indentation.
  apply Z.eqb_neq in He. rewrite He.
  unfold isTerminator in Ht. apply orb_false_iff in Ht as [-> ->]. done.
Qed.

Lemma indentation_total (input : InputStream) (stack : Stack) :
  indentation input stack <> OutOfFuel.
Proof.
  unfold indentation, acceptToken.
  repeat match goal with
         | |- context [if ?b then _ else _] => destruct b
         | |- context [let '(_, _) := ?x in _] => destruct x
         end; discriminate.
Qed.

(** C2, as amended: on a line that is not blank, [indentation] accepts
    Indent over the terminator and the whitespace run when the run is
    longer than the context, a Dedent of width zero when it is shorter, and
    Newline over terminator and run when they are equal; at the end of the
    document with a positive context it accepts a Dedent of width zero. *)
Theorem indentation_decisions (input : InputStream) (stack : Stack) :
  blankLine input = false -> boundaryDecisions input stack.
Proof.
  intros Hblank. split.
  - intros Ht. pose proof (indentation_terminator input stack Ht) as Hi.
    unfold blankLine in Hblank. rewrite Ht in Hblank. cbn [andb] in Hblank.
    cbv zeta in Hi. rewrite Hblank in Hi. rewrite Hi.
    repeat split; intros Hc.
    + apply Z.ltb_lt in Hc. rewrite Hc. f_equal. lia.
    + destruct (Z.ltb_spec (context stack) (Z.of_nat (leadingWhitespace input)));
        [lia|].
      apply Z.ltb_lt in Hc. rewrite Hc. f_equal. lia.
    + rewrite <- Hc, Z.ltb_irrefl. f_equal. lia.
  - intros He Hc. unfold indentation. rewrite He. simpl.
    apply Z.ltb_lt in Hc. rewrite Hc. unfold acceptToken. f_equal. lia.
Qed.

Lemma indentation_decisions_witness :
  blankLine (document (NEWLINE :: codes "    b: 1")) = false
  /\ boundaryDecisions (document (NEWLINE :: codes "    b: 1")) (atContext 2).
Proof. split; [reflexivity|]. apply indentation_decisions. reflexivity. Defined.

(** C2, as stated, fails on a blank line: after a terminator followed by
    two spaces and another terminator, at context 0, the run is longer than
    the context but the token is a Newline over the one terminator. *)
Lemma indentation_blank_line_counterexample :
  ~ boundaryDecisions (document [NEWLINE; SPACE; SPACE; NEWLINE; 98]%Z)
      (atContext 0).
Proof.
  intros [H _]. destruct (H eq_refl) as [Hindent _].
  specialize (Hindent eq_refl). vm_compute in Hindent. discriminate.
Qed.

(** ** multilineStrings *)

Lemma multilineBody_terminator (start : Z) (type : Term) (stack : Stack)
  (input : InputStream) (len : Z) :
  start <> EOF -> (len < MAX_LENGTH)%Z ->
  isTerminator (peek input 0) = true ->
  multilineBody start type stack (input, len)
  = let w := leadingWhitespace input in
    if fenceAt start input (1 + w) then
      if Z.of_nat w !== context stack then inr Decline
      else inr (Accept type (pos input + 1 + w + 3))
    else inl (mkInput (chunk input) (pos input + 1 + w),
              (len + 1 + Z.of_nat w)%Z).
Proof.
  intros Hstart Hlen Ht. unfold multilineBody.
  apply Z.ltb_lt in Hlen. rewrite Hlen. cbn [negb].
  pose proof (isTerminator_not_EOF _ Ht) as Hne.
  pose proof (peek_inside _ _ Hne) as Hin.
  apply Z.eqb_neq in Hne. rewrite Hne.
  unfold isTerminator in Ht. rewrite Ht.
  rewrite advance_inside by lia.
  rewrite multiline_indent_loop by (unfold fuelFor; simpl; lia).
  cbn [chunk pos]. fold (leadingWhitespace input).
  set (w := leadingWhitespace input).
  assert (forall k, peek (mkInput (chunk input) (pos input + 1 + w)) k
                    = peek input (1 + w + k)) as Hpeek.
  { intros k. unfold peek. cbn [chunk pos]. do 2 f_equal. lia. }
  rewrite !Hpeek. unfold fenceAt.
  replace (1 + w + 0) with (1 + w) by lia.
  destruct ((peek input (1 + w) === start) && (peek input (1 + w + 1) === start)
            && (peek input (1 + w + 2) === start)) eqn:Hf; cbv zeta; rewrite ?Hf.
  - apply andb_true_iff in Hf as [_ H3]. apply Z.eqb_eq in H3.
    assert (peek input (1 + w + 2) <> EOF) as Hin3 by congruence.
    apply peek_inside in Hin3.
    change (0 + w) with w.
    destruct (Z.of_nat w !== context stack); [done|].
    rewrite advance_inside by (simpl; lia). unfold acceptToken. simpl.
    do 2 f_equal. lia.
  - do 2 f_equal; lia.
Qed.

Lemma multilineBody_forward (start : Z) (type : Term) (stack : Stack)
  (s s' : InputStream * Z) :
  start <> EOF ->
  multilineBody start type stack s = inl s' ->
  length (chunk s'.1) - pos s'.1 < length (chunk s.1) - pos s.1.
Proof.
  destruct s as [input len]. intros Hstart Hb. simpl.
  destruct (Z.ltb_spec len MAX_LENGTH) as [Hlen|Hlen].
  2:{ unfold multilineBody in Hb. apply Z.ltb_ge in Hlen. by rewrite Hlen in Hb. }
  destruct (isTerminator (peek input 0)) eqn:Ht.
  - pose proof (peek_inside _ _ (isTerminator_not_EOF _ Ht)) as Hin.
    rewrite multilineBody_terminator in Hb by done. cbv zeta in Hb.
    destruct (fenceAt _ _ _).
    + by destruct (_ !== _).
    + injection Hb as <-. simpl. lia.
  - unfold multilineBody in Hb. apply Z.ltb_lt in Hlen. rewrite Hlen in Hb.
    cbn [negb] in Hb. cbv zeta in Hb.
    destruct (peek input 0 === EOF) eqn:He; [done|].
    apply Z.eqb_neq, peek_inside in He.
    unfold isTerminator in Ht. rewrite Ht in Hb.
    destruct (peek input 0 === BACKSLASH); injection Hb as <-; simpl; lia.
Qed.

Lemma multilineStrings_opened (input : InputStream) (stack : Stack) :
  opensBlock input = true ->
  multilineStrings input stack
  = run (while (fuelFor input)
           (multilineBody (peek input 0) (fenceType (peek input 0)) stack)
           (advance input 3, 0%Z))
  /\ is_Some (while (fuelFor input)
                (multilineBody (peek input 0) (fenceType (peek input 0)) stack)
                (advance input 3, 0%Z))
  /\ peek input 0 <> EOF.
Proof.
  unfold opensBlock, isTerminator. intros H.
  apply andb_true_iff in H as [H H3]. apply andb_true_iff in H as [H H2].
  apply andb_true_iff in H as [H0 H1].
  assert (peek input 0 <> EOF) as Hne.
  { intros E. by rewrite E in H0. }
  assert (peek input 2 <> EOF) as Hin.
  { apply Z.eqb_eq in H2. congruence. }
  apply peek_inside in Hin.
  split; [|split; [|done]].
  - unfold multilineStrings.
    replace ((peek input 0 !== QUOTE) && (peek input 0 !== BACKTICK))
      with false
      by (by destruct (peek input 0 === QUOTE), (peek input 0 === BACKTICK)).
    rewrite H1, H2. cbn [negb orb].
    rewrite !peek_advance by lia. cbn [Nat.add].
    replace ((peek input 3 !== NEWLINE) && (peek input 3 !== CR)
             && (peek input 3 !== EOF)) with false
      by (by destruct (peek input 3 === NEWLINE), (peek input 3 === CR),
               (peek input 3 === EOF)).
    reflexivity.
  - apply while_terminates
      with (measure := fun s => length (chunk s.1) - pos s.1).
    + intros s s'. by apply multilineBody_forward.
    + unfold advance, fuelFor. simpl. lia.
Qed.

Lemma multilineBody_outcome (start : Z) (type : Term) (stack : Stack)
  (s : InputStream * Z) (r : Outcome) :
  multilineBody start type stack s = inr r -> r <> OutOfFuel.
Proof.
  destruct s as [input len]. unfold multilineBody, acceptToken.
  repeat match goal with
         | |- context [if ?b then _ else _] => destruct b
         | |- context [let '(_, _) := ?x in _] => destruct x
         end; intros [= <-]; discriminate.
Qed.

Lemma multilineStrings_unopened (input : InputStream) (stack : Stack) :
  opensBlock input = false -> multilineStrings input stack = Decline.
Proof.
  unfold opensBlock, multilineStrings, isTerminator. intros Ho.
  destruct ((peek input 0 === QUOTE) || (peek input 0 === BACKTICK)) eqn:H0.
  2:{ apply orb_false_iff in H0 as [-> ->]. done. }
  replace ((peek input 0 !== QUOTE) && (peek input 0 !== BACKTICK)) with false
    by (by destruct (peek input 0 === QUOTE), (peek input 0 === BACKTICK)).
  destruct (peek input 1 === peek input 0) eqn:H1; [|done].
  destruct (peek input 2 === peek input 0) eqn:H2; [|done].
  cbn [negb orb andb] in *.
  assert (peek input 2 <> EOF) as Hin.
  { apply Z.eqb_eq in H2. rewrite H2. intros E. by rewrite E in H0. }
  apply peek_inside in Hin.
  rewrite !peek_advance by lia. cbn [Nat.add].
  apply orb_false_iff in Ho as [Ho ->]. apply orb_false_iff in Ho as [-> ->].
  done.
Qed.

Lemma multilineStrings_total (input : InputStream) (stack : Stack) :
  multilineStrings input stack <> OutOfFuel.
Proof.
  destruct (opensBlock input) eqn:Ho.
  - destruct (multilineStrings_opened input stack Ho) as (-> & [r Hr] & _).
    rewrite Hr. simpl.
    apply (while_leaves _ (fun r => r <> OutOfFuel) _ _ _
             (fun s r' => multilineBody_outcome _ _ _ s r') Hr).
  - by rewrite multilineStrings_unopened.
Qed.

(** C1, as amended: when the body loop stands on a line terminator followed
    by a whitespace run and a fence, the fence closes the token if the run
    is as wide as the indentation context, and the whole token is declined,
    whatever follows, if it is not; when no fence follows the run, the
    terminator and the run are body content and the loop goes on behind
    them. *)
Theorem multiline_fence_probe (input : InputStream) (stack : Stack)
  (at_ : InputStream) (len : Z) :
  opensBlock input = true ->
  bodyReaches input stack at_ len ->
  (len < MAX_LENGTH)%Z ->
  isTerminator (peek at_ 0) = true ->
  let start := peek input 0 in
  let w := leadingWhitespace at_ in
  (fenceAt start at_ (1 + w) = true -> Z.of_nat w = context stack ->
   multilineStrings input stack
   = Accept (fenceType start) (pos at_ + 1 + w + 3))
  /\ (fenceAt start at_ (1 + w) = true -> Z.of_nat w <> context stack ->
      multilineStrings input stack = Decline)
  /\ (fenceAt start at_ (1 + w) = false ->
      bodyReaches input stack
        (mkInput (chunk at_) (pos at_ + 1 + w)) (len + 1 + Z.of_nat w)).
Proof.
  intros Ho Hreach Hlen Ht start w.
  destruct (multilineStrings_opened input stack Ho) as (Hm & Hsome & Hne).
  pose proof (multilineBody_terminator start (fenceType start) stack at_ len
                Hne Hlen Ht) as Hb.
  cbv zeta in Hb. fold w in Hb.
  repeat split.
  - intros Hf Hw. rewrite Hf in Hb.
    apply Z.eqb_eq in Hw. rewrite Hw in Hb. cbn [negb] in Hb.
    rewrite Hm. by rewrite (while_reaches _ _ _ _ _ Hreach Hb Hsome).
  - intros Hf Hw. rewrite Hf in Hb.
    apply Z.eqb_neq in Hw. rewrite Hw in Hb. cbn [negb] in Hb.
    rewrite Hm. by rewrite (while_reaches _ _ _ _ _ Hreach Hb Hsome).
  - intros Hf. rewrite Hf in Hb. unfold bodyReaches in *.
    eapply iterates_trans; [exact Hreach|].
    eapply iterates_next; [exact Hb|]. apply iterates_here.
Qed.

Lemma multiline_fence_probe_witness :
  opensBlock (document twoFences) = true
  /\ bodyReaches (document twoFences) (atContext 0) (mkInput twoFences 6) 3
  /\ (3 < MAX_LENGTH)%Z
  /\ isTerminator (peek (mkInput twoFences 6) 0) = true
  /\ multilineStrings (document twoFences) (atContext 0) = Decline.
Proof.
  assert (bodyReaches (document twoFences) (atContext 0)
            (mkInput twoFences 6) 3) as Hreach.
  { unfold bodyReaches.
    do 3 (eapply iterates_next; [vm_compute; reflexivity|]).
    apply iterates_here. }
  split; [reflexivity|]. split; [exact Hreach|].
  split; [reflexivity|]. split; [reflexivity|].
  apply (multiline_fence_probe (document twoFences) (atContext 0)
           (mkInput twoFences 6) 3 eq_refl Hreach eq_refl eq_refl).
  - reflexivity.
  - vm_compute. discriminate.
Defined.

(** C1, as stated, fails: in [twoFences] at context 0 the fence line
    indented by two columns is followed by a fence line at column 0, yet
    no token is accepted at the later fence (which ends at offset 16). *)
Lemma multiline_later_fence_counterexample :
  fenceAt QUOTE (mkInput twoFences 6) (1 + 2) = true
  /\ leadingWhitespace (mkInput twoFences 6) = 2
  /\ fenceAt QUOTE (mkInput twoFences 12) (1 + 0) = true
  /\ leadingWhitespace (mkInput twoFences 12) = 0
  /\ multilineStrings (document twoFences) (atContext 0)
     <> Accept BlockString 16
  /\ multilineStrings (document twoFences) (atContext 0) = Decline.
Proof. repeat split; try reflexivity. vm_compute. discriminate. Qed.

(** ** Over-indented lines *)

(** C10, as amended: a line that is not blank and whose whitespace run is
    longer than the context by any amount gets exactly one Indent, which
    raises the context by 2; and with the context so tracked, a fence after
    a line terminator closes a multiline string exactly when its own run is
    as wide as that context, whatever the width of the line that was
    indented. *)
Theorem over_indent_one_step (input : InputStream) (stack : Stack) :
  blankLine input = false ->
  overIndented input stack ->
  oneIndent input stack
  /\ forall (start : Z) (at_ : InputStream) (len : Z) (st : nat),
      start <> EOF -> (len < MAX_LENGTH)%Z ->
      isTerminator (peek at_ 0) = true ->
      fenceAt start at_ (1 + leadingWhitespace at_) = true ->
      closesAt start
        (mkStack st (trackIndent.shift (context stack) Indent)) at_ len
      <-> Z.of_nat (leadingWhitespace at_) = (context stack + 2)%Z.
Proof.
  intros Hblank [Ht Hover]. split; [repeat split|].
  - rewrite indentation_terminator by done. cbv zeta.
    unfold blankLine in Hblank. rewrite Ht in Hblank. cbn [andb] in Hblank.
    rewrite Hblank. apply Z.ltb_lt in Hover. rewrite Hover. f_equal. lia.
  - intros stack'.
    unfold blankLine in Hblank. rewrite Ht in Hblank. cbn [andb] in Hblank.
    apply orb_false_iff in Hblank as [Hnt Hne].
    assert (peek (mkInput (chunk input)
                    (pos input + 1 + leadingWhitespace input)) 0
            = peek input (1 + leadingWhitespace input)) as Hpeek.
    { unfold peek. simpl. do 2 f_equal. lia. }
    apply indentation_elsewhere; rewrite Hpeek; [done|].
    by apply Z.eqb_neq.
  - intros start at_ len st Hstart Hlen Hat Hfence. unfold closesAt.
    rewrite multilineBody_terminator by done. cbv zeta. rewrite Hfence.
    simpl context. change (trackIndent.shift (context stack) Indent)
      with (context stack + 2)%Z.
    destruct (Z.eqb_spec (Z.of_nat (leadingWhitespace at_)) (context stack + 2))
      as [E|E]; simpl; split; intros H; try done.
Qed.

Lemma over_indent_one_step_witness :
  blankLine (document (NEWLINE :: codes "     x: 1")) = false
  /\ overIndented (document (NEWLINE :: codes "     x: 1")) (atContext 0)
  /\ indentation (document (NEWLINE :: codes "     x: 1")) (atContext 0)
     = Accept Indent 6
  /\ trackIndent.shift 0 Indent = 2%Z.
Proof.
  assert (overIndented (document (NEWLINE :: codes "     x: 1")) (atContext 0))
    as Hover by (split; reflexivity).
  destruct (over_indent_one_step
              (document (NEWLINE :: codes "     x: 1")) (atContext 0)
              eq_refl Hover) as [(Hi & Hs & _) _].
  split; [reflexivity|]. split; [exact Hover|].
  split; [exact Hi | exact Hs].
Defined.

(** C10, as stated, fails on a line of whitespace only: five spaces between
    two terminators exceed context 0, but the tokenizer accepts a Newline
    over the first terminator and no Indent. *)
Lemma over_indent_blank_line_counterexample :
  overIndented (document (NEWLINE :: codes "     " ++ NEWLINE :: codes "x: 1"))
    (atContext 0)
  /\ ~ oneIndent (document (NEWLINE :: codes "     " ++ NEWLINE :: codes "x: 1"))
        (atContext 0).
Proof.
  split; [split; reflexivity|]. intros [Hi _]. vm_compute in Hi. discriminate.
Qed.

(** ** The tracked context *)

Lemma indentation_accepts (input : InputStream) (stack : Stack)
  (term : Term) (tokenEnd : nat) :
  indentation input stack = Accept term tokenEnd ->
  term = Indent \/ term = Newline
  \/ (term = Dedent /\ (0 < context stack)%Z /\ tokenEnd = pos input).
Proof.
  unfold indentation, acceptToken.
  destruct (peek input 0 === EOF).
  { destruct (Z.ltb_spec 0 (context stack)); [|done].
    intros [= <- <-]. right. right. repeat split; [done|lia]. }
  destruct ((peek input 0 !== NEWLINE) && (peek input 0 !== CR)); [done|].
  destruct (loopWhile _ _ _ _) as [spaces p].
  destruct (_ || _); [intros [= <- <-]; auto|].
  destruct (Z.ltb_spec (context stack) (Z.of_nat spaces));
    [intros [= <- <-]; auto|].
  destruct (Z.ltb_spec (Z.of_nat spaces) (context stack));
    intros [= <- <-]; auto.
  right. right. repeat split; lia.
Qed.

(** C3: along every sequence of terminals that can be emitted from context
    0, the context is a non-negative multiple of 2; it is the start context
    moved by +2 at each Indent, by -2 at each Dedent and not at all by any
    other terminal; and [indentation] accepts no Dedent at context 0, so no
    clamping is ever needed. *)
Theorem context_invariant (text : list Z) (terms : list Term) (context : Z) :
  emitted text terms context ->
  (0 <= context)%Z
  /\ (2 | context)%Z
  /\ context = fold_left trackIndent.shift terms 0%Z
  /\ (forall c, trackIndent.shift c Indent = (c + 2)%Z)
  /\ (forall c, trackIndent.shift c Dedent = (c - 2)%Z)
  /\ (forall c term, term <> Indent -> term <> Dedent ->
      trackIndent.shift c term = c)
  /\ (forall input st tokenEnd,
      indentation input (mkStack st 0) <> Accept Dedent tokenEnd).
Proof.
  intros Hem.
  assert (forall c term, term <> Indent -> term <> Dedent ->
                         trackIndent.shift c term = c) as Hother.
  { intros c term Hi Hd. unfold trackIndent.shift.
    destruct (decide (term = Indent)); [done|].
    by destruct (decide (term = Dedent)). }
  assert ((0 <= context)%Z /\ (2 | context)%Z
          /\ context = fold_left trackIndent.shift terms 0%Z) as (H0 & H2 & Hf).
  { induction Hem as [|terms context at_ st term tokenEnd _ IH Hacc
                       |terms context term _ IH Hi Hd].
    - repeat split; [done|]. by exists 0%Z.
    - destruct IH as (H0 & [k Hk] & Hf).
      rewrite fold_left_app. simpl. rewrite <- Hf.
      apply indentation_accepts in Hacc
        as [->|[->|(-> & Hpos & _)]]; simpl in *.
      + change (trackIndent.shift context Indent) with (context + 2)%Z.
        repeat split; [lia|]. exists (k + 1)%Z. lia.
      + change (trackIndent.shift context Newline) with context.
        repeat split; [lia|]. by exists k.
      + change (trackIndent.shift context Dedent) with (context - 2)%Z.
        repeat split; [lia|]. exists (k - 1)%Z. lia.
    - destruct IH as (H0 & H2 & Hf).
      rewrite fold_left_app. simpl. rewrite <- Hf.
      rewrite Hother by done. done. }
  repeat split; try done.
  intros input st tokenEnd Hacc.
  apply indentation_accepts in Hacc as [?|[?|(_ & Hpos & _)]]; done.
Qed.

Lemma context_invariant_witness :
  emitted (codes "a::" ++ NEWLINE :: codes "  b: 1")
    [Key; Literal 0; Indent; Key; Literal 1; NumberToken; Dedent] 0
  /\ fold_left trackIndent.shift
       [Key; Literal 0; Indent; Key; Literal 1; NumberToken; Dedent] 0%Z
     = 0%Z.
Proof.
  set (text := codes "a::" ++ NEWLINE :: codes "  b: 1").
  assert (emitted text
            [Key; Literal 0; Indent; Key; Literal 1; NumberToken; Dedent] 0)
    as Hem.
  { apply (emitted_boundary text
             [Key; Literal 0; Indent; Key; Literal 1; NumberToken]
             2 10 0 Dedent 10); [|reflexivity].
    apply (emitted_other text [Key; Literal 0; Indent; Key; Literal 1]
             2 NumberToken); [|done|done].
    apply (emitted_other text [Key; Literal 0; Indent; Key]
             2 (Literal 1)); [|done|done].
    apply (emitted_other text [Key; Literal 0; Indent] 2 Key); [|done|done].
    apply (emitted_boundary text [Key; Literal 0] 0 3 0 Indent 6);
      [|reflexivity].
    apply (emitted_other text [Key] 0 (Literal 0)); [|done|done].
    apply (emitted_other text [] 0 Key); [|done|done].
    apply emitted_start. }
  split; [exact Hem|].
  symmetry. exact (proj1 (proj2 (proj2 (context_invariant _ _ _ Hem)))).
Defined.

(** ** numberToken *)

Lemma numberToken_signed (input : InputStream) :
  numberToken input
  = let p := signWidth input in
    let c := peek input p in
    if negb (isDigit c) then Decline
    else
      let next := peek input (p + 1) in
      if (c === DIGIT_0) && ((next === LOWER_X) || (next === UPPER_X)) then
        if negb (isHex (peek input (p + 2))) then Decline
        else Accept NumberToken
               (pos input
                + loopWhile (fuelFor input) (isHexOrUnderscore input) S (p + 2))
      else if (c === DIGIT_0) && ((next === LOWER_O) || (next === UPPER_O))
      then run (while (fuelFor input) (basedBody isOctal input) (p + 2, false))
      else if (c === DIGIT_0) && ((next === LOWER_B) || (next === UPPER_B))
      then run (while (fuelFor input) (basedBody isBinary input) (p + 2, false))
      else decimal input p.
Proof.
  unfold numberToken, signWidth.
  by destruct ((peek input 0 === PLUS) || (peek input 0 === DASH)).
Qed.

Lemma basedBody_forward (valid : Z -> bool) (input : InputStream)
  (s s' : nat * bool) :
  valid EOF = false ->
  basedBody valid input s = inl s' ->
  length (chunk input) - (pos input + s'.1)
  < length (chunk input) - (pos input + s.1).
Proof.
  destruct s as [p seen]. unfold basedBody. intros Hv Hb. simpl.
  assert (peek input p <> EOF) as Hin.
  { intros E. rewrite E, Hv in Hb. done. }
  apply peek_inside in Hin.
  destruct (valid (peek input p)); [injection Hb as <-; simpl; lia|].
  destruct (peek input p === UNDERSCORE); [injection Hb as <-; simpl; lia|].
  by destruct (isDigit (peek input p)).
Qed.

Lemma basedBody_terminates (valid : Z -> bool) (input : InputStream)
  (s : nat * bool) :
  valid EOF = false ->
  is_Some (while (fuelFor input) (basedBody valid input) s).
Proof.
  intros Hv.
  apply while_terminates
    with (measure := fun s => length (chunk input) - (pos input + s.1)).
  - intros s1 s2. by apply basedBody_forward.
  - unfold fuelFor. lia.
Qed.

Lemma basedBody_digits (valid : Z -> bool) (input : InputStream)
  (digits : list Z) (p : nat) (seen : bool) :
  Forall (fun c => valid c || (c === UNDERSCORE) = true) digits ->
  reads input p digits ->
  exists seen', iterates (basedBody valid input) (p, seen)
                  (p + length digits, seen').
Proof.
  intros Hall. revert p seen.
  induction Hall as [|c digits Hc _ IH]; intros p seen Hreads.
  - exists seen. rewrite Nat.add_0_r. apply iterates_here.
  - pose proof (Hreads 0 c eq_refl) as Hp. rewrite Nat.add_0_r in Hp.
    assert (reads input (S p) digits) as Hreads'.
    { intros i c' Hi. rewrite <- (Hreads (S i) c' Hi). f_equal. lia. }
    assert (exists seen1, basedBody valid input (p, seen) = inl (S p, seen1))
      as [seen1 Hstep].
    { unfold basedBody. rewrite Hp.
      destruct (valid c); [by eexists|].
      simpl in Hc. rewrite Hc. by eexists. }
    destruct (IH (S p) seen1 Hreads') as [seen' Hit].
    exists seen'. simpl. rewrite Nat.add_succ_r.
    eapply iterates_next; [exact Hstep|exact Hit].
Qed.

Lemma reads_document (pre a l b : list Z) :
  reads (mkInput (pre ++ a ++ l ++ b) (length pre)) (length a) l.
Proof.
  intros i c Hi. rewrite peek_document.
  rewrite lookup_app_r by lia.
  replace (length a + i - length a) with i by lia.
  by rewrite lookup_app_l_Some with (x := c).
Qed.

(** C4: in the octal and in the binary mode a decimal digit that the base
    does not have makes the tokenizer decline the whole token, whatever
    valid digits and underscores came before it and whatever follows. *)
Theorem invalid_base_digit_declines (pre sign digits rest : list Z)
  (letter d : Z) :
  isSign sign ->
  invalidForBase letter digits d ->
  numberToken
    (mkInput (pre ++ sign ++ DIGIT_0 :: letter :: digits ++ d :: rest)
       (length pre))
  = Decline.
Proof.
  intros Hsign [Hd Hbase].
  set (input := mkInput _ _).
  assert (reads input (length sign + 2) (digits ++ [d])) as Hrun.
  { pose proof (reads_document pre (sign ++ [DIGIT_0; letter])
                  (digits ++ [d]) rest) as H.
    rewrite length_app in H. simpl in H.
    by rewrite <- !(assoc_L (++)) in H. }
  assert (signWidth input = length sign
          /\ peek input (length sign) = DIGIT_0
          /\ peek input (length sign + 1) = letter) as (Hw & Hc & Hn).
  { unfold signWidth, input.
    destruct Hsign as [->|[->| ->]]; rewrite !peek_document; done. }
  assert (reads input (length sign + 2) digits) as Hdigits.
  { intros i c Hi. apply Hrun. by apply lookup_app_l_Some. }
  assert (peek input (length sign + 2 + length digits) = d) as Hbad.
  { apply Hrun. rewrite lookup_app_r by lia. by rewrite Nat.sub_diag. }
  assert (d <> UNDERSCORE) as Hus by (intros ->; done).
  apply Z.eqb_neq in Hus.
  rewrite numberToken_signed. cbv zeta. rewrite Hw, Hc, Hn. cbn [isDigit negb].
  change (negb (isDigit DIGIT_0)) with false. cbv iota.
  change (DIGIT_0 === DIGIT_0) with true. cbn [andb].
  destruct Hbase as [([-> | ->] & Hall & Hnot)|([-> | ->] & Hall & Hnot)];
    cbn [Z.eqb Pos.eqb orb LOWER_X UPPER_X LOWER_O UPPER_O LOWER_B UPPER_B];
    destruct (basedBody_digits _ input digits (length sign + 2) false
                Hall Hdigits) as [seen Hit];
    (rewrite (while_reaches _ _ _ _ Decline Hit);
     [reflexivity
     |unfold basedBody; by rewrite Hbad, Hnot, Hus, Hd
     |by apply basedBody_terminates]).
Qed.

Lemma invalid_base_digit_declines_witness :
  isSign [] /\ invalidForBase LOWER_O [55; 53]%Z 57
  /\ numberToken (document (codes "0o759")) = Decline.
Proof.
  assert (isSign []) as Hs by (by left).
  assert (invalidForBase LOWER_O [55; 53]%Z 57) as Hi.
  { split; [reflexivity|]. left. split; [by left|].
    split; [|reflexivity]. by repeat constructor. }
  split; [exact Hs|]. split; [exact Hi|].
  exact (invalid_base_digit_declines [] [] [55; 53]%Z [] LOWER_O 57 Hs Hi).
Defined.

(** C6: the code accepts an underscore at the end of a hexadecimal, octal
    or binary literal, and directly behind the prefix of an octal or binary
    one; only behind the hexadecimal prefix is it refused. *)
Theorem based_literal_underscores :
  numberToken (document (codes "0x1_")) = Accept NumberToken 4
  /\ numberToken (document (codes "0o7_")) = Accept NumberToken 4
  /\ numberToken (document (codes "0b1_")) = Accept NumberToken 4
  /\ numberToken (document (codes "0o_7")) = Accept NumberToken 4
  /\ numberToken (document (codes "0b_1")) = Accept NumberToken 4
  /\ numberToken (document (codes "0x_1")) = Decline.
Proof. repeat split; reflexivity. Qed.

(** *** Spans of the document *)

Lemma span_split (input : InputStream) (a b c : nat) :
  a <= b -> b <= c -> span input a c = span input a b ++ span input b c.
Proof.
  intros Hab Hbc. unfold span.
  replace (c - a) with ((b - a) + (c - b)) by lia.
  rewrite <- take_take_drop, drop_drop. do 3 f_equal. lia.
Qed.

Lemma span_empty (input : InputStream) (a : nat) : span input a a = [].
Proof. unfold span. by rewrite Nat.sub_diag. Qed.

Lemma span_one (input : InputStream) (a : nat) :
  peek input a <> EOF -> span input a (S a) = [peek input a].
Proof.
  intros H. unfold span, peek in *.
  replace (S a - a) with 1 by lia. rewrite peek_drop.
  destruct (chunk input !! (pos input + a)); [|done]. simpl. by rewrite take_0.
Qed.

Lemma span_Forall (P : Z -> Prop) (input : InputStream) (a b : nat) :
  (forall i, a <= i < b -> P (peek input i)) -> Forall P (span input a b).
Proof.
  intros H. apply Forall_lookup_2. intros i x Hi. unfold span in Hi.
  apply lookup_take_Some in Hi as [Hi Hlt]. rewrite lookup_drop in Hi.
  specialize (H (a + i) ltac:(lia)). unfold peek in H.
  by rewrite Nat.add_assoc, Hi in H.
Qed.

Lemma isDigit_not_EOF (c : Z) : isDigit c = true -> c <> EOF.
Proof. by intros H ->. Qed.

Lemma digit_scan (input : InputStream) (q : nat) :
  isDigit (peek input q) = true ->
  q < scanDigits input q /\ digitRun (span input q (scanDigits input q)).
Proof.
  intros Hd. unfold scanDigits.
  pose proof (scan_exit input _ (isDigitOrUnderscore_inside input) q) as Hexit.
  destruct (scan_run input (isDigitOrUnderscore input) q) as [Hle Hrun].
  set (r := loopWhile _ _ _ _) in *.
  assert (q < r) as Hlt.
  { destruct (decide (r = q)) as [E|]; [|lia].
    rewrite E in Hexit. unfold isDigitOrUnderscore in Hexit.
    by rewrite Hd in Hexit. }
  split; [done|].
  exists (peek input q), (span input (S q) r). repeat split; [|done|].
  - rewrite (span_split input q (S q) r) by lia.
    by rewrite span_one by (by apply isDigit_not_EOF).
  - apply span_Forall. intros i Hi. apply Hrun. lia.
Qed.

Lemma integer_loop_seen (input : InputStream) (fuel p : nat) :
  loopWhile fuel (fun '(_, p) => isDigitOrUnderscore input p)
    (integerBody input) (true, p)
  = (true, loopWhile fuel (isDigitOrUnderscore input) S p).
Proof.
  revert p. induction fuel as [|fuel IH]; intros p; simpl; [done|].
  destruct (isDigitOrUnderscore input p); [|done].
  rewrite <- IH. by destruct (isDigit (peek input p)).
Qed.

Lemma integer_loop (input : InputStream) (p : nat) :
  isDigit (peek input p) = true ->
  loopWhile (fuelFor input) (fun '(_, p) => isDigitOrUnderscore input p)
    (integerBody input) (false, p)
  = (true, scanDigits input p).
Proof.
  intros Hd. unfold scanDigits, fuelFor. simpl.
  unfold isDigitOrUnderscore at 1 3. rewrite Hd. simpl.
  by rewrite integer_loop_seen.
Qed.

Lemma decimal_digit (input : InputStream) (p0 : nat) :
  isDigit (peek input p0) = true ->
  decimal input p0
  = let p1 := scanDigits input p0 in
    let p2 := if peek input p1 === DOT then
                if isDigit (peek input (S p1)) then scanDigits input (S p1)
                else S p1
              else p1 in
    if (peek input p2 === LOWER_E) || (peek input p2 === UPPER_E) then
      let q := if (peek input (S p2) === PLUS) || (peek input (S p2) === DASH)
               then S (S p2) else S p2 in
      if negb (isDigit (peek input q)) then Decline
      else Accept NumberToken (pos input + scanDigits input q)
    else Accept NumberToken (pos input + p2).
Proof.
  intros Hd. unfold decimal. rewrite integer_loop by done. cbv zeta.
  destruct (peek input (scanDigits input p0) === DOT);
    [destruct (isDigit (peek input (S (scanDigits input p0))))|]; reflexivity.
Qed.

Lemma sign_span (input : InputStream) :
  isSign (span input 0 (signWidth input)).
Proof.
  unfold signWidth, isSign.
  destruct (peek input 0 === PLUS) eqn:Hp; simpl.
  { apply Z.eqb_eq in Hp. right. left. rewrite span_one; by rewrite Hp. }
  destruct (peek input 0 === DASH) eqn:Hm; simpl.
  { apply Z.eqb_eq in Hm. right. right. rewrite span_one; by rewrite Hm. }
  left. apply span_empty.
Qed.

Lemma fraction_span (input : InputStream) (p1 : nat) :
  let p2 := if peek input p1 === DOT then
              if isDigit (peek input (S p1)) then scanDigits input (S p1)
              else S p1
            else p1 in
  p1 <= p2 /\ fractionPart (span input p1 p2).
Proof.
  cbv zeta. unfold fractionPart.
  destruct (peek input p1 === DOT) eqn:Hdot.
  - apply Z.eqb_eq in Hdot.
    assert (span input p1 (S p1) = [DOT]) as Hone
      by (rewrite span_one; by rewrite Hdot).
    destruct (isDigit (peek input (S p1))) eqn:Hd.
    + destruct (digit_scan input (S p1) Hd) as [Hlt Hrun].
      split; [lia|]. right. right.
      exists (span input (S p1) (scanDigits input (S p1))). split; [|done].
      rewrite (span_split input p1 (S p1)) by lia. by rewrite Hone.
    + split; [lia|]. by right; left.
  - split; [lia|]. left. apply span_empty.
Qed.

Lemma exponent_span (input : InputStream) (p2 : nat) (term : Term)
  (tokenEnd : nat) :
  (if (peek input p2 === LOWER_E) || (peek input p2 === UPPER_E) then
     let q := if (peek input (S p2) === PLUS) || (peek input (S p2) === DASH)
              then S (S p2) else S p2 in
     if negb (isDigit (peek input q)) then Decline
     else Accept NumberToken (pos input + scanDigits input q)
   else Accept NumberToken (pos input + p2))
  = Accept term tokenEnd ->
  term = NumberToken
  /\ exists p3, tokenEnd = pos input + p3 /\ p2 <= p3
       /\ exponentPart (span input p2 p3).
Proof.
  unfold exponentPart.
  destruct ((peek input p2 === LOWER_E) || (peek input p2 === UPPER_E)) eqn:He.
  2:{ intros [= <- <-]. split; [done|]. exists p2. repeat split; [lia|].
      left. apply span_empty. }
  cbv zeta.
  set (q := if (peek input (S p2) === PLUS) || (peek input (S p2) === DASH)
            then S (S p2) else S p2).
  destruct (isDigit (peek input q)) eqn:Hd; [|done]. simpl.
  intros [= <- <-]. split; [done|].
  destruct (digit_scan input q Hd) as [Hlt Hrun].
  assert (S p2 <= q /\ isSign (span input (S p2) q)) as [Hq Hsign].
  { subst q. unfold isSign.
    destruct (peek input (S p2) === PLUS) eqn:Hp; simpl.
    { apply Z.eqb_eq in Hp. split; [lia|]. right. left.
      rewrite span_one; by rewrite Hp. }
    destruct (peek input (S p2) === DASH) eqn:Hm; simpl.
    { apply Z.eqb_eq in Hm. split; [lia|]. right. right.
      rewrite span_one; by rewrite Hm. }
    split; [lia|]. left. apply span_empty. }
  exists (scanDigits input q). repeat split; [lia|]. right.
  exists (peek input p2), (span input (S p2) q),
    (span input q (scanDigits input q)).
  repeat split; [|by apply orb_true_iff in He as [?%Z.eqb_eq|?%Z.eqb_eq]; auto
                |done|done].
  rewrite (span_split input p2 (S p2)) by lia.
  rewrite (span_split input (S p2) q) by lia.
  rewrite span_one; [done|].
  apply orb_true_iff in He as [->%Z.eqb_eq| ->%Z.eqb_eq]; done.
Qed.

Lemma numberToken_decimal (input : InputStream) :
  decimalMode input = true ->
  isDigit (peek input (signWidth input)) = true ->
  numberToken input = decimal input (signWidth input).
Proof.
  intros Hmode Hd. rewrite numberToken_signed. cbv zeta. rewrite Hd.
  cbn [negb]. unfold decimalMode in Hmode. cbv zeta in Hmode.
  destruct (peek input (signWidth input) === DIGIT_0); [|done].
  cbn [andb] in *. apply negb_true_iff in Hmode.
  repeat (apply orb_false_iff in Hmode as [Hmode ?]).
  by repeat match goal with H : (_ === _) = false |- _ => rewrite H; clear H end.
Qed.

(** C5, as amended: the tokenizer declines unless a digit follows the
    optional sign, so a bare sign or a bare dot is never a number; and a
    token accepted in decimal mode spans an optional sign, a run of digits
    and underscores that starts with a digit, optionally a dot followed by
    such a run or by nothing, and optionally an exponent made of [e] or
    [E], an optional sign and such a run. *)
Theorem decimal_number_shape (input : InputStream) :
  (isDigit (peek input (signWidth input)) = false ->
   numberToken input = Decline)
  /\ (decimalMode input = true ->
      forall term tokenEnd,
        numberToken input = Accept term tokenEnd ->
        term = NumberToken
        /\ exists n, tokenEnd = pos input + n
             /\ decimalNumber (span input 0 n)).
Proof.
  split.
  - intros Hd. rewrite numberToken_signed. cbv zeta. by rewrite Hd.
  - intros Hmode term tokenEnd Hacc.
    destruct (isDigit (peek input (signWidth input))) eqn:Hd.
    2:{ rewrite numberToken_signed in Hacc. cbv zeta in Hacc.
        by rewrite Hd in Hacc. }
    rewrite numberToken_decimal, decimal_digit in Hacc by done.
    cbv zeta in Hacc.
    destruct (digit_scan input _ Hd) as [H01 Hint].
    destruct (fraction_span input (scanDigits input (signWidth input)))
      as [H12 Hfrac].
    set (p0 := signWidth input) in *. set (p1 := scanDigits input p0) in *.
    set (p2 := if peek input p1 === DOT
               then if isDigit (peek input (S p1))
                    then scanDigits input (S p1) else S p1
               else p1) in *.
    apply exponent_span in Hacc as (-> & p3 & -> & H23 & Hexp).
    split; [done|]. exists p3. split; [done|].
    exists (span input 0 p0), (span input p0 p1), (span input p1 p2),
      (span input p2 p3).
    split; [|by repeat split; try apply sign_span].
    rewrite (span_split input 0 p0 p3) by lia.
    rewrite (span_split input p0 p1 p3) by lia.
    by rewrite (span_split input p1 p2 p3) by lia.
Qed.

Lemma decimal_number_shape_witness :
  decimalMode (document (codes "-1_0.5e+3 ")) = true
  /\ numberToken (document (codes "-1_0.5e+3 ")) = Accept NumberToken 9
  /\ exists n, 9 = 0 + n
       /\ decimalNumber (span (document (codes "-1_0.5e+3 ")) 0 n).
Proof.
  split; [reflexivity|]. split; [reflexivity|].
  exact (proj2 (proj2 (decimal_number_shape (document (codes "-1_0.5e+3 ")))
                  eq_refl NumberToken 9 eq_refl)).
Defined.

(** C5, as stated, fails: for the text [1.] the tokenizer accepts both
    characters, so the accepted span ends in a dot that no fractional digit
    follows. *)
Lemma number_trailing_dot_counterexample :
  ~ noTrailingDot (document (codes "1.")).
Proof. intros H. by apply (H 1). Qed.

(** ** stringToken *)

Lemma stringBody_forward (input : InputStream) (p p' : nat) :
  stringBody input p = inl p' ->
  p < p' /\ pos input + p < length (chunk input).
Proof.
  unfold stringBody. intros Hb.
  destruct (peek input p === EOF) eqn:He; [done|].
  apply Z.eqb_neq, peek_inside in He.
  destruct (_ || _); [done|]. destruct (_ && _); [done|].
  destruct (peek input p === BACKSLASH); [|injection Hb as <-; lia].
  destruct (peek input (p + 1) === EOF); [done|].
  destruct (peek input (p + 1) === LOWER_U).
  - destruct (forallb _ _); [injection Hb as <-; lia|done].
  - destruct (includes _ _); [injection Hb as <-; lia|done].
Qed.

Lemma stringBody_outcome (input : InputStream) (p : nat) (r : Outcome) :
  stringBody input p = inr r ->
  r = Decline
  \/ (r = Accept StringToken (pos input + (p + 1))
      /\ peek input p = QUOTE /\ peek input (p - 1) <> BACKSLASH).
Proof.
  unfold stringBody, acceptToken.
  destruct (peek input p === EOF); [intros [= <-]; by left|].
  destruct (_ || _); [intros [= <-]; by left|].
  destruct (peek input p === QUOTE) eqn:Hq; simpl.
  - destruct (peek input (p - 1) === BACKSLASH) eqn:Hb; simpl.
    + apply Z.eqb_eq in Hq. rewrite Hq. simpl. done.
    + intros [= <-]. right. apply Z.eqb_eq in Hq. apply Z.eqb_neq in Hb. done.
  - repeat match goal with
           | |- context [if ?b then _ else _] => destruct b
           end; try done; intros [= <-]; by left.
Qed.

Lemma stringToken_quoted (input : InputStream) :
  peek input 0 = QUOTE ->
  stringToken input = run (while (fuelFor input) (stringBody input) 1)
  /\ is_Some (while (fuelFor input) (stringBody input) 1).
Proof.
  intros Hq. split.
  - unfold stringToken. by rewrite Hq.
  - apply while_terminates
      with (measure := fun p => length (chunk input) - (pos input + p)).
    + intros p p' Hb. apply stringBody_forward in Hb. lia.
    + unfold fuelFor. lia.
Qed.

Lemma stringToken_total (input : InputStream) : stringToken input <> OutOfFuel.
Proof.
  destruct (peek input 0 === QUOTE) eqn:Hq.
  - apply Z.eqb_eq in Hq.
    destruct (stringToken_quoted input Hq) as [-> [r Hr]]. rewrite Hr. simpl.
    apply (while_leaves _ (fun r => r <> OutOfFuel) _ _ _) in Hr; [done|].
    intros p r' Hb. by apply stringBody_outcome in Hb as [->|[-> _]].
  - unfold stringToken. by rewrite Hq.
Qed.

Lemma string_accept_later (input : InputStream) (fuel p : nat) (term : Term)
  (tokenEnd : nat) :
  while fuel (stringBody input) p = Some (Accept term tokenEnd) ->
  term = StringToken
  /\ exists q, p <= q /\ tokenEnd = pos input + (q + 1)
       /\ peek input q = QUOTE /\ peek input (q - 1) <> BACKSLASH
       /\ iterates (stringBody input) p q.
Proof.
  revert p. induction fuel as [|fuel IH]; intros p; simpl; [done|].
  destruct (stringBody input p) as [p'|r] eqn:Hb.
  - intros H. destruct (IH _ H) as (-> & q & Hq & -> & Hquote & Hprev & Hit).
    apply stringBody_forward in Hb as Hfw. split; [done|].
    exists q. repeat split; try done; [lia|].
    eapply iterates_next; eauto.
  - intros [= ->]. apply stringBody_outcome in Hb as [?|([= -> ->] & ? & ?)];
      [done|].
    split; [done|]. exists p. repeat split; try done. apply iterates_here.
Qed.

Lemma stringBody_backslash (input : InputStream) (p : nat) :
  peek input p = BACKSLASH ->
  stringBody input p
  = if peek input (p + 1) === EOF then inr Decline
    else if peek input (p + 1) === LOWER_U then
      if forallb (fun i => isHex (peek input (p + 2 + i))) (seq 0 4)
      then inl (p + 6)
      else inr Decline
    else if includes simpleEscapes (peek input (p + 1)) then inl (p + 2)
    else inr Decline.
Proof. intros Hb. unfold stringBody. rewrite Hb. reflexivity. Qed.

Lemma stringBody_breaks (input : InputStream) (p : nat) :
  breaksString input p -> stringBody input p = inr Decline.
Proof.
  unfold stringBody, isTerminator.
  intros [He|[Ht|[(Hb & Hu & Hs)|(Hb & Hu & i & Hi & Hh)]]].
  - by rewrite He.
  - destruct (peek input p === EOF); [done|].
    unfold isTerminator in Ht. by rewrite Ht.
  - fold (stringBody input p). rewrite stringBody_backslash by done.
    apply Z.eqb_neq in Hu. rewrite Hu, Hs.
    by destruct (peek input (p + 1) === EOF).
  - fold (stringBody input p). rewrite stringBody_backslash by done.
    rewrite Hu. change (LOWER_U === EOF) with false.
    change (LOWER_U === LOWER_U) with true. cbv iota.
    destruct (forallb _ _) eqn:Hall; [|done].
    rewrite forallb_forall in Hall.
    rewrite Hall in Hh; [done|]. apply in_seq. lia.
Qed.

Lemma stringBody_quote (input : InputStream) (q : nat) :
  peek input q = QUOTE ->
  stringBody input q
  = if peek input (q - 1) !== BACKSLASH
    then inr (Accept StringToken (pos input + (q + 1)))
    else inl (q + 1).
Proof. intros Hq. unfold stringBody. rewrite Hq. reflexivity. Qed.

Lemma string_breaks_decline (input : InputStream) (p : nat) :
  stringReaches input p -> breaksString input p ->
  stringToken input = Decline.
Proof.
  intros [Hq Hit] Hbreak.
  destruct (stringToken_quoted input Hq) as [-> Hsome].
  by rewrite (while_reaches _ _ _ _ Decline Hit (stringBody_breaks _ _ Hbreak)).
Qed.

Lemma string_accept_closing (input : InputStream) (term : Term)
  (tokenEnd : nat) :
  stringToken input = Accept term tokenEnd ->
  term = StringToken
  /\ exists q, tokenEnd = pos input + (q + 1) /\ 1 <= q
       /\ peek input q = QUOTE /\ peek input (q - 1) <> BACKSLASH
       /\ stringReaches input q.
Proof.
  intros Hacc.
  destruct (peek input 0 === QUOTE) eqn:Hq.
  2:{ unfold stringToken in Hacc. by rewrite Hq in Hacc. }
  apply Z.eqb_eq in Hq.
  destruct (stringToken_quoted input Hq) as [Hs [r Hr]].
  rewrite Hs, Hr in Hacc. simpl in Hacc. subst r.
  apply string_accept_later in Hr as (-> & q & Hle & -> & Hquote & Hprev & Hit).
  split; [done|]. exists q. by repeat split.
Qed.

(** C7: when the scan of a string comes to a double quote, the tokenizer
    accepts the string with that quote as its last character exactly when
    the character before the quote is not a backslash; behind a backslash
    the quote is stepped over and no token ends behind it.  So when the
    scan comes to an escaped backslash that stands directly before a quote,
    that quote does not close the string: no token ends behind it, the
    scan goes on, and if a line terminator or the end of the document
    comes next the tokenizer declines. *)
Theorem quote_after_backslash (input : InputStream) :
  (forall q, stringReaches input q -> peek input q = QUOTE ->
     (peek input (q - 1) <> BACKSLASH ->
      stringToken input = Accept StringToken (pos input + (q + 1)))
     /\ (peek input (q - 1) = BACKSLASH ->
         stringReaches input (q + 1)
         /\ stringToken input <> Accept StringToken (pos input + (q + 1))))
  /\ (forall q, peek input q = QUOTE ->
     (peek input (q - 1) <> BACKSLASH ->
      stringBody input q = inr (Accept StringToken (pos input + (q + 1))))
     /\ (peek input (q - 1) = BACKSLASH -> stringBody input q = inl (q + 1)))
  /\ (forall p, stringReaches input p ->
        peek input p = BACKSLASH -> peek input (p + 1) = BACKSLASH ->
        peek input (p + 2) = QUOTE ->
        stringReaches input (p + 3)
        /\ stringToken input <> Accept StringToken (pos input + (p + 3))
        /\ (isTerminator (peek input (p + 3)) = true
            \/ peek input (p + 3) = EOF ->
            stringToken input = Decline)).
Proof.
  split; [|split].
  - intros q [Hopen Hit] Hq. split; intros Hprev.
    + destruct (stringToken_quoted input Hopen) as [-> Hsome].
      rewrite (while_reaches _ _ _ _
                 (Accept StringToken (pos input + (q + 1))) Hit); [done| |done].
      rewrite stringBody_quote by done.
      apply Z.eqb_neq in Hprev. by rewrite Hprev.
    + split.
      * split; [done|]. eapply iterates_trans; [exact Hit|].
        eapply iterates_next; [|apply iterates_here].
        rewrite stringBody_quote by done. by rewrite Hprev.
      * intros Hacc.
        apply string_accept_closing in Hacc
          as (_ & q' & He & _ & _ & Hprev' & _).
        replace q' with q in Hprev' by lia. done.
  - intros q Hq. rewrite stringBody_quote by done. split; intros Hprev.
    + apply Z.eqb_neq in Hprev. by rewrite Hprev.
    + by rewrite Hprev.
  - intros p [Hopen Hit] Hb Hesc Hq.
    assert (stringReaches input (p + 3)) as Hreach.
    { split; [done|]. eapply iterates_trans; [exact Hit|].
      eapply iterates_next.
      { rewrite stringBody_backslash by done. rewrite Hesc. reflexivity. }
      eapply iterates_next; [|apply iterates_here].
      rewrite stringBody_quote by done.
      replace (p + 2 - 1) with (p + 1) by lia. rewrite Hesc.
      simpl. f_equal. lia. }
    split; [done|]. split.
    + intros Hacc.
      destruct (stringToken_quoted input Hopen) as [Hs [r Hr]].
      rewrite Hs, Hr in Hacc. simpl in Hacc. subst r.
      destruct (while_through _ _ _ _ _ (proj2 Hreach) Hr) as [fuel' Hr'].
      apply string_accept_later in Hr' as (_ & q & Hle & He & _). lia.
    + intros Hstop. apply (string_breaks_decline input (p + 3) Hreach).
      destruct Hstop as [Ht|He]; [by right; left|by left].
Qed.

Lemma quote_after_backslash_witness :
  (stringReaches (document [QUOTE; 97; QUOTE]%Z) 2
   /\ stringToken (document [QUOTE; 97; QUOTE]%Z) = Accept StringToken 3)
  /\ stringReaches
       (document [QUOTE; 97; BACKSLASH; BACKSLASH; QUOTE; NEWLINE]%Z) 2
  /\ stringToken (document [QUOTE; 97; BACKSLASH; BACKSLASH; QUOTE; NEWLINE]%Z)
     = Decline.
Proof.
  split.
  { set (input := document [QUOTE; 97; QUOTE]%Z).
    assert (stringReaches input 2) as Hreach.
    { split; [reflexivity|].
      eapply iterates_next; [reflexivity|]. apply iterates_here. }
    split; [exact Hreach|].
    apply (proj1 (proj1 (quote_after_backslash input) 2 Hreach eq_refl)).
    discriminate. }
  set (input := document [QUOTE; 97; BACKSLASH; BACKSLASH; QUOTE; NEWLINE]%Z).
  assert (stringReaches input 2) as Hreach.
  { split; [reflexivity|].
    eapply iterates_next; [reflexivity|]. apply iterates_here. }
  split; [exact Hreach|].
  destruct (proj2 (proj2 (quote_after_backslash input)) 2 Hreach
              eq_refl eq_refl eq_refl)
    as (_ & _ & Hdecline).
  apply Hdecline. by left.
Defined.

(** C8: when the scan of a string comes to the end of the document, to a
    raw line terminator, to a backslash followed by a character that is
    neither a simple escape nor [u], or to [\u] without four hex digits
    behind it, the tokenizer declines; and every token it accepts is a
    String that ends directly behind a closing quote the scan came to, so
    no partial string is ever emitted. *)
Theorem string_never_partial (input : InputStream) :
  (forall p, stringReaches input p -> breaksString input p ->
             stringToken input = Decline)
  /\ (forall term tokenEnd,
        stringToken input = Accept term tokenEnd ->
        term = StringToken
        /\ exists q, tokenEnd = pos input + (q + 1) /\ 1 <= q
             /\ peek input q = QUOTE /\ peek input (q - 1) <> BACKSLASH
             /\ stringReaches input q).
Proof.
  split.
  - intros p. apply string_breaks_decline.
  - intros term tokenEnd. apply string_accept_closing.
Qed.

Lemma string_never_partial_witness :
  stringReaches (document (QUOTE :: codes "ab\u12") ) 3
  /\ breaksString (document (QUOTE :: codes "ab\u12")) 3
  /\ stringToken (document (QUOTE :: codes "ab\u12")) = Decline.
Proof.
  set (input := document (QUOTE :: codes "ab\u12")).
  assert (stringReaches input 3) as Hreach.
  { split; [reflexivity|].
    do 2 (eapply iterates_next; [reflexivity|]). apply iterates_here. }
  assert (breaksString input 3) as Hbreak.
  { right. right. right. repeat split. exists 2. split; [lia|reflexivity]. }
  split; [exact Hreach|]. split; [exact Hbreak|].
  exact (proj1 (string_never_partial input) 3 Hreach Hbreak).
Defined.

(** ** Every tokenizer ends with a token or a decline *)

Lemma numberToken_total (input : InputStream) : numberToken input <> OutOfFuel.
Proof.
  rewrite numberToken_signed. cbv zeta.
  destruct (negb _); [done|].
  destruct (_ && _); [by destruct (negb _)|].
  assert (forall valid s, valid EOF = false ->
            run (while (fuelFor input) (basedBody valid input) s) <> OutOfFuel)
    as Hbased.
  { intros valid s Hv.
    destruct (basedBody_terminates valid input s Hv) as [r Hr]. rewrite Hr.
    apply (while_leaves _ (fun r => r <> OutOfFuel) _ _ _) in Hr; [done|].
    intros [p seen] r'. unfold basedBody, acceptToken.
    repeat match goal with
           | |- context [if ?b then _ else _] => destruct b
           end; intros [= <-]; done. }
  destruct (_ && _); [by apply Hbased|].
  destruct (_ && _); [by apply Hbased|].
  unfold decimal, acceptToken.
  repeat match goal with
         | |- context [if ?b then _ else _] => destruct b
         | |- context [let '(_, _) := ?x in _] => destruct x
         end; done.
Qed.

Lemma token_total (t : Tokenizer) (input : InputStream) (stack : Stack) :
  token t input stack <> OutOfFuel.
Proof.
  destruct t; simpl.
  - apply indentation_total.
  - apply multilineStrings_total.
  - unfold keyToken, acceptToken. destruct (negb _); [done|].
    by destruct (_ && _).
  - unfold listMarkToken, acceptToken. destruct (_ !== _); [done|].
    by destruct (isDigit _).
  - apply stringToken_total.
  - apply numberToken_total.
Qed.

(** ** The scanning loops without early exit stop where the source stops

    [loopWhile] gets [fuelFor input] iterations; the loops over hex digits
    and over key characters end, like those over digits and over
    indentation, on the first character outside their class. *)

Lemma hex_scan_exit (input : InputStream) (p : nat) :
  isHexOrUnderscore input
    (loopWhile (fuelFor input) (isHexOrUnderscore input) S p) = false.
Proof. apply scan_exit, isHexOrUnderscore_inside. Qed.

Lemma key_scan_exit (input : InputStream) (p : nat) :
  isAlphaNum
    (peek input
       (loopWhile (fuelFor input) (fun p => isAlphaNum (peek input p)) S p))
  = false.
Proof.
  apply (scan_exit input (fun p => isAlphaNum (peek input p))).
  apply isAlphaNum_inside.
Qed.

(** * Further properties of the tokenizers *)

Section WhileInvariant.
Context {St R : Type} (body : St -> St + R) (Inv : St -> Prop).
Hypothesis Inv_step : forall s s', Inv s -> body s = inl s' -> Inv s'.

Lemma iterates_invariant (s s' : St) :
  iterates body s s' -> Inv s -> Inv s'.
Proof. induction 1; eauto. Qed.

Lemma while_invariant (P : R -> Prop) (fuel : nat) (s : St) (r : R) :
  (forall s r, Inv s -> body s = inr r -> P r) ->
  Inv s -> while fuel body s = Some r -> P r.
Proof.
  intros HP. revert s. induction fuel as [|fuel IH]; intros s Hs; simpl; [done|].
  destruct (body s) as [s'|r'] eqn:E; [by apply IH; eauto|].
  intros [= <-]. eauto.
Qed.

End WhileInvariant.

Lemma indentWidth_le (l : list Z) : indentWidth l <= length l.
Proof.
  induction l as [|c l IH]; simpl; [done|]. destruct (isIndentChar c); lia.
Qed.

Lemma leadingWhitespace_inside (input : InputStream) :
  pos input + 1 <= length (chunk input) ->
  pos input + 1 + leadingWhitespace input <= length (chunk input).
Proof.
  intros H. unfold leadingWhitespace.
  pose proof (indentWidth_le (drop (pos input + 1) (chunk input))) as Hw.
  rewrite length_drop in Hw. lia.
Qed.

Lemma span_one_inside (input : InputStream) (a : nat) :
  pos input + a < length (chunk input) -> span input a (S a) = [peek input a].
Proof.
  intros H. unfold span, peek.
  replace (S a - a) with 1 by lia. rewrite peek_drop.
  destruct (chunk input !! (pos input + a)) eqn:E; simpl; [by rewrite take_0|].
  apply lookup_ge_None in E. lia.
Qed.

Lemma span_peeks (input : InputStream) (n : nat) :
  pos input + n <= length (chunk input) ->
  span input 0 n = map (peek input) (seq 0 n).
Proof.
  induction n as [|n IH]; intros Hn; [apply span_empty|].
  rewrite (span_split input 0 n (S n)), IH, span_one_inside by lia.
  by rewrite seq_S, map_app.
Qed.

Lemma span_length (input : InputStream) (n : nat) :
  pos input + n <= length (chunk input) -> length (span input 0 n) = n.
Proof. intros H. rewrite span_peeks by done. by rewrite length_map, length_seq. Qed.

(** ** What an accepted token tells about the text *)

Lemma indentation_facts (input : InputStream) (stack : Stack) (term : Term)
  (tokenEnd : nat) :
  indentation input stack = Accept term tokenEnd ->
  (term = Dedent /\ tokenEnd = pos input /\ (0 < context stack)%Z
   /\ (peek input 0 = EOF \/ isTerminator (peek input 0) = true))
  \/ ((term = Indent \/ term = Newline)
      /\ pos input < tokenEnd <= length (chunk input)
      /\ isTerminator (peek input 0) = true).
Proof.
  destruct (peek input 0 === EOF) eqn:He.
  { unfold indentation, acceptToken. rewrite He.
    destruct (Z.ltb_spec 0 (context stack)); [|done].
    intros [= <- <-]. left. apply Z.eqb_eq in He. repeat split; auto; lia. }
  destruct (isTerminator (peek input 0)) eqn:Ht.
  2:{ apply Z.eqb_neq in He. by rewrite indentation_elsewhere. }
  pose proof (peek_inside _ _ (isTerminator_not_EOF _ Ht)) as Hin.
  pose proof (leadingWhitespace_inside input ltac:(lia)) as Hw.
  rewrite indentation_terminator by done. cbv zeta.
  destruct (_ || _).
  { intros [= <- <-]. right. repeat split; auto; lia. }
  destruct (Z.ltb_spec (context stack) (Z.of_nat (leadingWhitespace input))).
  { intros [= <- <-]. right. repeat split; auto; lia. }
  destruct (Z.ltb_spec (Z.of_nat (leadingWhitespace input)) (context stack)).
  { intros [= <- <-]. left. repeat split; auto; lia. }
  intros [= <- <-]. right. repeat split; auto; lia.
Qed.

Lemma isAlpha_isAlphaNum (c : Z) : isAlpha c = true -> isAlphaNum c = true.
Proof. intros H. unfold isAlphaNum. by rewrite H. Qed.

Lemma keyEnd_facts (input : InputStream) :
  isAlpha (peek input 0) = true ->
  1 <= keyEnd input
  /\ pos input + keyEnd input <= length (chunk input)
  /\ (forall i, i < keyEnd input -> isAlphaNum (peek input i) = true)
  /\ isAlphaNum (peek input (keyEnd input)) = false.
Proof.
  intros Ha. unfold keyEnd.
  assert (pos input + 0 < length (chunk input)) as Hin.
  { apply peek_inside. intros E. by rewrite E in Ha. }
  destruct (scan_run input (fun p => isAlphaNum (peek input p)) 1) as [Hle Hrun].
  repeat split; [done| | |apply key_scan_exit].
  - apply (scan_inside input (fun p => isAlphaNum (peek input p)));
      [apply isAlphaNum_inside|lia].
  - intros i Hi. destruct i as [|i]; [by apply isAlpha_isAlphaNum|].
    apply Hrun. lia.
Qed.

(** ** keyToken *)

Lemma reservedWords_codes :
  reservedWords
  = [[116; 114; 117; 101]; [102; 97; 108; 115; 101]; [110; 117; 108; 108];
     [110; 97; 110]; [105; 110; 102]]%Z.
Proof. reflexivity. Qed.

Lemma keyToken_reserved (input : InputStream) :
  isAlpha (peek input 0) = true ->
  keyToken input
  = if bool_decide (span input 0 (keyEnd input) ∈ reservedWords)
    then Decline else Accept Key (pos input + keyEnd input).
Proof.
  intros Ha. destruct (keyEnd_facts input Ha) as (_ & Hin & _).
  unfold keyToken, acceptToken. rewrite Ha. cbn [negb].
  change (loopWhile (fuelFor input) (fun p => isAlphaNum (peek input p)) S 1)
    with (keyEnd input).
  cbv zeta. rewrite span_peeks by done. rewrite reservedWords_codes.
  destruct (keyEnd input) as [|[|[|[|[|[|p]]]]]]; cbn [map seq Nat.leb Nat.eqb andb orb];
    match goal with
    | |- context [bool_decide ?P] => destruct (bool_decide_reflect P) as [Hr|Hr]
    end;
    try reflexivity;
    try (exfalso; rewrite !elem_of_cons, elem_of_nil in Hr;
         destruct Hr as [Hr|[Hr|[Hr|[Hr|[Hr|[]]]]]]; discriminate Hr).
  all: try (rewrite !elem_of_cons, elem_of_nil in Hr;
            destruct Hr as [Hr|[Hr|[Hr|[Hr|[Hr|[]]]]]]; try discriminate Hr;
            injection Hr as -> -> -> -> ->; reflexivity).
  all: try (rewrite !elem_of_cons, elem_of_nil in Hr;
            destruct Hr as [Hr|[Hr|[Hr|[Hr|[Hr|[]]]]]]; try discriminate Hr;
            injection Hr as -> -> -> ->; reflexivity).
  all: try (rewrite !elem_of_cons, elem_of_nil in Hr;
            destruct Hr as [Hr|[Hr|[Hr|[Hr|[Hr|[]]]]]]; try discriminate Hr;
            injection Hr as -> -> ->; reflexivity).
  all: match goal with
       | |- (if ?b then _ else _) = _ => destruct b eqn:Hb; [exfalso|reflexivity]
       end;
    apply Hr; clear Hr;
    repeat (apply andb_true_iff in Hb as [Hb ?]
            || apply orb_true_iff in Hb as [Hb|Hb]);
    repeat match goal with H : (_ === _) = true |- _ => apply Z.eqb_eq in H end;
    try discriminate;
    repeat match goal with H : peek _ _ = _ |- _ => rewrite H; clear H end;
    rewrite !elem_of_cons; auto 10.
Qed.

(** X4: [keyToken] declines when the first character is not a letter or an
    underscore, and otherwise looks at the longest run of key characters:
    it declines when that run is exactly one of the reserved words and
    accepts the whole run as a Key when it is not, so a reserved word that
    is only the beginning of a longer run is a key. *)
Theorem keyToken_spec (input : InputStream) :
  (isAlpha (peek input 0) = false -> keyToken input = Decline)
  /\ (isAlpha (peek input 0) = true ->
      (span input 0 (keyEnd input) ∈ reservedWords ->
       keyToken input = Decline)
      /\ (span input 0 (keyEnd input) ∉ reservedWords ->
          keyToken input = Accept Key (pos input + keyEnd input))
      /\ 1 <= keyEnd input
      /\ Forall (fun c => isAlphaNum c = true) (span input 0 (keyEnd input))
      /\ isAlphaNum (peek input (keyEnd input)) = false).
Proof.
  split.
  - intros Ha. unfold keyToken. by rewrite Ha.
  - intros Ha. destruct (keyEnd_facts input Ha) as (H1 & Hin & Hrun & Hexit).
    rewrite keyToken_reserved by done.
    repeat split; try done.
    + intros Hr. by rewrite bool_decide_eq_true_2.
    + intros Hr. by rewrite bool_decide_eq_false_2.
    + apply span_Forall. intros i Hi. apply Hrun. lia.
Qed.

Lemma keyToken_spec_witness :
  isAlpha (peek (document (codes "true-x: 1")) 0) = true
  /\ (span (document (codes "true-x: 1")) 0
        (keyEnd (document (codes "true-x: 1"))) ∉ reservedWords)
  /\ keyToken (document (codes "true-x: 1")) = Accept Key 6.
Proof.
  assert (span (document (codes "true-x: 1")) 0
            (keyEnd (document (codes "true-x: 1"))) ∉ reservedWords) as Hn.
  { apply (bool_decide_eq_false_1 _). reflexivity. }
  split; [reflexivity|]. split; [exact Hn|].
  exact (proj1 (proj2 (proj2 (keyToken_spec (document (codes "true-x: 1")))
                         eq_refl)) Hn).
Defined.

(** ** numberToken: where an accepted number ends *)

Lemma scanDigits_facts (input : InputStream) (q : nat) :
  pos input + q <= length (chunk input) ->
  q <= scanDigits input q
  /\ pos input + scanDigits input q <= length (chunk input)
  /\ isDigit (peek input (scanDigits input q)) = false.
Proof.
  intros Hq. unfold scanDigits.
  destruct (scan_run input (isDigitOrUnderscore input) q) as [Hle _].
  pose proof (scan_exit input _ (isDigitOrUnderscore_inside input) q) as Hexit.
  pose proof (scan_inside input _ (isDigitOrUnderscore_inside input) q Hq).
  repeat split; try done.
  unfold isDigitOrUnderscore in Hexit. by apply orb_false_iff in Hexit as [? _].
Qed.

Lemma run_accept (r : option Outcome) (term : Term) (tokenEnd : nat) :
  run r = Accept term tokenEnd -> r = Some (Accept term tokenEnd).
Proof. destruct r; simpl; [by intros ->|done]. Qed.

Lemma based_accept_facts (valid : Z -> bool) (input : InputStream)
  (p : nat) (term : Term) (tokenEnd : nat) :
  valid EOF = false ->
  pos input + p <= length (chunk input) ->
  run (while (fuelFor input) (basedBody valid input) (p, false))
  = Accept term tokenEnd ->
  term = NumberToken
  /\ exists n, tokenEnd = pos input + n /\ p <= n
       /\ pos input + n <= length (chunk input)
       /\ isDigit (peek input n) = false.
Proof.
  intros Hv Hp Hacc. apply run_accept in Hacc.
  set (Inv := fun s : nat * bool =>
                p <= s.1 /\ pos input + s.1 <= length (chunk input)).
  assert (forall s s', Inv s -> basedBody valid input s = inl s' -> Inv s')
    as Hstep.
  { intros [q seen] s' [Hle Hin] Hb.
    pose proof (basedBody_forward valid input (q, seen) s' Hv Hb) as Hfw.
    unfold basedBody in Hb. unfold Inv. simpl in *.
    destruct (valid (peek input q)); [injection Hb as <-; simpl; lia|].
    destruct (peek input q === UNDERSCORE); [injection Hb as <-; simpl; lia|].
    by destruct (isDigit (peek input q)). }
  refine (while_invariant _ Inv Hstep
            (fun r => r = Accept term tokenEnd -> _) _ _ _ _ _ Hacc eq_refl).
  - intros [q seen] r [Hle Hin]. unfold basedBody, acceptToken. simpl in *.
    destruct (valid (peek input q)); [done|].
    destruct (peek input q === UNDERSCORE); [done|].
    destruct (isDigit (peek input q)) eqn:Hd; [by intros [= <-]|].
    destruct seen; intros [= <-]; [|done].
    intros [= <- <-]. split; [done|]. by exists q.
  - unfold Inv. simpl. lia.
Qed.

Lemma isHex_not_EOF (c : Z) : isHex c = true -> c <> EOF.
Proof. by intros H ->. Qed.

Lemma decimal_accept_facts (input : InputStream) (p : nat) (term : Term)
  (tokenEnd : nat) :
  isDigit (peek input p) = true ->
  decimal input p = Accept term tokenEnd ->
  term = NumberToken
  /\ exists n, tokenEnd = pos input + n /\ p < n
       /\ pos input + n <= length (chunk input)
       /\ isDigit (peek input n) = false.
Proof.
  intros Hd. rewrite decimal_digit by done. cbv zeta.
  pose proof (peek_inside _ _ (isDigit_not_EOF _ Hd)) as Hin.
  destruct (digit_scan input p Hd) as [Hlt _].
  destruct (scanDigits_facts input p ltac:(lia)) as (_ & Hin1 & Hx1).
  set (p1 := scanDigits input p) in *.
  set (p2 := if peek input p1 === DOT
             then if isDigit (peek input (S p1))
                  then scanDigits input (S p1) else S p1
             else p1).
  assert (p < p2 /\ pos input + p2 <= length (chunk input)
          /\ isDigit (peek input p2) = false) as (Hlt2 & Hin2 & Hx2).
  { subst p2. destruct (peek input p1 === DOT) eqn:Hdot; [|done].
    assert (pos input + p1 < length (chunk input)) as Hdin.
    { apply peek_inside. apply Z.eqb_eq in Hdot. by rewrite Hdot. }
    destruct (isDigit (peek input (S p1))) eqn:Hfd.
    - destruct (scanDigits_facts input (S p1) ltac:(lia)) as (? & ? & ?).
      repeat split; [lia|done|done].
    - repeat split; [lia|lia|done]. }
  clearbody p2.
  destruct ((peek input p2 === LOWER_E) || (peek input p2 === UPPER_E)) eqn:He.
  2:{ intros [= <- <-]. split; [done|]. by exists p2. }
  assert (pos input + p2 < length (chunk input)) as Hein.
  { apply peek_inside. intros E. by rewrite E in He. }
  set (q := if (peek input (S p2) === PLUS) || (peek input (S p2) === DASH)
            then S (S p2) else S p2).
  assert (p2 < q /\ pos input + q <= length (chunk input)) as [Hq Hqin].
  { subst q.
    destruct ((peek input (S p2) === PLUS) || (peek input (S p2) === DASH))
      eqn:Hs; [|lia].
    assert (pos input + S p2 < length (chunk input)); [|lia].
    apply peek_inside. intros E. by rewrite E in Hs. }
  destruct (isDigit (peek input q)); [|done]. simpl.
  destruct (scanDigits_facts input q Hqin) as (? & ? & ?).
  intros [= <- <-]. split; [done|]. exists (scanDigits input q).
  repeat split; [lia|done|done].
Qed.

Lemma numberToken_facts (input : InputStream) (term : Term) (tokenEnd : nat) :
  numberToken input = Accept term tokenEnd ->
  term = NumberToken
  /\ isDigit (peek input (signWidth input)) = true
  /\ exists n, tokenEnd = pos input + n /\ signWidth input < n
       /\ pos input + n <= length (chunk input)
       /\ isDigit (peek input n) = false.
Proof.
  rewrite numberToken_signed. cbv zeta.
  set (p := signWidth input).
  destruct (isDigit (peek input p)) eqn:Hd; [|done]. cbn [negb].
  pose proof (peek_inside _ _ (isDigit_not_EOF _ Hd)) as Hin.
  assert (forall letter letter', 
            (peek input (p + 1) === letter) || (peek input (p + 1) === letter')
            = true -> letter <> EOF -> letter' <> EOF ->
            pos input + (p + 2) <= length (chunk input)) as Hletter.
  { intros l l' H Hl Hl'.
    assert (pos input + (p + 1) < length (chunk input)); [|lia].
    apply peek_inside.
    apply orb_true_iff in H as [H|H]; apply Z.eqb_eq in H; congruence. }
  destruct (peek input p === DIGIT_0); cbn [andb].
  2:{ intros H. apply decimal_accept_facts in H as (-> & n & ?); [|done].
      split; [done|]. split; [done|]. by exists n. }
  destruct ((peek input (p + 1) === LOWER_X) || (peek input (p + 1) === UPPER_X))
    eqn:Hx.
  { destruct (isHex (peek input (p + 2))) eqn:Hh; [|done]. cbn [negb].
    intros [= <- <-]. split; [done|]. split; [done|].
    pose proof (peek_inside _ _ (isHex_not_EOF _ Hh)) as Hin2.
    destruct (scan_run input (isHexOrUnderscore input) (p + 2)) as [Hle _].
    pose proof (scan_inside input _ (isHexOrUnderscore_inside input) (p + 2)
                  ltac:(lia)) as Hin3.
    pose proof (hex_scan_exit input (p + 2)) as Hexit.
    set (n := loopWhile (fuelFor input) (isHexOrUnderscore input) S (p + 2))
      in *.
    exists n. split; [done|]. split; [lia|]. split; [done|].
    unfold isHexOrUnderscore, isHex in Hexit.
    by repeat (apply orb_false_iff in Hexit as [Hexit _]). }
  destruct ((peek input (p + 1) === LOWER_O) || (peek input (p + 1) === UPPER_O))
    eqn:Ho.
  { intros H. apply based_accept_facts in H as (-> & n & ? & ? & ? & ?);
      [|done|by eapply Hletter].
    split; [done|]. split; [done|]. exists n. repeat split; try done. lia. }
  destruct ((peek input (p + 1) === LOWER_B) || (peek input (p + 1) === UPPER_B))
    eqn:Hb.
  { intros H. apply based_accept_facts in H as (-> & n & ? & ? & ? & ?);
      [|done|by eapply Hletter].
    split; [done|]. split; [done|]. exists n. repeat split; try done. lia. }
  intros H. apply decimal_accept_facts in H as (-> & n & ?); [|done].
  split; [done|]. split; [done|]. by exists n.
Qed.

(** ** multilineStrings: where an accepted block ends *)

Lemma while_last {St R : Type} (body : St -> St + R) (fuel : nat) (s : St)
  (r : R) :
  while fuel body s = Some r ->
  exists s', iterates body s s' /\ body s' = inr r.
Proof.
  revert s. induction fuel as [|fuel IH]; intros s; simpl; [done|].
  destruct (body s) as [s1|r1] eqn:E.
  - intros H. destruct (IH _ H) as (s' & Hit & Hr). exists s'. split; [|done].
    eapply iterates_next; eauto.
  - intros [= ->]. exists s. split; [apply iterates_here|done].
Qed.

Lemma multilineBody_cap (start : Z) (type : Term) (stack : Stack)
  (input : InputStream) (len : Z) :
  (MAX_LENGTH <= len)%Z ->
  multilineBody start type stack (input, len)
  = inr (Accept type (pos input + 0)).
Proof.
  intros H. unfold multilineBody. apply Z.ltb_ge in H. by rewrite H.
Qed.

Lemma multilineBody_eof (start : Z) (type : Term) (stack : Stack)
  (input : InputStream) (len : Z) :
  (len < MAX_LENGTH)%Z -> peek input 0 = EOF ->
  multilineBody start type stack (input, len) = inr Decline.
Proof.
  intros H He. unfold multilineBody. apply Z.ltb_lt in H. by rewrite H, He.
Qed.

Lemma multilineBody_plain (start : Z) (type : Term) (stack : Stack)
  (input : InputStream) (len : Z) :
  (len < MAX_LENGTH)%Z -> peek input 0 <> EOF ->
  isTerminator (peek input 0) = false ->
  multilineBody start type stack (input, len)
  = if peek input 0 === BACKSLASH then inl (advance input 2, (len + 2)%Z)
    else inl (advance input 1, (len + 1)%Z).
Proof.
  intros H He Ht. unfold multilineBody. apply Z.ltb_lt in H. rewrite H.
  apply Z.eqb_neq in He. rewrite He. unfold isTerminator in Ht. by rewrite Ht.
Qed.

Lemma bodyState_step (start : Z) (type : Term) (stack : Stack)
  (input : InputStream) (s s' : InputStream * Z) :
  start <> EOF ->
  bodyState input s -> multilineBody start type stack s = inl s' ->
  bodyState input s'.
Proof.
  destruct s as [at_ len]. intros Hstart (Hc & Hpos & Hlen) Hb.
  unfold bodyState. cbn [fst snd] in *.
  destruct (Z.ltb_spec len MAX_LENGTH) as [Hcap|Hcap].
  2:{ by rewrite multilineBody_cap in Hb. }
  destruct (peek at_ 0 === EOF) eqn:He.
  { apply Z.eqb_eq in He. by rewrite multilineBody_eof in Hb. }
  apply Z.eqb_neq in He. pose proof (peek_inside _ _ He) as Hin.
  rewrite Hc in Hin.
  destruct Hlen as [Hlen|[Hend _]]; [|lia].
  destruct (isTerminator (peek at_ 0)) eqn:Ht.
  - rewrite multilineBody_terminator in Hb by done. cbv zeta in Hb.
    pose proof (leadingWhitespace_inside at_) as Hw. rewrite Hc in Hw.
    destruct (fenceAt _ _ _); [by destruct (_ !== _)|].
    injection Hb as <-. simpl. repeat split; try done; try lia.
  - rewrite multilineBody_plain in Hb by done.
    destruct (peek at_ 0 === BACKSLASH); injection Hb as <-; simpl;
      rewrite Hc; repeat split; try done; try lia.
Qed.

Lemma bodyState_start (input : InputStream) :
  opensBlock input = true -> bodyState input (advance input 3, 0%Z).
Proof.
  intros Ho. unfold opensBlock in Ho.
  apply andb_true_iff in Ho as [Ho _]. apply andb_true_iff in Ho as [Ho H2].
  apply andb_true_iff in Ho as [H0 _].
  assert (peek input 2 <> EOF) as Hin.
  { apply Z.eqb_eq in H2. rewrite H2. intros E. by rewrite E in H0. }
  apply peek_inside in Hin. rewrite advance_inside by lia.
  unfold bodyState. simpl. split; [done|]. split; [lia|]. left. lia.
Qed.

Lemma opensBlock_start (input : InputStream) :
  opensBlock input = true ->
  peek input 0 = QUOTE \/ peek input 0 = BACKTICK.
Proof.
  unfold opensBlock. intros Ho.
  repeat (apply andb_true_iff in Ho as [Ho _]).
  apply orb_true_iff in Ho as [H|H]; apply Z.eqb_eq in H; auto.
Qed.

Lemma multiline_accept_facts (input : InputStream) (stack : Stack)
  (term : Term) (tokenEnd : nat) :
  multilineStrings input stack = Accept term tokenEnd ->
  term = fenceType (peek input 0)
  /\ opensBlock input = true
  /\ exists at_ len,
      bodyReaches input stack at_ len /\ bodyState input (at_, len)
      /\ (((MAX_LENGTH <= len)%Z /\ tokenEnd = pos at_)
          \/ ((len < MAX_LENGTH)%Z
              /\ isTerminator (peek at_ 0) = true
              /\ fenceAt (peek input 0) at_ (1 + leadingWhitespace at_) = true
              /\ Z.of_nat (leadingWhitespace at_) = context stack
              /\ tokenEnd = pos at_ + 1 + leadingWhitespace at_ + 3
              /\ tokenEnd <= length (chunk input))).
Proof.
  intros Hacc.
  destruct (opensBlock input) eqn:Ho.
  2:{ by rewrite multilineStrings_unopened in Hacc. }
  destruct (multilineStrings_opened input stack Ho) as (Hm & _ & Hne).
  rewrite Hm in Hacc. apply run_accept, while_last in Hacc
    as ([at_ len] & Hit & Hb).
  pose proof (iterates_invariant _ (bodyState input)
                (fun s s' => bodyState_step _ _ _ input s s' Hne)
                _ _ Hit (bodyState_start input Ho)) as Hst.
  destruct (Z.ltb_spec len MAX_LENGTH) as [Hcap|Hcap].
  2:{ rewrite multilineBody_cap in Hb by done. injection Hb as <- <-.
      split; [done|]. split; [done|]. exists at_, len.
      split; [done|]. split; [done|]. left. split; [done|lia]. }
  destruct (peek at_ 0 === EOF) eqn:He.
  { apply Z.eqb_eq in He. by rewrite multilineBody_eof in Hb. }
  apply Z.eqb_neq in He.
  destruct (isTerminator (peek at_ 0)) eqn:Ht.
  2:{ rewrite multilineBody_plain in Hb by done.
      by destruct (peek at_ 0 === BACKSLASH). }
  rewrite multilineBody_terminator in Hb by done. cbv zeta in Hb.
  destruct (fenceAt (peek input 0) at_ (1 + leadingWhitespace at_)) eqn:Hf;
    [|done].
  destruct (Z.eqb_spec (Z.of_nat (leadingWhitespace at_)) (context stack))
    as [Hw|Hw]; [|done].
  simpl in Hb. injection Hb as <- <-.
  split; [done|]. split; [done|]. exists at_, len.
  split; [done|]. split; [done|]. right. repeat split; try done.
  destruct Hst as (Hc & _ & _). simpl in Hc. rewrite <- Hc.
  unfold fenceAt in Hf. apply andb_true_iff in Hf as [_ H3].
  apply Z.eqb_eq in H3.
  assert (peek at_ (1 + leadingWhitespace at_ + 2) <> EOF) as Hin by congruence.
  apply peek_inside in Hin. lia.
Qed.

(** X8: in a document shorter than the length cap, a token accepted by
    [multilineStrings] is a BlockString for a quote fence and a
    FoldedString for a backtick fence, and it ends directly behind three
    fence characters that follow a line terminator of the body and a
    whitespace run exactly as wide as the indentation context; a block
    without such a fence is never accepted. *)
Theorem multiline_accept_closes (input : InputStream) (stack : Stack)
  (term : Term) (tokenEnd : nat) :
  (Z.of_nat (length (chunk input)) < MAX_LENGTH)%Z ->
  multilineStrings input stack = Accept term tokenEnd ->
  term = fenceType (peek input 0)
  /\ (peek input 0 = QUOTE \/ peek input 0 = BACKTICK)
  /\ exists at_ len,
      bodyReaches input stack at_ len
      /\ chunk at_ = chunk input /\ pos input + 3 <= pos at_
      /\ isTerminator (peek at_ 0) = true
      /\ fenceAt (peek input 0) at_ (1 + leadingWhitespace at_) = true
      /\ Z.of_nat (leadingWhitespace at_) = context stack
      /\ tokenEnd = pos at_ + 1 + leadingWhitespace at_ + 3.
Proof.
  intros Hshort Hacc.
  apply multiline_accept_facts in Hacc
    as (-> & Ho & at_ & len & Hreach & (Hc & Hpos & Hlen) & Hend).
  simpl in Hc, Hpos, Hlen.
  split; [done|]. split; [by apply opensBlock_start|].
  exists at_, len. destruct Hend as [[Hcap _]|(_ & Ht & Hf & Hw & -> & _)].
  - exfalso. destruct Hlen as [->|[_ ->]]; lia.
  - repeat split; try done. lia.
Qed.

Lemma multiline_accept_closes_witness :
  (Z.of_nat (length (chunk (document twoFences))) < MAX_LENGTH)%Z
  /\ multilineStrings (document twoFences) (atContext 2)
     = Accept BlockString 12
  /\ exists at_ len,
      bodyReaches (document twoFences) (atContext 2) at_ len
      /\ 12 = pos at_ + 1 + leadingWhitespace at_ + 3.
Proof.
  split; [reflexivity|]. split; [reflexivity|].
  destruct (multiline_accept_closes (document twoFences) (atContext 2)
              BlockString 12 eq_refl eq_refl)
    as (_ & _ & at_ & len & Hreach & _ & _ & _ & _ & _ & Hend).
  by exists at_, len.
Defined.

(** ** All tokenizers *)

Lemma token_starts (t : Tokenizer) (input : InputStream) (stack : Stack)
  (term : Term) (tokenEnd : nat) :
  token t input stack = Accept term tokenEnd -> startsToken t input.
Proof.
  destruct t; simpl; intros Hacc.
  - apply indentation_facts in Hacc as [(_ & _ & _ & H)|(_ & _ & H)]; auto.
  - apply multiline_accept_facts in Hacc as (_ & Ho & _).
    by apply opensBlock_start.
  - unfold keyToken in Hacc. by destruct (isAlpha (peek input 0)).
  - unfold listMarkToken in Hacc.
    destruct (Z.eqb_spec (peek input 0) DASH); [|done].
    by destruct (isDigit (peek input 1)).
  - unfold stringToken in Hacc.
    by destruct (Z.eqb_spec (peek input 0) QUOTE).
  - apply numberToken_facts in Hacc as (_ & Hd & _).
    unfold signWidth in Hd.
    destruct (Z.eqb_spec (peek input 0) PLUS); simpl in Hd; [auto|].
    destruct (Z.eqb_spec (peek input 0) DASH); simpl in Hd; auto.
Qed.

Lemma token_kind (t : Tokenizer) (input : InputStream) (stack : Stack)
  (term : Term) (tokenEnd : nat) :
  token t input stack = Accept term tokenEnd -> term ∈ tokenizerTerms t.
Proof.
  destruct t; simpl; intros Hacc.
  - apply indentation_accepts in Hacc as [->|[->|[-> _]]]; (apply list_elem_of_In; simpl; auto).
  - apply multiline_accept_facts in Hacc as (-> & _).
    unfold fenceType. destruct (_ === _); (apply list_elem_of_In; simpl; auto).
  - unfold keyToken, acceptToken in Hacc.
    destruct (negb _); [done|]. destruct (_ && _); [done|].
    injection Hacc as <- _. (apply list_elem_of_In; simpl; auto).
  - unfold listMarkToken, acceptToken in Hacc.
    destruct (_ !== _); [done|]. destruct (isDigit _); [done|].
    injection Hacc as <- _. (apply list_elem_of_In; simpl; auto).
  - apply string_accept_closing in Hacc as [-> _]. (apply list_elem_of_In; simpl; auto).
  - apply numberToken_facts in Hacc as [-> _]. (apply list_elem_of_In; simpl; auto).
Qed.

Lemma token_span (t : Tokenizer) (input : InputStream) (stack : Stack)
  (term : Term) (tokenEnd : nat) :
  token t input stack = Accept term tokenEnd ->
  (t = TIndentation /\ term = Dedent /\ tokenEnd = pos input
   /\ (0 < context stack)%Z)
  \/ (term <> Dedent /\ pos input < tokenEnd <= length (chunk input)).
Proof.
  intros Hacc. pose proof (token_kind _ _ _ _ _ Hacc) as Hkind.
  destruct t; simpl in Hacc, Hkind.
  - apply indentation_facts in Hacc
      as [(-> & -> & ? & _)|([-> | ->] & ? & _)]; auto.
  - right. split; [intros ->; by repeat (apply elem_of_cons in Hkind as [|Hkind];
                                         [done|]); apply elem_of_nil in Hkind|].
    apply multiline_accept_facts in Hacc
      as (_ & _ & at_ & len & _ & (Hc & Hpos & _) & Hend).
    simpl in Hc, Hpos.
    destruct Hend as [[_ ->]|(_ & _ & _ & _ & -> & ?)]; lia.
  - right. split; [intros ->; by repeat (apply elem_of_cons in Hkind as [|Hkind];
                                         [done|]); apply elem_of_nil in Hkind|].
    destruct (isAlpha (peek input 0)) eqn:Ha.
    2:{ unfold keyToken in Hacc. by rewrite Ha in Hacc. }
    destruct (keyEnd_facts input Ha) as (? & ? & _).
    rewrite keyToken_reserved in Hacc by done.
    destruct (bool_decide _); [done|]. injection Hacc as _ <-. lia.
  - right. split; [intros ->; by repeat (apply elem_of_cons in Hkind as [|Hkind];
                                         [done|]); apply elem_of_nil in Hkind|].
    unfold listMarkToken, acceptToken in Hacc.
    destruct (Z.eqb_spec (peek input 0) DASH) as [Hd|]; [|done].
    destruct (isDigit _); [done|]. injection Hacc as _ <-.
    assert (peek input 0 <> EOF) as Hin by (by rewrite Hd).
    apply peek_inside in Hin. lia.
  - right. split; [intros ->; by repeat (apply elem_of_cons in Hkind as [|Hkind];
                                         [done|]); apply elem_of_nil in Hkind|].
    apply string_accept_closing in Hacc as (_ & q & -> & ? & Hq & _).
    assert (peek input q <> EOF) as Hin by (by rewrite Hq).
    apply peek_inside in Hin. lia.
  - right. split; [intros ->; by repeat (apply elem_of_cons in Hkind as [|Hkind];
                                         [done|]); apply elem_of_nil in Hkind|].
    apply numberToken_facts in Hacc as (_ & _ & n & -> & ? & ? & _). lia.
Qed.

(** X1: a token accepted at a position inside the document never reaches
    beyond the end of the document, so [acceptToken] is never asked for a
    span outside it. *)
Theorem token_span_inside (t : Tokenizer) (input : InputStream)
  (stack : Stack) (term : Term) (tokenEnd : nat) :
  pos input <= length (chunk input) ->
  token t input stack = Accept term tokenEnd ->
  pos input <= tokenEnd <= length (chunk input).
Proof.
  intros Hpos Hacc.
  apply token_span in Hacc as [(_ & _ & -> & _)|[_ ?]]; lia.
Qed.

Lemma token_span_inside_witness :
  pos (mkInput (codes "n: -0x1F,") 3) <= length (codes "n: -0x1F,")
  /\ token TNumberToken (mkInput (codes "n: -0x1F,") 3) (atContext 0)
     = Accept NumberToken 8
  /\ 3 <= 8 <= length (codes "n: -0x1F,").
Proof.
  assert (pos (mkInput (codes "n: -0x1F,") 3) <= length (codes "n: -0x1F,"))
    as Hpos by (simpl; lia).
  split; [exact Hpos|]. split; [reflexivity|].
  exact (token_span_inside TNumberToken (mkInput (codes "n: -0x1F,") 3)
           (atContext 0) NumberToken 8 Hpos eq_refl).
Defined.

(** X2: every accepted token consumes at least one character, except the
    Dedent of the indentation tokenizer, which consumes none and is only
    accepted while the context is positive. *)
Theorem token_progress (t : Tokenizer) (input : InputStream)
  (stack : Stack) (term : Term) (tokenEnd : nat) :
  token t input stack = Accept term tokenEnd ->
  (term = Dedent /\ t = TIndentation /\ tokenEnd = pos input
   /\ (0 < context stack)%Z)
  \/ (term <> Dedent /\ pos input < tokenEnd).
Proof.
  intros Hacc. apply token_span in Hacc as [(? & ? & ? & ?)|[? ?]]; [by left|].
  right. split; [done|lia].
Qed.

Lemma token_progress_witness :
  token TIndentation (mkInput (codes "a:: 1") 5) (atContext 2)
  = Accept Dedent 5
  /\ (0 < context (atContext 2))%Z.
Proof.
  split; [reflexivity|].
  destruct (token_progress TIndentation (mkInput (codes "a:: 1") 5)
              (atContext 2) Dedent 5 eq_refl) as [(_ & _ & _ & H)|[H _]];
    [exact H|by destruct H].
Defined.

(** X3: each tokenizer accepts only its own terminals; in particular an
    Indent or a Dedent can only come from the indentation tokenizer. *)
Theorem tokenizer_terminals (t : Tokenizer) (input : InputStream)
  (stack : Stack) (term : Term) (tokenEnd : nat) :
  token t input stack = Accept term tokenEnd ->
  term ∈ tokenizerTerms t
  /\ (term = Indent \/ term = Dedent -> t = TIndentation).
Proof.
  intros Hacc. apply token_kind in Hacc as Hkind. split; [done|].
  destruct t; [done|..]; simpl in Hkind; intros [-> | ->];
    repeat (apply elem_of_cons in Hkind as [|Hkind]; [done|]);
    by apply elem_of_nil in Hkind.
Qed.

Lemma tokenizer_terminals_witness :
  token TMultilineStrings (document twoFences) (atContext 2)
  = Accept BlockString 12
  /\ BlockString ∈ tokenizerTerms TMultilineStrings.
Proof.
  split; [reflexivity|].
  exact (proj1 (tokenizer_terminals TMultilineStrings (document twoFences)
                  (atContext 2) BlockString 12 eq_refl)).
Defined.

Ltac char_classes :=
  unfold startsToken, isAlpha, isDigit, isTerminator in *;
  repeat match goal with
         | H : _ /\ _ |- _ => destruct H
         | H : _ \/ _ |- _ => destruct H
         | H : _ && _ = true |- _ => apply andb_true_iff in H
         | H : _ || _ = true |- _ => apply orb_true_iff in H
         | H : (_ <=? _)%Z = true |- _ => apply Z.leb_le in H
         | H : (_ === _) = true |- _ => apply Z.eqb_eq in H
         end;
  unfold EOF, NEWLINE, CR, QUOTE, BACKTICK, DASH, PLUS, UNDERSCORE, LOWER_A,
    LOWER_Z, UPPER_A, UPPER_Z, DIGIT_0, DIGIT_9 in *;
  try congruence; try lia.

(** X5: at one position at most one tokenizer accepts, with one exception:
    the string tokenizer and the multiline string tokenizer can both accept
    at a quote. *)
Theorem tokenizers_exclusive (t1 t2 : Tokenizer) (input : InputStream)
  (stack : Stack) (term1 term2 : Term) (end1 end2 : nat) :
  token t1 input stack = Accept term1 end1 ->
  token t2 input stack = Accept term2 end2 ->
  t1 = t2
  \/ (t1 = TStringToken /\ t2 = TMultilineStrings)
  \/ (t1 = TMultilineStrings /\ t2 = TStringToken).
Proof.
  intros H1 H2. apply token_starts in H1, H2.
  destruct t1, t2; auto; exfalso; char_classes.
Qed.

Lemma tokenizers_exclusive_witness :
  token TListMarkToken (document (codes "- 1")) (atContext 0)
  = Accept ListMark 1
  /\ forall t term tokenEnd,
      token t (document (codes "- 1")) (atContext 0) = Accept term tokenEnd ->
      t = TListMarkToken.
Proof.
  split; [reflexivity|]. intros t term tokenEnd Ht.
  destruct (tokenizers_exclusive t TListMarkToken (document (codes "- 1"))
              (atContext 0) term ListMark tokenEnd 1 Ht eq_refl)
    as [?|[[_ ?]|[_ ?]]]; done.
Defined.

(** X6: wherever a block of three quotes opens, the string tokenizer
    accepts the first two quotes as an empty string; the parser, not the
    tokenizers, has to choose between the two. *)
Theorem block_opening_is_empty_string (input : InputStream) :
  opensBlock input = true -> peek input 0 = QUOTE ->
  stringToken input = Accept StringToken (pos input + 2).
Proof.
  intros Ho Hq. unfold opensBlock in Ho.
  apply andb_true_iff in Ho as [Ho _]. apply andb_true_iff in Ho as [Ho _].
  apply andb_true_iff in Ho as [_ H1]. apply Z.eqb_eq in H1.
  destruct (stringToken_quoted input Hq) as [-> Hsome].
  rewrite (while_reaches _ _ 1 1 (Accept StringToken (pos input + 2))
             (iterates_here _ _)); [done| |done].
  rewrite stringBody_quote by congruence. simpl. by rewrite Hq.
Qed.

Lemma block_opening_is_empty_string_witness :
  opensBlock (document twoFences) = true
  /\ stringToken (document twoFences) = Accept StringToken 2
  /\ multilineStrings (document twoFences) (atContext 2)
     = Accept BlockString 12.
Proof.
  split; [reflexivity|]. split; [|reflexivity].
  exact (block_opening_is_empty_string (document twoFences) eq_refl eq_refl).
Defined.

(** ** Runs of the tokenizers *)

Lemma firstAccepted_Some (ts : list Tokenizer) (input : InputStream)
  (stack : Stack) (tok : Token) :
  firstAccepted ts input stack = Some tok ->
  exists t, t ∈ ts /\ tokenFrom tok = pos input
    /\ token t input stack = Accept (kind tok) (tokenTo tok).
Proof.
  induction ts as [|t ts IH]; simpl; [done|].
  destruct (token t input stack) as [term tokenEnd| |] eqn:E.
  - intros [= <-]. exists t. simpl. repeat split; [|done]. by left.
  - intros H. destruct (IH H) as (t' & ? & ?). exists t'. split; [by right|done].
  - intros H. destruct (IH H) as (t' & ? & ?). exists t'. split; [by right|done].
Qed.

(** X7: whatever tokenizers the parser asks in each state and whatever
    states it goes to, tokenizing from a position inside the document comes
    to an end: a token either moves forward in the document or is a Dedent
    that lowers a positive context. *)
Theorem tokenizing_terminates (tokenizers : nat -> list Tokenizer)
  (goto : nat -> Term -> nat) (text : list Z) (at_ : nat) (stack : Stack) :
  at_ <= length text ->
  exists toks, tokenizes tokenizers goto text at_ stack toks.
Proof.
  enough (forall n c at_ stack,
             length text - at_ <= n -> Z.to_nat (context stack) <= c ->
             at_ <= length text ->
             exists toks, tokenizes tokenizers goto text at_ stack toks) as H.
  { intros Hle. by eapply H. }
  clear at_ stack.
  induction n as [n IHn] using lt_wf_ind.
  induction c as [c IHc] using lt_wf_ind.
  intros at_ stack Hn Hc Hle.
  destruct (firstAccepted (tokenizers (state stack)) (mkInput text at_) stack)
    as [tok|] eqn:E.
  2:{ exists []. by apply tokenizes_stop. }
  destruct (firstAccepted_Some _ _ _ _ E) as (t & _ & _ & Hacc).
  apply token_span in Hacc as [(_ & Hk & Hend & Hpos)|[_ Hend]]; simpl in Hend.
  - assert (Z.to_nat (context (shiftToken goto stack tok)) < c) as Hlt.
    { unfold shiftToken. simpl. rewrite Hk.
      change (trackIndent.shift (context stack) Dedent)
        with (context stack - 2)%Z. lia. }
    destruct (IHc _ Hlt at_ (shiftToken goto stack tok) Hn (Nat.le_refl _) Hle)
      as [toks Htoks].
    exists (tok :: toks). eapply tokenizes_token; [exact E|].
    by rewrite Hend.
  - assert (length text - tokenTo tok < n) as Hlt by lia.
    destruct (IHn _ Hlt _ (tokenTo tok) (shiftToken goto stack tok)
                (Nat.le_refl _) (Nat.le_refl _) ltac:(lia))
      as [toks Htoks].
    exists (tok :: toks). by eapply tokenizes_token.
Qed.

Lemma tokenizing_terminates_witness :
  3 <= length (codes "a::" ++ (NEWLINE :: SPACE :: SPACE :: codes "b"))
  /\ exists toks,
      tokenizes allTokenizers (fun st _ => st)
        (codes "a::" ++ (NEWLINE :: SPACE :: SPACE :: codes "b")) 3 (atContext 0) toks.
Proof.
  assert (3 <= length (codes "a::" ++ (NEWLINE :: SPACE :: SPACE :: codes "b"))) as Hle
    by (simpl; lia).
  split; [exact Hle|].
  exact (tokenizing_terminates allTokenizers (fun st _ => st) _ 3
           (atContext 0) Hle).
Defined.

Lemma indentation_line (input : InputStream) (stack : Stack) :
  isTerminator (peek input 0) = true -> blankLine input = false ->
  indentation input stack
  = if (context stack <? Z.of_nat (leadingWhitespace input))%Z then
      Accept Indent (pos input + 1 + leadingWhitespace input)
    else if (Z.of_nat (leadingWhitespace input) <? context stack)%Z then
      Accept Dedent (pos input)
    else Accept Newline (pos input + 1 + leadingWhitespace input).
Proof.
  intros Ht Hblank. rewrite indentation_terminator by done. cbv zeta.
  unfold blankLine in Hblank. rewrite Ht in Hblank. cbn [andb] in Hblank.
  rewrite Hblank.
  repeat match goal with |- context [if ?b then _ else _] => destruct b end;
    f_equal; lia.
Qed.

Lemma indentation_at_end (input : InputStream) (stack : Stack) :
  peek input 0 = EOF ->
  indentation input stack
  = if (0 <? context stack)%Z then Accept Dedent (pos input) else Decline.
Proof.
  intros He. unfold indentation, acceptToken. rewrite He. simpl.
  destruct (0 <? context stack)%Z; [f_equal; lia|done].
Qed.

(** X9: on a line that is not blank and is indented by [s] columns, the
    indentation tokenizer alone, started at the line terminator with a
    context of [s + 2 d] (or one less), produces [d] Dedents of width zero
    and then one token over the terminator and the indentation: a Newline
    when the context has come down to [s] exactly, an Indent when it has
    come down to [s - 1]; after that it declines on the line. *)
Theorem dedent_run_on_line (goto : nat -> Term -> nat) (text : list Z)
  (at_ d : nat) (odd : bool) (st : nat) :
  isTerminator (peek (mkInput text at_) 0) = true ->
  blankLine (mkInput text at_) = false ->
  tokenizes onlyIndentation goto text at_
    (mkStack st (Z.of_nat (leadingWhitespace (mkInput text at_))
                 + 2 * Z.of_nat d - (if odd then 1 else 0))%Z)
    (replicate d (mkToken Dedent at_ at_)
     ++ [mkToken (if odd then Indent else Newline) at_
           (at_ + 1 + leadingWhitespace (mkInput text at_))]).
Proof.
  intros Ht Hblank. set (s := leadingWhitespace (mkInput text at_)).
  enough (forall st c,
             c = (Z.of_nat s + 2 * Z.of_nat d - (if odd then 1 else 0))%Z ->
             tokenizes onlyIndentation goto text at_ (mkStack st c)
               (replicate d (mkToken Dedent at_ at_)
                ++ [mkToken (if odd then Indent else Newline) at_
                      (at_ + 1 + s)])) as H by (by apply H).
  clear st. induction d as [|d IH]; intros st c Hc.
  - simpl replicate. simpl app.
    eapply tokenizes_token.
    + simpl. rewrite indentation_line by done. fold s. simpl context.
      destruct (Z.ltb_spec c (Z.of_nat s)); [by destruct odd; [|lia]|].
      destruct (Z.ltb_spec (Z.of_nat s) c); [destruct odd; lia|].
      destruct odd; [lia|done].
    + apply tokenizes_stop. simpl.
      unfold blankLine in Hblank. rewrite Ht in Hblank. cbn [andb] in Hblank.
      apply orb_false_iff in Hblank as [Hb He]. apply Z.eqb_neq in He.
      fold s in Hb, He.
      assert (peek (mkInput text (at_ + 1 + s)) 0
              = peek (mkInput text at_) (1 + s)) as Hp.
      { unfold peek. simpl. do 2 f_equal. lia. }
      rewrite indentation_elsewhere; [done| |]; by rewrite Hp.
  - simpl replicate. simpl app.
    eapply tokenizes_token.
    + simpl. rewrite indentation_line by done. fold s. simpl context.
      destruct (Z.ltb_spec c (Z.of_nat s)); [destruct odd; lia|].
      destruct (Z.ltb_spec (Z.of_nat s) c); [reflexivity|destruct odd; lia].
    + simpl tokenTo. unfold shiftToken. simpl.
      change (trackIndent.shift c Dedent) with (c - 2)%Z.
      apply IH. destruct odd; lia.
Qed.

Lemma dedent_run_on_line_witness :
  isTerminator (peek (mkInput (codes "x" ++ NEWLINE :: codes "  y: 1") 1) 0)
  = true
  /\ blankLine (mkInput (codes "x" ++ NEWLINE :: codes "  y: 1") 1) = false
  /\ tokenizes onlyIndentation (fun st _ => st)
       (codes "x" ++ NEWLINE :: codes "  y: 1") 1 (atContext 6)
       [mkToken Dedent 1 1; mkToken Dedent 1 1; mkToken Newline 1 4].
Proof.
  split; [reflexivity|]. split; [reflexivity|].
  exact (dedent_run_on_line (fun st _ => st)
           (codes "x" ++ NEWLINE :: codes "  y: 1") 1 2 false 0
           eq_refl eq_refl).
Defined.

(** X10: at the end of the document the indentation tokenizer alone, with a
    context of [2 d] (or one less), produces exactly [d] Dedents of width
    zero and then declines. *)
Theorem dedent_run_at_end (goto : nat -> Term -> nat) (text : list Z)
  (at_ d : nat) (odd : bool) (st : nat) :
  peek (mkInput text at_) 0 = EOF ->
  tokenizes onlyIndentation goto text at_
    (mkStack st (2 * Z.of_nat d - (if odd then 1 else 0))%Z)
    (replicate d (mkToken Dedent at_ at_)).
Proof.
  intros He.
  enough (forall st c, c = (2 * Z.of_nat d - (if odd then 1 else 0))%Z ->
             tokenizes onlyIndentation goto text at_ (mkStack st c)
               (replicate d (mkToken Dedent at_ at_))) as H by (by apply H).
  clear st. induction d as [|d IH]; intros st c Hc.
  - apply tokenizes_stop. simpl. rewrite indentation_at_end by done.
    simpl context.
    destruct (Z.ltb_spec 0 c); [destruct odd; lia|done].
  - simpl replicate. eapply tokenizes_token.
    + simpl. rewrite indentation_at_end by done. simpl context.
      destruct (Z.ltb_spec 0 c); [reflexivity|destruct odd; lia].
    + simpl tokenTo. unfold shiftToken. simpl.
      change (trackIndent.shift c Dedent) with (c - 2)%Z.
      apply IH. destruct odd; lia.
Qed.

Lemma dedent_run_at_end_witness :
  peek (mkInput (codes "a::" ++ NEWLINE :: codes "  b: 1") 10) 0 = EOF
  /\ tokenizes onlyIndentation (fun st _ => st)
       (codes "a::" ++ NEWLINE :: codes "  b: 1") 10 (atContext 4)
       [mkToken Dedent 10 10; mkToken Dedent 10 10].
Proof.
  split; [reflexivity|].
  exact (dedent_run_at_end (fun st _ => st)
           (codes "a::" ++ NEWLINE :: codes "  b: 1") 10 2 false 0 eq_refl).
Defined.

(** ** stringToken: strings are single-line *)

Lemma simpleEscape_plain (c : Z) :
  includes simpleEscapes c = true -> isTerminator c = false /\ c <> EOF.
Proof.
  unfold includes, simpleEscapes. simpl. intros H.
  repeat (apply orb_true_iff in H as [H|H]; [apply Z.eqb_eq in H; by subst|]).
  done.
Qed.

Lemma isHex_plain (c : Z) :
  isHex c = true -> isTerminator c = false /\ c <> EOF.
Proof.
  unfold isHex, isDigit, isTerminator. intros H. split.
  - destruct (Z.eqb_spec c NEWLINE) as [->|]; [done|].
    by destruct (Z.eqb_spec c CR) as [->|].
  - by intros ->.
Qed.

Lemma stringBody_clean (input : InputStream) (p p' : nat) :
  stringBody input p = inl p' ->
  forall i, p <= i < p' ->
            isTerminator (peek input i) = false /\ peek input i <> EOF.
Proof.
  unfold stringBody. intros Hb.
  destruct (Z.eqb_spec (peek input p) EOF) as [|He]; [done|].
  destruct (isTerminator (peek input p)) eqn:Ht;
    unfold isTerminator in Ht; rewrite Ht in Hb; [done|].
  fold (isTerminator (peek input p)) in Ht.
  destruct (_ && _); [done|].
  destruct (peek input p === BACKSLASH).
  2:{ injection Hb as <-. intros i Hi. by replace i with p by lia. }
  destruct (Z.eqb_spec (peek input (p + 1)) EOF) as [|He1]; [done|].
  destruct (Z.eqb_spec (peek input (p + 1)) LOWER_U) as [Hu|Hu].
  - destruct (forallb _ _) eqn:Hall; [|done]. injection Hb as <-.
    rewrite forallb_forall in Hall. intros i Hi.
    destruct (decide (i = p)) as [->|]; [done|].
    destruct (decide (i = p + 1)) as [->|]; [by rewrite Hu|].
    apply isHex_plain. replace i with (p + 2 + (i - (p + 2))) by lia.
    apply Hall, in_seq. lia.
  - destruct (includes simpleEscapes (peek input (p + 1))) eqn:Hs; [|done].
    injection Hb as <-. intros i Hi.
    destruct (decide (i = p)) as [->|]; [done|].
    replace i with (p + 1) by lia. by apply simpleEscape_plain.
Qed.

(** X11: a token accepted by [stringToken] contains no line terminator:
    every character of its span is a character of the document other than
    line feed and carriage return. *)
Theorem string_is_single_line (input : InputStream) (term : Term)
  (tokenEnd : nat) :
  stringToken input = Accept term tokenEnd ->
  forall i, pos input + i < tokenEnd ->
            isTerminator (peek input i) = false /\ peek input i <> EOF.
Proof.
  intros Hacc.
  apply string_accept_closing in Hacc as (_ & q & -> & _ & Hq & _ & Hopen & Hit).
  assert (forall i, i < q ->
            isTerminator (peek input i) = false /\ peek input i <> EOF)
    as Hclean.
  { refine (iterates_invariant (stringBody input)
              (fun p => forall i, i < p ->
                 isTerminator (peek input i) = false /\ peek input i <> EOF)
              _ 1 q Hit _).
    - intros p p' Hp Hb i Hi.
      destruct (decide (i < p)) as [|Hge]; [by apply Hp|].
      apply (stringBody_clean input p p' Hb). lia.
    - intros i Hi. replace i with 0 by lia. by rewrite Hopen. }
  intros i Hi. destruct (decide (i = q)) as [->|]; [by rewrite Hq|].
  apply Hclean. lia.
Qed.

Lemma string_is_single_line_witness :
  stringToken (document (QUOTE :: codes "a\nb" ++ [QUOTE; NEWLINE]))
  = Accept StringToken 6
  /\ forall i, i < 6 ->
       isTerminator
         (peek (document (QUOTE :: codes "a\nb" ++ [QUOTE; NEWLINE])) i)
       = false.
Proof.
  split; [reflexivity|]. intros i Hi.
  exact (proj1 (string_is_single_line
                  (document (QUOTE :: codes "a\nb" ++ [QUOTE; NEWLINE]))
                  StringToken 6 eq_refl i Hi)).
Defined.

(** ** numberToken: where a number ends, and the based modes *)

(** X12: an accepted number starts, behind its optional sign, with a
    decimal digit, and the character that follows the token is never a
    decimal digit: the tokenizer does not cut a number inside a run of
    digits. *)
Theorem number_ends_at_non_digit (input : InputStream) (term : Term)
  (tokenEnd : nat) :
  numberToken input = Accept term tokenEnd ->
  term = NumberToken
  /\ isDigit (peek input (signWidth input)) = true
  /\ exists n, tokenEnd = pos input + n /\ signWidth input < n
       /\ isDigit (peek input n) = false.
Proof.
  intros Hacc.
  apply numberToken_facts in Hacc as (-> & Hd & n & -> & Hlt & _ & Hx).
  split; [done|]. split; [done|]. by exists n.
Qed.

Lemma number_ends_at_non_digit_witness :
  numberToken (document (codes "0b1012")) = Decline
  /\ numberToken (document (codes "1.5.3")) = Accept NumberToken 3
  /\ isDigit (peek (document (codes "1.5.3")) 3) = false.
Proof.
  split; [reflexivity|]. split; [reflexivity|].
  destruct (number_ends_at_non_digit (document (codes "1.5.3")) NumberToken 3
              eq_refl) as (_ & _ & n & Hn & _ & Hx).
  simpl in Hn. by subst n.
Defined.

Lemma span_Exists (P : Z -> Prop) (input : InputStream) (a b i : nat) :
  a <= i < b -> pos input + i < length (chunk input) -> P (peek input i) ->
  Exists P (span input a b).
Proof.
  intros Hi Hin HP. apply Exists_exists. exists (peek input i). split; [|done].
  apply list_elem_of_lookup. exists (i - a). unfold span.
  rewrite lookup_take_lt by lia. rewrite lookup_drop. unfold peek.
  replace (pos input + a + (i - a)) with (pos input + i) by lia.
  destruct (chunk input !! (pos input + i)) eqn:E; [done|].
  apply lookup_ge_None in E. lia.
Qed.

Lemma based_accept_shape (valid : Z -> bool) (input : InputStream)
  (p : nat) (term : Term) (tokenEnd : nat) :
  valid EOF = false ->
  run (while (fuelFor input) (basedBody valid input) (p, false))
  = Accept term tokenEnd ->
  exists n, tokenEnd = pos input + n /\ p <= n
    /\ Forall (fun c => valid c || (c === UNDERSCORE) = true) (span input p n)
    /\ Exists (fun c => valid c = true) (span input p n).
Proof.
  intros Hv Hacc. apply run_accept, while_last in Hacc as ([q seen] & Hit & Hb).
  set (Inv := fun s : nat * bool =>
                p <= s.1
                /\ (forall i, p <= i < s.1 ->
                      valid (peek input i) || (peek input i === UNDERSCORE)
                      = true)
                /\ (s.2 = true ->
                    exists i, p <= i < s.1 /\ valid (peek input i) = true)).
  assert (Inv (q, seen)) as (Hle & Hall & Hseen).
  { refine (iterates_invariant (basedBody valid input) Inv _ _ _ Hit _).
    - intros [q1 seen1] s' (Hle1 & Hall1 & Hseen1) Hb1.
      unfold basedBody in Hb1. unfold Inv. simpl in *.
      destruct (valid (peek input q1)) eqn:Hq.
      + injection Hb1 as <-. simpl. split; [lia|]. split.
        * intros i Hi. destruct (decide (i = q1)) as [->|]; [by rewrite Hq|].
          apply Hall1. lia.
        * intros _. exists q1. split; [lia|done].
      + destruct (peek input q1 === UNDERSCORE) eqn:Hus.
        * injection Hb1 as <-. simpl. split; [lia|]. split.
          -- intros i Hi.
             destruct (decide (i = q1)) as [->|]; [by rewrite Hq, Hus|].
             apply Hall1. lia.
          -- intros Hs. destruct (Hseen1 Hs) as (i & ? & ?). exists i.
             split; [lia|done].
        * by destruct (isDigit (peek input q1)).
    - unfold Inv. simpl. split; [lia|]. split; [intros i Hi; lia|done]. }
  simpl in Hle, Hall, Hseen.
  unfold basedBody, acceptToken in Hb.
  destruct (valid (peek input q)); [done|].
  destruct (peek input q === UNDERSCORE); [done|].
  destruct (isDigit (peek input q)); [done|].
  destruct seen; [|done]. injection Hb as <- <-.
  exists q. split; [done|]. split; [done|]. split.
  - by apply span_Forall.
  - destruct (Hseen eq_refl) as (i & Hi & Hvi).
    apply (span_Exists _ input p q i Hi); [|done].
    apply peek_inside. intros E. by rewrite E, Hv in Hvi.
Qed.

(** X13: a token accepted in the hexadecimal, octal or binary mode spans an
    optional sign, the digit [0], the base letter, and then digits of the
    base and underscores in any order: the hexadecimal run starts with a
    hex digit, the octal and binary runs hold at least one digit of the
    base, and an underscore may stand anywhere else, also last. *)
Theorem based_number_shape (input : InputStream) (term : Term)
  (tokenEnd : nat) :
  decimalMode input = false ->
  numberToken input = Accept term tokenEnd ->
  exists n, tokenEnd = pos input + n /\ basedNumber (span input 0 n).
Proof.
  intros Hmode Hacc.
  pose proof (numberToken_facts _ _ _ Hacc) as (_ & Hd & _).
  rewrite numberToken_signed in Hacc. cbv zeta in Hacc.
  unfold decimalMode in Hmode. cbv zeta in Hmode.
  apply negb_false_iff, andb_true_iff in Hmode as [H0 Hletter].
  set (p := signWidth input) in *.
  rewrite Hd, H0 in Hacc. cbn [negb andb] in Hacc.
  apply Z.eqb_eq in H0.
  pose proof (peek_inside _ _ (isDigit_not_EOF _ Hd)) as Hin0.
  assert (pos input + (p + 1) < length (chunk input)) as Hin1.
  { apply peek_inside. intros E. by rewrite E in Hletter. }
  assert (forall n, p + 2 <= n ->
            span input 0 n
            = span input 0 p ++ DIGIT_0 :: peek input (p + 1)
                :: span input (p + 2) n) as Hsplit.
  { intros n Hn.
    rewrite (span_split input 0 p n), (span_split input p (S p) n),
      (span_split input (S p) (S (S p)) n) by lia.
    rewrite !span_one_inside by lia. rewrite H0.
    replace (S p) with (p + 1) by lia. by replace (S (p + 1)) with (p + 2) by lia. }
  destruct ((peek input (p + 1) === LOWER_X) || (peek input (p + 1) === UPPER_X))
    eqn:Hx.
  { destruct (isHex (peek input (p + 2))) eqn:Hh; [|done]. cbn [negb] in Hacc.
    injection Hacc as _ <-.
    destruct (scan_run input (isHexOrUnderscore input) (p + 2)) as [Hle Hrun].
    set (n := loopWhile (fuelFor input) (isHexOrUnderscore input) S (p + 2))
      in *.
    pose proof (peek_inside _ _ (isHex_not_EOF _ Hh)) as Hin2.
    assert (p + 2 < n) as Hlt.
    { destruct (decide (n = p + 2)) as [E|]; [|lia].
      pose proof (hex_scan_exit input (p + 2)) as Hexit. fold n in Hexit.
      rewrite E in Hexit. unfold isHexOrUnderscore in Hexit.
      by rewrite Hh in Hexit. }
    exists n. split; [done|].
    exists (span input 0 p), (peek input (p + 1)), (span input (p + 2) n).
    split; [by apply Hsplit|]. split; [apply sign_span|]. left.
    split; [by apply orb_true_iff in Hx as [?%Z.eqb_eq|?%Z.eqb_eq]; auto|].
    split; [apply span_Forall; intros i Hi; by apply Hrun|].
    exists (peek input (p + 2)), (span input (S (p + 2)) n). split; [|done].
    rewrite (span_split input (p + 2) (S (p + 2)) n) by lia.
    by rewrite span_one_inside by lia. }
  destruct ((peek input (p + 1) === LOWER_O) || (peek input (p + 1) === UPPER_O))
    eqn:Ho.
  { apply based_accept_shape in Hacc as (n & -> & Hle & Hall & Hex); [|done].
    exists n. split; [done|].
    exists (span input 0 p), (peek input (p + 1)), (span input (p + 2) n).
    split; [by apply Hsplit|]. split; [apply sign_span|]. right. left.
    split; [by apply orb_true_iff in Ho as [?%Z.eqb_eq|?%Z.eqb_eq]; auto|].
    done. }
  destruct ((peek input (p + 1) === LOWER_B) || (peek input (p + 1) === UPPER_B))
    eqn:Hb.
  { apply based_accept_shape in Hacc as (n & -> & Hle & Hall & Hex); [|done].
    exists n. split; [done|].
    exists (span input 0 p), (peek input (p + 1)), (span input (p + 2) n).
    split; [by apply Hsplit|]. split; [apply sign_span|]. right. right.
    split; [by apply orb_true_iff in Hb as [?%Z.eqb_eq|?%Z.eqb_eq]; auto|].
    done. }
  exfalso. clear -Hletter Hx Ho Hb.
  apply orb_false_iff in Hx as [? ?]. apply orb_false_iff in Ho as [? ?].
  apply orb_false_iff in Hb as [? ?].
  repeat (apply orb_true_iff in Hletter as [Hletter|Hletter]); congruence.
Qed.

Lemma based_number_shape_witness :
  decimalMode (document (codes "-0o_7_ ")) = false
  /\ numberToken (document (codes "-0o_7_ ")) = Accept NumberToken 6
  /\ exists n, 6 = 0 + n /\ basedNumber (span (document (codes "-0o_7_ ")) 0 n).
Proof.
  split; [reflexivity|]. split; [reflexivity|].
  exact (based_number_shape (document (codes "-0o_7_ ")) NumberToken 6
           eq_refl eq_refl).
Defined.

(** ** indentation: blank lines and CRLF *)

Lemma leadingWhitespace_none (input : InputStream) :
  isIndentChar (peek input 1) = false -> leadingWhitespace input = 0.
Proof.
  intros H. unfold leadingWhitespace. rewrite peek_drop.
  unfold peek in H.
  destruct (chunk input !! (pos input + 1)) as [c|]; simpl in *; [|done].
  by rewrite H.
Qed.

(** X14: a line terminator followed by a blank line (only spaces and tabs
    up to the next terminator or the end of the document) is accepted as a
    Newline over that one terminator, whatever the context, and the
    whitespace is left in place; the carriage return of a CR LF pair is
    such a terminator, so a CR LF line break always gives a Newline for the
    carriage return before the line feed is looked at. *)
Theorem blank_line_newline (input : InputStream) (stack : Stack) :
  (blankLine input = true ->
   indentation input stack = Accept Newline (pos input + 1))
  /\ (peek input 0 = CR -> peek input 1 = NEWLINE ->
      indentation input stack = Accept Newline (pos input + 1)).
Proof.
  assert (blankLine input = true ->
          indentation input stack = Accept Newline (pos input + 1)) as Hblank.
  { unfold blankLine. intros H. apply andb_true_iff in H as [Ht Hb].
    rewrite indentation_terminator by done. cbv zeta. by rewrite Hb. }
  split; [done|]. intros Hcr Hlf. apply Hblank. unfold blankLine.
  rewrite Hcr. rewrite leadingWhitespace_none by (by rewrite Hlf).
  simpl. by rewrite Hlf.
Qed.

Lemma blank_line_newline_witness :
  blankLine (document (CR :: NEWLINE :: codes "  b: 1")) = true
  /\ indentation (document (CR :: NEWLINE :: codes "  b: 1")) (atContext 2)
     = Accept Newline 1
  /\ indentation (mkInput (CR :: NEWLINE :: codes "  b: 1") 1) (atContext 2)
     = Accept Newline 4.
Proof.
  split; [reflexivity|]. split; [|reflexivity].
  exact (proj2 (blank_line_newline (document (CR :: NEWLINE :: codes "  b: 1"))
                  (atContext 2)) eq_refl eq_refl).
Defined.

(** * Syntax trees: the validator and the test helpers *)

Lemma SyntaxNode_induction (P : SyntaxNode -> Prop) :
  (forall n f t cs, Forall P cs -> P (Node n f t cs)) ->
  forall node, P node.
Proof.
  intros H. fix IH 1. intros [n f t cs]. apply H.
  induction cs as [|c cs IHcs]; constructor; [apply IH|apply IHcs].
Qed.

Lemma nodes_children (n : list Z) (f t : nat) (cs : list SyntaxNode) :
  nodes (Node n f t cs) = Node n f t cs :: concat (map nodes cs).
Proof.
  simpl. f_equal. induction cs as [|c cs IH]; simpl; [done|]. by rewrite IH.
Qed.

Lemma iterate_children {A : Type} (enter : SyntaxNode -> A -> A * bool)
  (n : list Z) (f t : nat) (cs : list SyntaxNode) (acc : A) :
  iterate enter (Node n f t cs) acc
  = if (enter (Node n f t cs) acc).2
    then fold_left (fun a c => iterate enter c a) cs
           (enter (Node n f t cs) acc).1
    else (enter (Node n f t cs) acc).1.
Proof.
  simpl. destruct (enter (Node n f t cs) acc) as [acc' descend]. simpl.
  destruct descend; [|done]. revert acc'.
  induction cs as [|c cs IH]; intros acc'; simpl; [done|]. apply IH.
Qed.

(** A callback that never answers [false] sees every node of the tree. *)
Lemma iterate_all {A : Type} (enter : SyntaxNode -> A -> A * bool)
  (node : SyntaxNode) (acc : A) :
  (forall n a, (enter n a).2 = true) ->
  iterate enter node acc
  = fold_left (fun a n => (enter n a).1) (nodes node) acc.
Proof.
  intros Hall. revert acc.
  induction node as [n f t cs IH] using SyntaxNode_induction. intros acc.
  rewrite iterate_children, Hall, nodes_children. simpl.
  generalize ((enter (Node n f t cs) acc).1). clear acc.
  induction IH as [|c cs Hc _ IHcs]; intros acc; simpl; [done|].
  by rewrite fold_left_app, Hc, IHcs.
Qed.

(** ** validateTree *)

Lemma checkChild_cases (input : list Z) (seen : gset (list Z))
  (errors : list (list Z)) (child : SyntaxNode) :
  (pairKey input child = None
   /\ checkChild input (seen, errors) child = (seen, errors))
  \/ exists k,
      pairKey input child = Some k
      /\ ((k ∈ seen
           /\ exists m, checkChild input (seen, errors) child
                        = (seen, errors ++ [m]))
          \/ ((k ∉ seen)
              /\ checkChild input (seen, errors) child
                 = ({[k]} ∪ seen, errors))).
Proof.
  unfold pairKey, checkChild.
  destruct (_ || _); [|by left].
  destruct (children child) as [|keyNode rest]; [by left|].
  destruct (_ || _); [|by left].
  right. eexists. split; [done|].
  destruct (bool_decide_reflect
              (slice input (nodeFrom keyNode) (nodeTo keyNode) ∈ seen));
    [left|right]; split; try done. by eexists.
Qed.

Lemma omap_cons_case {A B : Type} (f : A -> option B) (x : A) (l : list A) :
  omap f (x :: l)
  = match f x with Some y => y :: omap f l | None => omap f l end.
Proof. reflexivity. Qed.

Lemma checkChild_fold (input : list Z) (cs : list SyntaxNode)
  (seen : gset (list Z)) (errors : list (list Z)) :
  exists dups,
    fold_left (checkChild input) cs (seen, errors)
    = (seen ∪ list_to_set (omap (pairKey input) cs), errors ++ dups)
    /\ length dups + size (seen ∪ list_to_set (omap (pairKey input) cs))
       = size seen + length (omap (pairKey input) cs).
Proof.
  revert seen errors. induction cs as [|c cs IH]; intros seen errors.
  - exists []. simpl. rewrite app_nil_r, (right_id_L ∅ (∪)). split; [done|lia].
  - change (fold_left (checkChild input) (c :: cs) (seen, errors))
      with (fold_left (checkChild input) cs (checkChild input (seen, errors) c)).
    rewrite omap_cons_case.
    destruct (checkChild_cases input seen errors c)
      as [[Hk Hc]|(k & Hk & [[Hin [m Hc]]|[Hnot Hc]])]; rewrite Hk, Hc.
    + apply IH.
    + destruct (IH seen (errors ++ [m])) as (dups & -> & Hsize).
      exists (m :: dups).
      rewrite list_to_set_cons, (assoc_L (∪)), (comm_L (∪) seen {[k]}),
        (subseteq_union_1_L {[k]} seen) by (by apply singleton_subseteq_l).
      split; [by rewrite <- app_assoc|]. simpl. lia.
    + destruct (IH ({[k]} ∪ seen) errors) as (dups & -> & Hsize).
      exists dups.
      rewrite list_to_set_cons, (assoc_L (∪)), (comm_L (∪) seen {[k]}).
      split; [done|].
      rewrite (size_union {[k]} seen), size_singleton in Hsize
        by (by apply disjoint_singleton_l).
      simpl. lia.
Qed.

Lemma size_list_to_set_le (l : list (list Z)) :
  size (list_to_set l : gset (list Z)) <= length l.
Proof.
  induction l as [|x l IH].
  - rewrite list_to_set_nil, size_empty. simpl. lia.
  - rewrite list_to_set_cons. cbn [length].
    destruct (decide (x ∈ (list_to_set l : gset (list Z)))) as [Hin|Hnot].
    + rewrite (subseteq_union_1_L {[x]} (list_to_set l)); [lia|].
      by apply singleton_subseteq_l.
    + rewrite size_union, size_singleton; [lia|].
      by apply disjoint_singleton_l.
Qed.
Lemma NoDup_size (l : list (list Z)) :
  NoDup l <-> size (list_to_set l : gset (list Z)) = length l.
Proof.
  split; [apply size_list_to_set|].
  induction l as [|x l IH]; intros Hs; [constructor|].
  pose proof (size_list_to_set_le l) as Hle.
  rewrite list_to_set_cons in Hs. cbn [length] in Hs.
  destruct (decide (x ∈ (list_to_set l : gset (list Z)))) as [Hin|Hnot].
  - rewrite (subseteq_union_1_L {[x]} (list_to_set l)) in Hs; [lia|].
    by apply singleton_subseteq_l.
  - rewrite size_union, size_singleton in Hs by (by apply disjoint_singleton_l).
    constructor; [by rewrite <- (elem_of_list_to_set (C := gset (list Z)))|].
    apply IH. lia.
Qed.

(** The excess of a list of keys over its distinct keys. *)
Lemma dict_errors (input : list Z) (node : SyntaxNode)
  (errors : list (list Z)) :
  exists dups,
    (fold_left (checkChild input) (children node) (∅, errors)).2
    = errors ++ dups
    /\ length dups
       = length (dictKeys input node)
         - size (list_to_set (dictKeys input node) : gset (list Z)).
Proof.
  destruct (checkChild_fold input (children node) ∅ errors)
    as (dups & -> & Hsize).
  exists dups. split; [done|]. unfold dictKeys.
  rewrite (left_id_L ∅ (∪)) in Hsize. rewrite size_empty in Hsize. lia.
Qed.

Lemma validateTree_nodes (tree : SyntaxNode) (input : list Z) :
  validateTree tree input
  = fold_left
      (fun errors node =>
         if isDictNode node then
           (fold_left (checkChild input) (children node) (∅, errors)).2
         else errors)
      (nodes tree) [].
Proof. unfold validateTree. by rewrite iterate_all. Qed.

Lemma validate_fold (input : list Z) (ns : list SyntaxNode)
  (errors : list (list Z)) :
  length
    (fold_left
       (fun errors node =>
          if isDictNode node then
            (fold_left (checkChild input) (children node) (∅, errors)).2
          else errors)
       ns errors)
  = length errors + sum_list (map (duplicateCount input) ns).
Proof.
  revert errors. induction ns as [|n ns IH]; intros errors; simpl; [lia|].
  rewrite IH. unfold duplicateCount at 2.
  destruct (isDictNode n); [|lia].
  destruct (dict_errors input n errors) as (dups & -> & Hd).
  rewrite length_app. lia.
Qed.

Lemma duplicateCount_zero (input : list Z) (node : SyntaxNode) :
  duplicateCount input node = 0
  <-> (isDictNode node = true -> NoDup (dictKeys input node)).
Proof.
  unfold duplicateCount. destruct (isDictNode node); [|by split].
  pose proof (size_list_to_set_le (dictKeys input node)) as Hle.
  rewrite NoDup_size. split.
  - intros H _. lia.
  - intros H. rewrite (H eq_refl). lia.
Qed.

Lemma sum_list_zero (l : list nat) :
  sum_list l = 0 <-> Forall (fun n => n = 0) l.
Proof.
  induction l as [|n l IH]; simpl; [by split|].
  rewrite Forall_cons, <- IH. lia.
Qed.

(** X15: [validateTree] looks at the nodes named DictBlockContent,
    InlineDict, RootInlineDict, Document and Properties ([isDictNode]), and
    at no others.  The keys of such a node are the first children, when
    named Key or String, of its children named Property or DictPair.  It
    reports one error for every key of such a node that repeats the text
    of an earlier key of the same node, and nothing else: the number of
    errors is the sum, over these nodes of the tree, of the number of keys
    minus the number of distinct keys; so it reports nothing exactly when
    none of these nodes has two keys with the same text. *)
Theorem validateTree_duplicates (tree : SyntaxNode) (input : list Z) :
  length (validateTree tree input)
  = sum_list (map (duplicateCount input) (nodes tree))
  /\ (validateTree tree input = []
      <-> forall node, node ∈ nodes tree -> isDictNode node = true ->
                      NoDup (dictKeys input node)).
Proof.
  assert (length (validateTree tree input)
          = sum_list (map (duplicateCount input) (nodes tree))) as Hlen.
  { rewrite validateTree_nodes, validate_fold. simpl. lia. }
  split; [done|].
  rewrite <- length_zero_iff_nil, Hlen, sum_list_zero, Forall_map.
  rewrite Forall_forall. split.
  - intros H node Hin. apply duplicateCount_zero. simpl in H. by apply H.
  - intros H node Hin. apply duplicateCount_zero. by apply H.
Qed.

Lemma validateTree_duplicates_witness :
  (forall node, node ∈ nodes oneKey -> isDictNode node = true ->
                NoDup (dictKeys (codes "a: 1") node))
  /\ validateTree oneKey (codes "a: 1") = [].
Proof.
  assert (H : forall node, node ∈ nodes oneKey -> isDictNode node = true ->
                NoDup (dictKeys (codes "a: 1") node)).
  { intros node Hin. apply list_elem_of_In in Hin. simpl in Hin.
    intros Hd. destruct Hin as [<-|[<-|[<-|[<-|[]]]]];
      vm_compute; repeat constructor; inversion 1. }
  split; [exact H|].
  exact (proj2 (proj2 (validateTree_duplicates oneKey (codes "a: 1"))) H).
Defined.

Example validateTree_twoKeys :
  validateTree twoKeys (codes "a: 1" ++ NEWLINE :: codes "a: 2")
  = [codes "Duplicate key " ++ [QUOTE] ++ codes "a" ++ [QUOTE]
     ++ codes " found at position 5"].
Proof. vm_compute. reflexivity. Qed.

(** ** The test helpers *)

Lemma fold_collect {A B : Type} (p : A -> bool) (g : A -> B) (l : list A)
  (acc : list B) :
  fold_left (fun acc x => if p x then acc ++ [g x] else acc) l acc
  = acc ++ map g (filter (fun x => p x = true) l).
Proof.
  revert acc. induction l as [|x l IH]; intros acc; simpl;
    [by rewrite app_nil_r|].
  rewrite IH, filter_cons. destruct (p x) eqn:E.
  - rewrite decide_True by done. simpl. by rewrite <- app_assoc.
  - rewrite decide_False by done. done.
Qed.

Lemma fold_count {A : Type} (p : A -> bool) (l : list A) (acc : nat) :
  fold_left (fun acc x => if p x then S acc else acc) l acc
  = acc + length (filter (fun x => p x = true) l).
Proof.
  revert acc. induction l as [|x l IH]; intros acc; simpl; [lia|].
  rewrite IH, filter_cons. destruct (p x) eqn:E.
  - rewrite decide_True by done. simpl. lia.
  - rewrite decide_False by done. done.
Qed.

Lemma hasParseErrors_from (node : SyntaxNode) (acc : bool) :
  iterate
    (fun node hasErrors =>
       if nameIs node ERROR_NODE then (true, false) else (hasErrors, true))
    node acc
  = acc || existsb (fun n => nameIs n ERROR_NODE) (nodes node).
Proof.
  revert acc. induction node as [n f t cs IH] using SyntaxNode_induction.
  intros acc. rewrite iterate_children, nodes_children. cbn [existsb].
  destruct (nameIs (Node n f t cs) ERROR_NODE); simpl; [by rewrite orb_true_r|].
  revert acc. induction IH as [|c cs Hc _ IHcs]; intros acc; simpl;
    [by rewrite orb_false_r|].
  rewrite Hc, IHcs, existsb_app. by rewrite orb_assoc.
Qed.

Lemma hasParseErrors_exists (tree : SyntaxNode) :
  hasParseErrors tree = existsb (fun n => nameIs n ERROR_NODE) (nodes tree).
Proof. unfold hasParseErrors. by rewrite hasParseErrors_from. Qed.

Lemma getParseErrors_filter (tree : SyntaxNode) (input : list Z) :
  getParseErrors tree input
  = map (fun node => mkParseError (nodeFrom node) (nodeTo node)
                       (slice input (nodeFrom node) (nodeTo node)))
      (filter (fun node => nameIs node ERROR_NODE = true) (nodes tree)).
Proof.
  unfold getParseErrors. rewrite iterate_all by done. cbn [fst].
  by rewrite (fold_collect (fun node => nameIs node ERROR_NODE)).
Qed.

Lemma existsb_filter {A : Type} (p : A -> bool) (l : list A) :
  existsb p l = true <-> filter (fun x => p x = true) l <> [].
Proof.
  induction l as [|x l IH]; [done|].
  rewrite filter_cons. cbn [existsb]. destruct (p x) eqn:E.
  - rewrite decide_True by done. by split.
  - rewrite decide_False by done. exact IH.
Qed.

(** X16: [hasParseErrors], which does not look below an error node, still
    answers [true] exactly when the tree holds an error node somewhere,
    that is exactly when [getParseErrors] lists something; the list of
    [getParseErrors] has one entry per error node, as many as [countNodes]
    counts, and [countNodes] counts for every name as many nodes as
    [getNodeText] returns texts. *)
Theorem test_helpers_agree (tree : SyntaxNode) (input : list Z)
  (nodeName : list Z) :
  (hasParseErrors tree = true
   <-> exists node, node ∈ nodes tree /\ name node = ERROR_NODE)
  /\ (hasParseErrors tree = true <-> getParseErrors tree input <> [])
  /\ length (getParseErrors tree input) = countNodes tree ERROR_NODE
  /\ countNodes tree nodeName = length (getNodeText tree nodeName input).
Proof.
  assert (forall nm, countNodes tree nm
            = length (filter (fun node => nameIs node nm = true) (nodes tree)))
    as Hcount.
  { intros nm. unfold countNodes. rewrite iterate_all by done. cbn [fst].
    by rewrite (fold_count (fun node => nameIs node nm)). }
  repeat split.
  - rewrite hasParseErrors_exists. intros H.
    apply existsb_exists in H as (node & Hin & Hn).
    exists node. split; [by apply list_elem_of_In|].
    by apply bool_decide_eq_true in Hn.
  - intros (node & Hin & Hn). rewrite hasParseErrors_exists.
    apply existsb_exists. exists node. split; [by apply list_elem_of_In|].
    by apply bool_decide_eq_true.
  - rewrite hasParseErrors_exists, getParseErrors_filter, existsb_filter.
    intros H Hm. apply H. by apply map_eq_nil in Hm.
  - rewrite hasParseErrors_exists, getParseErrors_filter, existsb_filter.
    intros H Hm. apply H. by rewrite Hm.
  - by rewrite getParseErrors_filter, length_map, Hcount.
  - rewrite Hcount. unfold getNodeText. rewrite iterate_all by done.
    cbn [fst].
    rewrite (fold_collect (fun node => nameIs node nodeName)
               (fun node => slice input (nodeFrom node) (nodeTo node))).
    cbn [app]. by rewrite length_map.
Qed.

(** X17: an assertion of the official suite that expects no error passes
    exactly when the parsed tree has no error node and no dictionary node
    with a repeated key, and one that expects an error passes exactly when
    the tree is not such; when a tree has both kinds of fault, the thrown
    message is the one for the parse error. *)
Theorem runAssertion_verdict (parse : list Z -> SyntaxNode) (input : list Z) :
  (runAssertion parse input false = None <-> cleanTree (parse input) input)
  /\ (runAssertion parse input true = None
      <-> ~ cleanTree (parse input) input)
  /\ (hasParseErrors (parse input) = true ->
      runAssertion parse input false = Some (codes "unexpected parse error")).
Proof.
  assert (hasParseErrors (parse input) = false
          <-> forall node, node ∈ nodes (parse input) ->
                           name node <> ERROR_NODE) as Hsyntax.
  { rewrite hasParseErrors_exists, <- not_true_iff_false. split.
    - intros H node Hin Hn. apply H, existsb_exists. exists node.
      split; [by apply list_elem_of_In|]. by apply bool_decide_eq_true.
    - intros H Hex. apply existsb_exists in Hex as (node & Hin & Hn).
      apply (H node); [by apply list_elem_of_In|].
      by apply bool_decide_eq_true in Hn. }
  assert ((0 <? length (validateTree (parse input) input)) = false
          <-> forall node, node ∈ nodes (parse input) ->
                isDictNode node = true -> NoDup (dictKeys input node))
    as Hvalid.
  { rewrite Nat.ltb_ge, Nat.le_0_r, length_zero_iff_nil.
    rewrite validateTree_nodes.
    rewrite <- length_zero_iff_nil, validate_fold. simpl.
    rewrite sum_list_zero, Forall_map, Forall_forall.
    split; intros H node Hin; apply duplicateCount_zero; by apply H. }
  unfold runAssertion, cleanTree. cbv zeta.
  rewrite <- Hsyntax, <- Hvalid.
  destruct (hasParseErrors (parse input));
    destruct (0 <? length (validateTree (parse input) input)); simpl;
    (split; [|split]); try split; intros; try done;
    try (intuition congruence).
Qed.

Lemma runAssertion_verdict_witness :
  hasParseErrors (Node ERROR_NODE 0 1 []) = true
  /\ runAssertion (fun _ => Node ERROR_NODE 0 1 []) (codes ":") false
     = Some (codes "unexpected parse error").
Proof.
  split; [reflexivity|].
  exact (proj2 (proj2 (runAssertion_verdict
                         (fun _ => Node ERROR_NODE 0 1 []) (codes ":")))
           eq_refl).
Defined.

(** * The linter *)

Lemma spacing_exit (text : list Z) :
  ~ (loopWhile (length text) (fun '(i, _) => i <? length text - 1)
       (spacingBody text) (0, [])).1 < length text - 1.
Proof.
  assert (forall s : nat * list Diagnostic,
            (fun '(i, _) => i <? length text - 1) s = true ->
            length text - 1 - (spacingBody text s).1
            < length text - 1 - s.1) as Hdec.
  { intros [i diags] Hc. apply Nat.ltb_lt in Hc. unfold spacingBody.
    destruct (_ && _); simpl; lia. }
  pose proof (loopWhile_exit (fun '(i, _) => i <? length text - 1)
                (spacingBody text)
                (fun s : nat * list Diagnostic => length text - 1 - s.1)
                Hdec (length text) (0, [])) as H.
  destruct (loopWhile _ _ _ _) as [i diags]. simpl in *.
  specialize (H ltac:(lia)). apply Nat.ltb_ge in H. lia.
Qed.

Lemma spacingBody_cases (text : list Z) (i : nat) (diags : list Diagnostic) :
  i + 1 < length text ->
  (charAt text i = COLON /\ charAt text (i + 1) = COLON
   /\ i + 2 < length text
   /\ (spacingBody text (i, diags) = (i + 2, diags)
       \/ ((charAt text (i + 2) = 91%Z \/ charAt text (i + 2) = 123%Z)
           /\ spacingBody text (i, diags)
              = (i + 2,
                 diags ++ [mkDiagnostic (i + 2) (i + 2) (codes "error")
                             (codes "Expected space after ::")]))))
  \/ (~ (charAt text i = COLON /\ charAt text (i + 1) = COLON
         /\ i + 2 < length text)
      /\ ((spacingBody text (i, diags) = (i + 1, diags)
           /\ ~ (charAt text i = COLON /\ charAt text (i + 1) <> COLON
                 /\ validValueStart (charAt text (i + 1)) = true))
          \/ (charAt text i = COLON
              /\ validValueStart (charAt text (i + 1)) = true
              /\ spacingBody text (i, diags)
                 = (i + 1,
                    diags ++ [mkDiagnostic (i + 1) (i + 1) (codes "error")
                                (codes "Expected space after :")])))).
Proof.
  intros Hin. unfold spacingBody.
  destruct (Z.eqb_spec (charAt text i) COLON) as [Hc|Hc];
    destruct (Z.eqb_spec (charAt text (i + 1)) COLON) as [Hn|Hn];
    destruct (Nat.ltb_spec (i + 2) (length text)) as [Hl|Hl]; cbn [andb negb].
  - left. repeat split; try done.
    destruct (_ && _); [|by left].
    destruct (Z.eqb_spec (charAt text (i + 2)) 91) as [H1|H1]; cbn [orb].
    { right. split; [by left|done]. }
    destruct (Z.eqb_spec (charAt text (i + 2)) 123) as [H2|H2]; [|by left].
    right. split; [by right|done].
  - right. split; [intros (_ & _ & ?); lia|]. left. split; [done|].
    by intros (_ & ? & _).
  - right. split; [by intros (_ & ? & _)|].
    destruct (validValueStart (charAt text (i + 1))) eqn:Hv.
    + right. repeat split; try done.
      assert (((charAt text (i + 1) !== EOF) && (charAt text (i + 1) !== SPACE)
               && (charAt text (i + 1) !== NEWLINE)
               && (charAt text (i + 1) !== CR)
               && (charAt text (i + 1) !== HASH)) = true) as ->; [|done].
      revert Hv. generalize (charAt text (i + 1)). intros c Hv.
      destruct (Z.eqb_spec c EOF) as [->|]; [done|].
      destruct (Z.eqb_spec c SPACE) as [->|]; [done|].
      destruct (Z.eqb_spec c NEWLINE) as [->|]; [done|].
      destruct (Z.eqb_spec c CR) as [->|]; [done|].
      by destruct (Z.eqb_spec c HASH) as [->|].
    + left. split; [by destruct (_ && _)|]. by intros (_ & _ & ?).
  - right. split; [by intros (_ & ? & _)|].
    destruct (validValueStart (charAt text (i + 1))) eqn:Hv.
    + right. repeat split; try done.
      assert (((charAt text (i + 1) !== EOF) && (charAt text (i + 1) !== SPACE)
               && (charAt text (i + 1) !== NEWLINE)
               && (charAt text (i + 1) !== CR)
               && (charAt text (i + 1) !== HASH)) = true) as ->; [|done].
      revert Hv. generalize (charAt text (i + 1)). intros c Hv.
      destruct (Z.eqb_spec c EOF) as [->|]; [done|].
      destruct (Z.eqb_spec c SPACE) as [->|]; [done|].
      destruct (Z.eqb_spec c NEWLINE) as [->|]; [done|].
      destruct (Z.eqb_spec c CR) as [->|]; [done|].
      by destruct (Z.eqb_spec c HASH) as [->|].
    + left. split; [by destruct (_ && _)|]. by intros (_ & _ & ?).
  - right. split; [by intros (? & _)|]. left. split; [done|]. by intros (? & _).
  - right. split; [by intros (? & _)|]. left. split; [done|]. by intros (? & _).
  - right. split; [by intros (? & _)|]. left. split; [done|]. by intros (? & _).
  - right. split; [by intros (? & _)|]. left. split; [done|]. by intros (? & _).
Qed.

Lemma charAt_inside (text : list Z) (i : nat) :
  charAt text i <> EOF -> i < length text.
Proof.
  unfold charAt. intros H. destruct (text !! i) eqn:E; [|done].
  by eapply lookup_lt_Some.
Qed.

(** X18: every diagnostic of the spacing check is an error of width zero
    that stands directly behind a colon, inside the text: behind a single
    colon it stands at a character that can start a value, behind a double
    colon at an opening bracket or brace; and the diagnostics come in
    strictly increasing positions. *)
Theorem spacing_diagnostics_sound (text : list Z) :
  Forall (spacingFault text) (spacingDiagnostics text)
  /\ forall a b da db,
      a < b -> spacingDiagnostics text !! a = Some da ->
      spacingDiagnostics text !! b = Some db -> diagFrom da < diagFrom db.
Proof.
  set (Inv := fun s : nat * list Diagnostic =>
                Forall (spacingFault text) s.2
                /\ Forall (fun d => diagFrom d <= s.1) s.2
                /\ forall a b da db,
                    a < b -> s.2 !! a = Some da -> s.2 !! b = Some db ->
                    diagFrom da < diagFrom db).
  assert (Inv (loopWhile (length text) (fun '(i, _) => i <? length text - 1)
                 (spacingBody text) (0, []))) as (Hf & _ & Hs).
  { apply (loopWhile_invariant _ _ Inv).
    2:{ unfold Inv. simpl. repeat split; [constructor..|]. intros a b da db _ H.
        by rewrite lookup_nil in H. }
    intros [i diags] (Hf & Hle & Hs) Hc. simpl in Hf, Hle, Hs.
    apply Nat.ltb_lt in Hc.
    assert (forall d, diagFrom d = S i \/ diagFrom d = i + 2 ->
              spacingFault text d ->
              Inv (diagFrom d, diags ++ [d])) as Hpush.
    { intros d Hd Hfault. unfold Inv. simpl. repeat split.
      - apply Forall_app. split; [done|]. by constructor.
      - apply Forall_app. split.
        + eapply Forall_impl; [exact Hle|]. simpl. intros; lia.
        + by constructor.
      - intros a b da db Hab Ha Hb.
        apply lookup_lt_Some in Hb as Hlb. rewrite length_app in Hlb.
        simpl in Hlb.
        rewrite lookup_app_l in Ha by lia.
        destruct (decide (b < length diags)) as [Hb'|Hb'].
        + rewrite lookup_app_l in Hb by done. eauto.
        + rewrite lookup_app_r in Hb by lia.
          replace (b - length diags) with 0 in Hb by lia.
          injection Hb as <-.
          pose proof (Forall_lookup_1 _ _ _ _ Hle Ha) as Hda. simpl in Hda.
          lia. }
    assert (forall i', i <= i' -> Inv (i', diags)) as Hkeep.
    { intros i' Hi'. unfold Inv. simpl. repeat split; try done.
      eapply Forall_impl; [exact Hle|]. simpl. intros; lia. }
    destruct (spacingBody_cases text i diags ltac:(lia))
      as [(Hc0 & Hc1 & Hl & [->|[Hb ->]])
         |(_ & [[-> _]|(Hc0 & Hv & ->)])].
    - apply Hkeep. lia.
    - apply (Hpush (mkDiagnostic (i + 2) (i + 2) (codes "error")
                      (codes "Expected space after ::"))); [by right|].
      unfold spacingFault. simpl.
      replace (i + 2 - 1) with (i + 1) by lia.
      replace (i + 2 - 2) with i by lia.
      repeat split; try done; try lia. right. repeat split; try done. lia.
    - apply Hkeep. lia.
    - replace (i + 1) with (S i) by lia.
      apply (Hpush (mkDiagnostic (S i) (S i) (codes "error")
                      (codes "Expected space after :"))); [by left|].
      unfold spacingFault. simpl. rewrite Nat.sub_0_r.
      replace (S i) with (i + 1) by lia.
      repeat split; try done; try lia. left. by split. }
  split; [exact Hf|exact Hs].
Qed.

Lemma spacing_diagnostics_sound_witness :
  0 < 1
  /\ spacingDiagnostics (codes "a:1 b:2") !! 0
     = Some (mkDiagnostic 2 2 (codes "error") (codes "Expected space after :"))
  /\ spacingDiagnostics (codes "a:1 b:2") !! 1
     = Some (mkDiagnostic 6 6 (codes "error") (codes "Expected space after :"))
  /\ 2 < 6.
Proof.
  split; [lia|]. split; [reflexivity|]. split; [reflexivity|].
  exact (proj2 (spacing_diagnostics_sound (codes "a:1 b:2")) 0 1
           (mkDiagnostic 2 2 (codes "error") (codes "Expected space after :"))
           (mkDiagnostic 6 6 (codes "error") (codes "Expected space after :"))
           ltac:(lia) eq_refl eq_refl).
Defined.

(** X19: the spacing check reports every colon that is followed directly
    by a character that can start a value, unless the colon itself follows
    a colon: the diagnostic stands at the character behind the colon. *)
Theorem spacing_reports_tight_colons (text : list Z) (j : nat) :
  tightColon text j ->
  mkDiagnostic (j + 1) (j + 1) (codes "error")
    (codes "Expected space after :") ∈ spacingDiagnostics text.
Proof.
  intros Htight.
  set (D := fun j => mkDiagnostic (j + 1) (j + 1) (codes "error")
                       (codes "Expected space after :")).
  set (Inv := fun s : nat * list Diagnostic =>
                forall j, j < s.1 -> tightColon text j -> D j ∈ s.2).
  assert (Inv (loopWhile (length text) (fun '(i, _) => i <? length text - 1)
                 (spacingBody text) (0, []))) as Hinv.
  { apply (loopWhile_invariant _ _ Inv).
    2:{ intros k Hk. simpl in Hk. lia. }
    intros [i diags] Hi Hc. unfold Inv in Hi. simpl in Hi.
    apply Nat.ltb_lt in Hc.
    destruct (spacingBody_cases text i diags ltac:(lia))
      as [(Hc0 & Hc1 & Hl & Hb)|(Hnot & [[-> Hno]|(Hc0 & Hv & ->)])].
    - assert (forall k, k < i + 2 -> tightColon text k -> D k ∈ diags) as Hk.
      { intros k Hk Ht. pose proof Ht as (_ & Hk0 & Hk1 & Hprev & _).
        destruct (decide (k < i)) as [|Hge]; [by apply Hi|].
        destruct (decide (k = i)) as [->|]; [done|].
        replace k with (i + 1) in * by lia.
        replace (i + 1 - 1) with i in Hprev by lia.
        destruct Hprev; [lia|done]. }
      destruct Hb as [->|[_ ->]]; intros k Hlt Ht; simpl in *.
      + by apply Hk.
      + apply elem_of_app. left. by apply Hk.
    - intros k Hlt Ht. simpl in *.
      destruct (decide (k < i)) as [|Hge]; [by apply Hi|].
      replace k with i in * by lia.
      destruct Ht as (_ & Hk0 & Hk1 & _ & Hkv). by destruct Hno.
    - intros k Hlt Ht. simpl in *. apply elem_of_app.
      destruct (decide (k < i)) as [|Hge]; [left; by apply Hi|].
      replace k with i by lia. right. by apply list_elem_of_singleton. }
  pose proof (spacing_exit text) as Hexit.
  apply (Hinv j); [|done]. destruct Htight as (Hj & _). lia.
Qed.

Lemma spacing_reports_tight_colons_witness :
  tightColon (codes "a:1") 1
  /\ mkDiagnostic 2 2 (codes "error") (codes "Expected space after :")
     ∈ spacingDiagnostics (codes "a:1").
Proof.
  assert (tightColon (codes "a:1") 1) as Ht.
  { unfold tightColon. simpl. repeat split; try done; try lia. by right. }
  split; [exact Ht|].
  exact (spacing_reports_tight_colons (codes "a:1") 1 Ht).
Defined.

Lemma errorMessage_length (text : list Z) (node : SyntaxNode) :
  length (errorMessage text node) <= 71.
Proof.
  unfold errorMessage. cbv zeta.
  destruct (length (trim _) =? 0).
  - repeat match goal with |- context [if ?b then _ else _] => destruct b end;
      simpl; lia.
  - rewrite length_app.
    destruct (Nat.ltb_spec 50 (length (slice text (nodeFrom node) (nodeTo node)))).
    + rewrite length_app, length_take.
      change (length (codes "Unexpected token: ")) with 18.
      change (length (codes "...")) with 3. lia.
    + change (length (codes "Unexpected token: ")) with 18. lia.
Qed.

Lemma spacing_messages (text : list Z) :
  Forall (fun d => length (diagMessage d) <= 71) (spacingDiagnostics text).
Proof.
  apply (loopWhile_invariant (fun '(i, _) => i <? length text - 1)
           (spacingBody text)
           (fun s => Forall (fun d => length (diagMessage d) <= 71) s.2));
    [|constructor].
  intros [i diags] Hf _. unfold spacingBody. simpl in Hf.
  repeat match goal with |- context [if ?b then _ else _] => destruct b end;
    simpl; try done;
    (apply Forall_app; split; [done|]; constructor; [simpl; lia|constructor]).
Qed.

(** X20: the linter gives the diagnostics of the spacing check and then one
    error per error node of the tree, in document order, each over the span
    of its node; so it gives nothing exactly when the spacing check finds
    nothing and [hasParseErrors] answers [false]; and no message of an
    error node is longer than 71 characters, however long the text of the
    node is. *)
Theorem linter_diagnostics (text : list Z) (tree : SyntaxNode) :
  humlLinter text tree
  = spacingDiagnostics text
    ++ map (fun node => mkDiagnostic (nodeFrom node) (nodeTo node)
                          (codes "error") (errorMessage text node))
         (filter (fun node => nameIs node ERROR_NODE = true) (nodes tree))
  /\ length (humlLinter text tree)
     = length (spacingDiagnostics text) + countNodes tree ERROR_NODE
  /\ (humlLinter text tree = []
      <-> spacingDiagnostics text = [] /\ hasParseErrors tree = false)
  /\ forall d, d ∈ humlLinter text tree -> length (diagMessage d) <= 71.
Proof.
  assert (humlLinter text tree
          = spacingDiagnostics text
            ++ map (fun node => mkDiagnostic (nodeFrom node) (nodeTo node)
                                  (codes "error") (errorMessage text node))
                 (filter (fun node => nameIs node ERROR_NODE = true)
                    (nodes tree))) as Heq.
  { unfold humlLinter. rewrite iterate_all by done. cbn [fst].
    by rewrite (fold_collect (fun node => nameIs node ERROR_NODE)). }
  assert (countNodes tree ERROR_NODE
          = length (filter (fun node => nameIs node ERROR_NODE = true)
                      (nodes tree))) as Hcount.
  { unfold countNodes. rewrite iterate_all by done. cbn [fst].
    by rewrite (fold_count (fun node => nameIs node ERROR_NODE)). }
  split; [done|]. rewrite Heq. split; [|split].
  - by rewrite length_app, length_map, Hcount.
  - rewrite <- not_true_iff_false, hasParseErrors_exists, existsb_filter.
    split.
    + intros H. apply app_eq_nil in H as [H1 H2]. split; [done|].
      intros Hne. apply Hne. by apply map_eq_nil in H2.
    + intros [-> Hne].
      destruct (filter _ (nodes tree)) eqn:E; [done|]. by destruct Hne.
  - intros d Hd. apply elem_of_app in Hd as [Hd|Hd].
    + pose proof (spacing_messages text) as Hf.
      rewrite Forall_forall in Hf. by apply Hf.
    + apply list_elem_of_fmap in Hd as (node & -> & _). simpl.
      apply errorMessage_length.
Qed.

Lemma linter_diagnostics_witness :
  mkDiagnostic 2 2 (codes "error") (codes "Expected space after :")
    ∈ humlLinter (codes "a:1") oneKey
  /\ length (codes "Expected space after :") <= 71.
Proof.
  assert (H : mkDiagnostic 2 2 (codes "error") (codes "Expected space after :")
                ∈ humlLinter (codes "a:1") oneKey).
  { apply list_elem_of_In. vm_compute. left. reflexivity. }
  split; [exact H|].
  exact (proj2 (proj2 (proj2 (linter_diagnostics (codes "a:1") oneKey))) _ H).
Defined.

(** ** Smart indentation *)

Lemma repeat_two_spaces (k : nat) :
  concat (replicate k [SPACE; SPACE]) = replicate (2 * k) SPACE.
Proof.
  induction k as [|k IH]; [reflexivity|].
  replace (2 * S k) with (S (S (2 * k))) by lia.
  cbn [replicate concat app]. now rewrite IH.
Qed.

(** X21 (humlEnter, humlIndent).  The Enter key inserts a line feed and an
    even number of spaces, and leaves the cursor behind them.  The number of
    spaces is the indentation that [humlIndent] computes for the same
    position (none where it gives [null]), rounded down to an even number;
    the one exception is a list item that starts in the first column, where
    [humlEnter] inserts no spaces and [humlIndent] falls through to the
    indentation of the enclosing block. *)
Theorem enter_follows_indent (text : list Z) (pos : nat)
    (chain : list SyntaxNode) :
  let indent :=
    if bareListItem text pos then 0
    else default 0 (humlIndent text pos chain) in
  insert (humlEnter text pos chain)
    = NEWLINE :: replicate (2 * (indent / 2)) SPACE
  /\ changeFrom (humlEnter text pos chain) = pos
  /\ anchor (humlEnter text pos chain)
     = pos + length (insert (humlEnter text pos chain))
  /\ (bareListItem text pos = true ->
      humlIndent text pos chain = blockIndent text chain).
Proof.
  cbv zeta. unfold humlEnter, humlIndent, bareListItem. cbv zeta.
  cbn [insert changeFrom anchor].
  rewrite repeat_two_spaces.
  set (line := lineText text pos).
  set (trimmed := trim (take (pos - lineFrom text pos) line)).
  split; [|split; [reflexivity|split; [reflexivity|]]].
  - destruct (endsWith (codes "::") trimmed) eqn:E1.
    { rewrite andb_false_r. reflexivity. }
    destruct (endsWith (codes "-") trimmed) eqn:E2.
    { rewrite andb_false_r. reflexivity. }
    rewrite !andb_true_r. cbn [orb].
    unfold matchListItem.
    destruct (startsWith (codes "-") (trimStart line)) eqn:E3.
    + rewrite (bool_decide_eq_true_2 (is_Some _)) by eauto.
      destruct (leadingSpaces line) as [|n] eqn:E4.
      * rewrite bool_decide_eq_true_2 by reflexivity. reflexivity.
      * rewrite bool_decide_eq_false_2 by congruence. reflexivity.
    + rewrite (bool_decide_eq_false_2 (is_Some _)) by (intros [? ?]; congruence).
      rewrite bool_decide_eq_false_2 by congruence. reflexivity.
  - intros H. apply andb_true_iff in H as [H H2].
    apply andb_true_iff in H as [H H1].
    apply negb_true_iff in H1, H2. rewrite H1, H2.
    apply bool_decide_eq_true_1 in H. now rewrite H.
Qed.

Lemma enter_follows_indent_witness :
  bareListItem (codes "- 1") 3 = true
  /\ humlIndent (codes "- 1") 3 [] = blockIndent (codes "- 1") [].
Proof.
  split; [reflexivity|].
  exact (proj2 (proj2 (proj2 (enter_follows_indent (codes "- 1") 3 [])))
           eq_refl).
Defined.

(** X22 (humlEnter).  With the cursor behind a double colon (white space
    apart), Enter indents the new line deeper than the current one: by two
    spaces when the line starts with an even number of white space
    characters, by one when that number is odd. *)
Theorem enter_after_double_colon (text : list Z) (pos : nat)
    (chain : list SyntaxNode) :
  let line := lineText text pos in
  endsWith (codes "::") (trim (take (pos - lineFrom text pos) line)) = true ->
  insert (humlEnter text pos chain)
    = NEWLINE
      :: replicate (leadingSpaces line + 2 - leadingSpaces line mod 2) SPACE
  /\ leadingSpaces line
     < leadingSpaces line + 2 - leadingSpaces line mod 2.
Proof.
  cbv zeta. intros H. unfold humlEnter. cbv zeta. cbn [insert].
  rewrite H, repeat_two_spaces.
  set (n := leadingSpaces (lineText text pos)).
  pose proof (Nat.mod_upper_bound n 2 ltac:(lia)) as Hm.
  pose proof (Nat.div_mod_eq n 2) as Hd.
  replace (n + 2) with (n + 1 * 2) by lia.
  rewrite Nat.div_add by lia.
  split; [do 2 f_equal|]; lia.
Qed.

Lemma enter_after_double_colon_witness :
  endsWith (codes "::")
    (trim (take (5 - lineFrom (codes " a:: ") 5)
             (lineText (codes " a:: ") 5))) = true
  /\ insert (humlEnter (codes " a:: ") 5 [])
     = NEWLINE :: SPACE :: SPACE :: [].
Proof.
  split; [reflexivity|].
  exact (proj1 (enter_after_double_colon (codes " a:: ") 5 [] eq_refl)).
Defined.
